(** * myBolt: page ids, the freelist allocator and the B+tree cursor

    A shallow embedding of [page.go] (sorted page-id merge), [freelist.go]
    and [cursor.go], followed by the properties of the specification that
    are settled against it.

    Conventions of the embedding.
    - [pgid] and [txid] are Go [uint64]: a [Z] in [0, 2^64), every
      arithmetic operation of the source is followed by [wrap64].
    - A Go slice is a [list]; slice lengths and indices into slices are
      [nat], except where the source computes with a possibly negative
      [int] (the cursor's [index], [count()-1]), which is a [Z].
    - [map[txid][]pgid] is a [gmap Z (list Z)].  [map[pgid]bool] is only
      ever written with [true] and entries are removed with [delete], so it
      is the [gset Z] of its keys.
    - A panic is the outcome [Panicked]; a loop or recursion of the source
      whose termination is not structural takes fuel, and [OutOfFuel] is the
      outcome of running out of it. *)

From Stdlib Require Import ZArith Lia Strings.Byte.
From stdpp Require Import gmap sorting list.

Local Open Scope Z_scope.
Set Warnings "-clear-no-such-hyp,-register-all".

(** ** Outcomes *)

Inductive outcome (A : Type) : Type :=
| Done (a : A)
| Panicked
| OutOfFuel.
Arguments Done {A} a.
Arguments Panicked {A}.
Arguments OutOfFuel {A}.

Definition obind {A B} (m : outcome A) (k : A → outcome B) : outcome B :=
  match m with
  | Done a => k a
  | Panicked => Panicked
  | OutOfFuel => OutOfFuel
  end.

Notation "x ←← m ;; k" := (obind m (fun x => k))
  (at level 100, m at next level, right associativity, only parsing).

(** ** 64-bit unsigned arithmetic *)

Definition max_uint64 : Z := 2 ^ 64 - 1.
Definition wrap64 (z : Z) : Z := z mod 2 ^ 64.
Definition is_uint64 (z : Z) : Prop := 0 ≤ z ≤ max_uint64.
(** A Go [int] that is the length of something: [0 ≤ n < 2^63]. *)
Definition max_int : Z := 2 ^ 63 - 1.

(** ** Go slices *)

(** [copy(dst, src)]: the first [min (len dst) (len src)] slots of [dst]
    are overwritten. *)
Definition go_copy {A} (dst src : list A) : list A :=
  take (length dst) src ++ drop (length src) dst.

(** ** [sort.Search] (Go standard library)

    [for i < j { h := int(uint(i+j) >> 1); if !f(h) { i = h+1 } else { j = h } }].
    The distance [j - i] shrinks at every round, so [n] rounds of fuel are
    never exhausted. *)
Fixpoint search_loop (fuel : nat) (f : nat → bool) (i j : nat) : nat :=
  match fuel with
  | O => i
  | S fuel' =>
      if (i <? j)%nat then
        let h := Nat.div2 (i + j) in
        if negb (f h) then search_loop fuel' f (S h) j
        else search_loop fuel' f i h
      else i
  end.

Definition sort_Search (n : nat) (f : nat → bool) : nat :=
  search_loop n f 0%nat n.

(** Ascending (duplicates allowed) sequences of page ids. *)
Abbreviation ascending := (StronglySorted Z.le).

(** ** page.go: [pgids.merge] and [mergepgids] *)

(** The loop of [mergepgids]; [merged] is what has been appended so far.
    [follow[0]] on an empty [follow] is an index-out-of-range panic. *)
Fixpoint merge_loop (fuel : nat) (merged lead follow : list Z) : outcome (list Z) :=
  match fuel with
  | O => OutOfFuel
  | S fuel' =>
      match lead with
      | [] => Done (merged ++ follow)
      | _ :: _ =>
          match follow with
          | [] => Panicked
          | f0 :: _ =>
              let n := sort_Search (length lead) (fun i => f0 <? lead !!! i) in
              let merged' := merged ++ take n lead in
              if (length lead <=? n)%nat then Done (merged' ++ follow)
              else merge_loop fuel' merged' follow (drop n lead)
          end
      end
  end.

(** [mergepgids(dst, a, b)]; the result is the new content of [dst]. *)
Definition mergepgids (dst a b : list Z) : outcome (list Z) :=
  if (length dst <? length a + length b)%nat then Panicked
  else match a, b with
       | [], _ => Done (go_copy dst b)
       | _, [] => Done (go_copy dst a)
       | a0 :: _, b0 :: _ =>
           let '(lead, follow) := if b0 <? a0 then (b, a) else (a, b) in
           m ←← merge_loop (S (length a + length b)) [] lead follow ;;
           Done (go_copy dst m)
       end.

(** [a.merge(b)]: [make(pgids, len(a)+len(b))] is a zeroed slice. *)
Definition merge (a b : list Z) : outcome (list Z) :=
  match a, b with
  | [], _ => Done b
  | _, [] => Done a
  | _, _ => mergepgids (replicate (length a + length b) 0) a b
  end.

(** ** page.go: pages *)

Definition branchPageFlag : Z := 0x01.
Definition leafPageFlag : Z := 0x02.
Definition metaPageFlag : Z := 0x04.
Definition freelistPageFlag : Z := 0x10.
Definition bucketLeafFlag : Z := 0x01.

(** An element of a branch page; [pos] and [ksize] delimit the key bytes
    that [key()] returns, which is what the record holds. *)
Record branchPageElement : Type := {
  bpe_key : list Byte.byte;
  bpe_pgid : Z;
}.

(** An element of a leaf page, with the bytes [key()] and [value()] return. *)
Record leafPageElement : Type := {
  lpe_flags : Z;
  lpe_key : list Byte.byte;
  lpe_value : list Byte.byte;
}.

(** What [ptr] points at.  [PgidSlots l] is the body of a freelist page:
    [l] lists the first slots of the array of page ids that the source sees
    the body as when it casts [&p.ptr] (see [array_len] below for the
    length of that array). *)
Inductive page_data : Type :=
| BranchElements (l : list branchPageElement)
| LeafElements (l : list leafPageElement)
| PgidSlots (l : list Z).

Record page : Type := {
  p_id : Z;
  p_flags : Z;      (* uint16 *)
  p_count : Z;      (* uint16 *)
  p_overflow : Z;   (* uint32 *)
  p_ptr : page_data;
}.

(** The slots that a page lists: none for a page of another kind. *)
Definition pgid_slots (p : page) : list Z :=
  match p_ptr p with
  | PgidSlots l => l
  | _ => []
  end.

(** The length of the arrays that the source casts page bodies to.  The
    constant is declared per platform, in bolt_amd64.go and its like, which
    are not among these sources; this is its value on the 64-bit platforms,
    where [int] has the 64 bits that the embedding gives it. *)
Definition maxAllocSize : Z := 0x7FFFFFFF.

(** The cast of [&p.ptr] to a pointer to [[maxAllocSize]pgid]: an array of
    [maxAllocSize] page ids whatever the page holds, so that the bounds
    checks of Go are against [maxAllocSize] and not against the size of the
    page.  [l] lists the first slots of the array (an array that lists more
    than [maxAllocSize] slots has them all); a slot behind the listed ones
    reads as 0, as in a zeroed buffer.  [write] overwrites every such slot
    that it hands to [copyall], and where a property of [read] below
    depends on what a slot holds, the slot is a listed one.  [array_at l i]
    is [arr[i]] for an index within the array; [array_prefix l n] is
    [arr[:n]], or the whole array when it has fewer than [n] slots. *)
Definition array_len (l : list Z) : Z := Z.max maxAllocSize (Z.of_nat (length l)).
Definition array_at (l : list Z) (i : nat) : Z := default 0 (l !! i).
Definition array_prefix (l : list Z) (n : Z) : list Z :=
  l ++ replicate (Z.to_nat (Z.min n (array_len l)) - length l) 0.

(** ** freelist.go *)

Record freelist : Type := {
  ids : list Z;                  (* all free and available free page ids *)
  pending : gmap Z (list Z);     (* soon-to-be free page ids by tx *)
  cache : gset Z;                (* all free and pending page ids *)
}.

Definition newFreelist : freelist :=
  {| ids := []; pending := ∅; cache := ∅ |}.

(** [for _, list := range f.pending]: the lists, in the order of one
    iteration over the map. *)
Definition pending_lists (f : freelist) : list (list Z) :=
  (map_to_list (pending f)).*2.

Definition free_count (f : freelist) : nat := length (ids f).

Definition pending_count (f : freelist) : nat :=
  foldl (λ count list, (count + length list)%nat) 0%nat (pending_lists f).

Definition count (f : freelist) : nat := (free_count f + pending_count f)%nat.

(** [sort.Sort] on [pgids]: the ascending rearrangement. *)
Definition sort_pgids (l : list Z) : list Z := merge_sort Z.le l.

(** [copyall]: the new content of [dst]. *)
Definition copyall (f : freelist) (dst : list Z) : outcome (list Z) :=
  let m := foldl (λ m list, m ++ list) [] (pending_lists f) in
  mergepgids dst (ids f) (sort_pgids m).

(** [pgid(n)] for a Go [int] [n], and [int(x)] for a [uint64] [x]. *)
Definition pgid_of_int (n : Z) : Z := wrap64 n.
Definition int_of_uint64 (x : Z) : Z := if x <? 2 ^ 63 then x else x - 2 ^ 64.

(** The scan of [allocate]: [rest] is what is left of [f.ids], [i] the index
    of its head.  [Done (Some (i, initial))] when the block ending at index
    [i] is the first one of [n] contiguous ids, [Done None] when the range
    loop ends without one. *)
Fixpoint allocate_scan (n : Z) (rest : list Z) (i : nat) (initial previd : Z)
  : outcome (option (nat * Z)) :=
  match rest with
  | [] => Done None
  | id :: rest' =>
      if id <=? 1 then Panicked
      else
        let initial :=
          if (previd =? 0) || negb (wrap64 (id - previd) =? 1) then id else initial in
        if wrap64 (wrap64 (id - initial) + 1) =? pgid_of_int n
        then Done (Some (i, initial))
        else allocate_scan n rest' (S i) initial id
  end.

(** [s[lo:]] and [s[:hi]] with Go's bounds checks ([0 ≤ lo ≤ len],
    [0 ≤ hi ≤ cap]; the capacity of [f.ids] is at least its length and
    [hi] never exceeds the length here). *)
Definition slice_from {A} (s : list A) (lo : Z) : outcome (list A) :=
  if (lo <? 0) || (Z.of_nat (length s) <? lo) then Panicked
  else Done (drop (Z.to_nat lo) s).
Definition slice_to {A} (s : list A) (hi : Z) : outcome (list A) :=
  if (hi <? 0) || (Z.of_nat (length s) <? hi) then Panicked
  else Done (take (Z.to_nat hi) s).

(** [for i := pgid(0); i < pgid(n); i++ { delete(f.cache, initial+i) }] *)
Definition uncache_run (c : gset Z) (initial n : Z) : gset Z :=
  foldl (λ c i, c ∖ {[wrap64 (initial + i)]}) c (seqZ 0 (pgid_of_int n)).

Definition allocate (n : Z) (f : freelist) : outcome (Z * freelist) :=
  if (length (ids f) =? 0)%nat then Done (0, f)
  else
    r ←← allocate_scan n (ids f) 0%nat 0 0 ;;
    match r with
    | None => Done (0, f)
    | Some (i, initial) =>
        ids' ←←
          (if Z.of_nat i + 1 =? n then slice_from (ids f) (Z.of_nat i + 1)
           else
             dst ←← slice_from (ids f) (Z.of_nat i - n + 1) ;;
             src ←← slice_from (ids f) (Z.of_nat i + 1) ;;
             let arr := take (Z.to_nat (Z.of_nat i - n + 1)) (ids f) ++ go_copy dst src in
             slice_to arr (Z.of_nat (length (ids f)) - n)) ;;
        Done (initial, {| ids := ids'; pending := pending f;
                          cache := uncache_run (cache f) initial n |})
    end.

(** The number of values of a [uint64], as fuel: the loop of [free] goes
    round at most once more than that before it meets an id it has cached
    itself. *)
Definition uint64_card : nat := Z.to_nat (2 ^ 64).

(** [for id := p.id; id <= p.id+pgid(p.overflow); id++ { ... }], with
    [hi] the bound, [ids] the slice being appended to. *)
Fixpoint free_loop (fuel : nat) (id hi : Z) (ids : list Z) (cache : gset Z)
  : outcome (list Z * gset Z) :=
  match fuel with
  | O => OutOfFuel
  | S fuel' =>
      if id <=? hi then
        if decide (id ∈ cache) then Panicked
        else free_loop fuel' (wrap64 (id + 1)) hi (ids ++ [id]) ({[id]} ∪ cache)
      else Done (ids, cache)
  end.

Definition free (txid : Z) (p : page) (f : freelist) : outcome freelist :=
  if p_id p <=? 1 then Panicked
  else
    let ids0 := default [] (pending f !! txid) in
    r ←← free_loop (S (S uint64_card)) (p_id p) (wrap64 (p_id p + p_overflow p))
           ids0 (cache f) ;;
    Done {| ids := ids f; pending := <[txid := r.1]> (pending f); cache := r.2 |}.

(** [release]: [merge] allocates its own destination. *)
Definition release (txid : Z) (f : freelist) : outcome freelist :=
  let old := filter (λ kv, kv.1 ≤ txid) (pending f) in
  let m := foldl (λ m list, m ++ list) [] (map_to_list old).*2 in
  ids' ←← merge (ids f) (sort_pgids m) ;;
  Done {| ids := ids';
          pending := filter (λ kv, ¬ kv.1 ≤ txid) (pending f);
          cache := cache f |}.

Definition rollback (txid : Z) (f : freelist) : freelist :=
  {| ids := ids f;
     pending := delete txid (pending f);
     cache := foldl (λ c id, c ∖ {[id]}) (cache f) (default [] (pending f !! txid)) |}.

Definition freed (pgid : Z) (f : freelist) : bool := bool_decide (pgid ∈ cache f).

Definition reindex (f : freelist) : freelist :=
  let c1 := foldl (λ c id, {[id]} ∪ c) ∅ (ids f) in
  let c2 := foldl (λ c pendingIDs, foldl (λ c id, {[id]} ∪ c) c pendingIDs)
              c1 (pending_lists f) in
  {| ids := ids f; pending := pending f; cache := c2 |}.

(** [arr[:hi]] on the array view, with Go's bounds check
    [0 ≤ hi ≤ maxAllocSize]. *)
Definition array_slice_to (l : list Z) (hi : Z) : outcome (list Z) :=
  if (hi <? 0) || (array_len l <? hi) then Panicked
  else Done (take (Z.to_nat hi) (array_prefix l hi)).

(** [read]: [arr[0]] is within the array; [arr[idx:count]] panics when
    [count] is negative or beyond the array ([idx ≤ count] holds since
    [count = 0] is handled apart). *)
Definition read (p : page) (f : freelist) : outcome freelist :=
  let arr := pgid_slots p in
  let r := if p_count p =? 0xFFFF
           then (1%nat, int_of_uint64 (array_at arr 0))
           else (0%nat, p_count p) in
  let '(idx, count) := r in
  ids' ←← (if count =? 0 then Done []
           else
             s ←← array_slice_to arr count ;;
             Done (sort_pgids (drop idx s))) ;;
  Done (reindex {| ids := ids'; pending := pending f; cache := cache f |}).

(** [write]: the page after the call and the returned [error] ([None] is
    [nil]).  [copyall] gets [arr[:]], respectively [arr[1:]]; [mergepgids]
    writes the first [lenids] slots of it and panics when it has fewer, so
    the model hands it the slots of the array up to there.  [arr[0]] is
    within the array, which has [maxAllocSize] slots at least. *)
Definition write (p : page) (f : freelist) : outcome (page * option unit) :=
  let flags := Z.lor (p_flags p) freelistPageFlag in
  let lenids := Z.of_nat (count f) in
  let arr := pgid_slots p in
  r ←← (if lenids =? 0 then Done (0, p_ptr p)
        else if lenids <? 0xFFFF then
          arr' ←← copyall f (array_prefix arr lenids) ;;
          Done (lenids, PgidSlots arr')
        else
          tl' ←← copyall f (tail (array_prefix arr (lenids + 1))) ;;
          Done (0xFFFF, PgidSlots (wrap64 lenids :: tl'))) ;;
  Done ({| p_id := p_id p; p_flags := flags; p_count := r.1;
           p_overflow := p_overflow p; p_ptr := r.2 |}, None).

Definition reload (p : page) (f : freelist) : outcome freelist :=
  f1 ←← read p f ;;
  let pcache : gset Z :=
    foldl (λ c pendingIDs, foldl (λ c id, {[id]} ∪ c) c pendingIDs)
      ∅ (pending_lists f1) in
  let a := filter (λ id, id ∉ pcache) (ids f1) in
  Done (reindex {| ids := a; pending := pending f1; cache := cache f1 |}).

(** The ids of a page and its overflow pages: [p.id, ..., p.id + p.overflow]. *)
Definition page_run (p : page) : list Z := seqZ (p_id p) (p_overflow p + 1).

(** A page header within the ranges of its field types. *)
Definition page_header_ok (p : page) : Prop :=
  is_uint64 (p_id p) ∧ 0 ≤ p_overflow p < 2 ^ 32.

(** *** Vocabulary of the properties *)

(** [run_at l n j s]: the [n] elements of [l] from index [j] on are
    [s, s+1, ..., s+n-1]. *)
Definition run_at (l : list Z) (n : Z) (j : nat) (s : Z) : Prop :=
  ∀ k : nat, Z.of_nat k < n → l !! (j + k)%nat = Some (s + Z.of_nat k).

(** [has_run l n s]: the ids [s, ..., s+n-1] are all in [l]. *)
Definition has_run (l : list Z) (n s : Z) : Prop :=
  ∀ x, s ≤ x < s + n → x ∈ l.

(** Strictly ascending sequences of page ids. *)
Abbreviation strictly_ascending := (StronglySorted Z.lt).

(** Page ids that may be on a freelist: above the two meta pages. *)
Definition valid_ids (l : list Z) : Prop := Forall (λ x, 1 < x ≤ max_uint64) l.

(** A page header with the given id and overflow, for examples. *)
Definition page_at (id overflow : Z) : page :=
  {| p_id := id; p_flags := 0; p_count := 0; p_overflow := overflow;
     p_ptr := PgidSlots [] |}.

(** The state of the scan of [allocate] once the id at index [i] has been
    taken into the current block: the block starts at index [j0] with
    [initial], reaches up to [i], had fewer than [n] ids before [i] joined
    it, cannot be extended to the left, and no run ends before [i]. *)
Record block_inv (l : list Z) (n : Z) (i j0 : nat) (initial : Z) : Prop := {
  bi_le : (j0 ≤ i)%nat;
  bi_block : ∀ k, (j0 ≤ k ≤ i)%nat → l !! k = Some (initial + Z.of_nat (k - j0));
  bi_short : Z.of_nat (i - j0) < n;
  bi_boundary : ∀ a b, (0 < j0)%nat →
                       l !! pred j0 = Some a → l !! j0 = Some b → a + 1 ≠ b;
  bi_norun : ∀ j s, Z.of_nat j + n ≤ Z.of_nat i → ¬ run_at l n j s;
}.

(** The state of the scan before the id at index [i] is visited. *)
Definition scan_inv (l : list Z) (n : Z) (i j0 : nat) (initial previd : Z) : Prop :=
  (i = 0%nat ∧ previd = 0) ∨
  (∃ i', i = S i' ∧ l !! i' = Some previd ∧ block_inv l n i' j0 initial ∧
         Z.of_nat (i - j0) < n).

(** The freelist of scenario S1. *)
Definition freelist_s1 : freelist :=
  {| ids := [3; 4; 5; 6; 7; 9; 12; 13]; pending := ∅;
     cache := list_to_set [3; 4; 5; 6; 7; 9; 12; 13] |}.

(** [in_pending m x]: [x] is in one of the pending lists. *)
Definition in_pending (m : gmap Z (list Z)) (x : Z) : Prop :=
  ∃ t l, m !! t = Some l ∧ x ∈ l.

(** All pending ids, in the order of one iteration over the map. *)
Definition all_pending (m : gmap Z (list Z)) : list Z := concat (map_to_list m).*2.

(** Invariant 1: [cache = {ids} ∪ ⋃ pending.values()]. *)
Definition cache_ok (f : freelist) : Prop :=
  ∀ x, x ∈ cache f ↔ x ∈ ids f ∨ in_pending (pending f) x.

(** Invariants 1 to 4 of the data model. *)
Record freelist_inv (f : freelist) : Prop := {
  inv_cache : cache_ok f;
  inv_sorted : strictly_ascending (ids f);
  inv_valid : valid_ids (ids f);
  inv_pending_valid : ∀ t l, pending f !! t = Some l → valid_ids l;
  inv_free_pending : ∀ x, x ∈ ids f → ¬ in_pending (pending f) x;
  inv_pending_disjoint :
    ∀ t1 l1 t2 l2 x, pending f !! t1 = Some l1 → pending f !! t2 = Some l2 →
                     x ∈ l1 → x ∈ l2 → t1 = t2;
  inv_pending_nodup : ∀ t l, pending f !! t = Some l → NoDup l;
}.





(** The number of slots of the array view that [write] touches: the ids,
    and one more for the count when the escape applies. *)
Definition slots_needed (f : freelist) : nat :=
  if (count f =? 0)%nat then 0%nat
  else if Z.of_nat (count f) <? 0xFFFF then count f
  else S (count f).

(** [write] a page, then [read] it into a fresh freelist. *)
Definition write_then_read (p : page) (f : freelist) : outcome freelist :=
  r ←← write p f ;; read r.1 newFreelist.

(** The ids of a freelist and of its pending lists, ascending. *)
Definition all_ids_sorted (f : freelist) : list Z :=
  sort_pgids (ids f ++ all_pending (pending f)).

(** The freelist of scenario S3 and a page with four slots. *)
Definition freelist_s3 : freelist :=
  {| ids := [5; 7]; pending := {[7 := [9]]}; cache := {[5; 7; 9]} |}.
Definition page_s3 : page :=
  {| p_id := 4; p_flags := 0; p_count := 0; p_overflow := 0;
     p_ptr := PgidSlots [0; 0; 0; 0] |}.

(** A freelist with the 65535 free ids [2, ..., 65536] and a page that
    lists 65536 slots. *)
Definition freelist_big : freelist :=
  {| ids := seqZ 2 65535; pending := ∅; cache := list_to_set (seqZ 2 65535) |}.
Definition page_big : page :=
  {| p_id := 4; p_flags := 0; p_count := 0; p_overflow := 0;
     p_ptr := PgidSlots (replicate (Z.to_nat 65536) 0) |}.


(** ** cursor.go *)

(** [bytes.Compare] (Go standard library): lexicographic order on byte
    strings; [Lt], [Eq], [Gt] stand for -1, 0, +1. *)
Fixpoint bytes_compare (a b : list byte) : comparison :=
  match a, b with
  | [], [] => Eq
  | [], _ :: _ => Lt
  | _ :: _, [] => Gt
  | x :: a', y :: b' =>
      match N.compare (Byte.to_N x) (Byte.to_N y) with
      | Eq => bytes_compare a' b'
      | c => c
      end
  end.

Global Instance byte_eq_decision : EqDecision byte := Byte.byte_eq_dec.

Definition is_Lt (c : comparison) : bool := match c with Lt => true | _ => false end.
Definition is_Eq (c : comparison) : bool := match c with Eq => true | _ => false end.

(** Modelled from the spec: the [node] and [inode] types of node.go, which
    is not among the sources: "an in-memory, mutable representation with
    [isLeaf: bool] and [inodes: ordered sequence of {flags, pgid, key,
    value}]". *)
Record inode : Type := {
  i_flags : Z;
  i_pgid : Z;
  i_key : list byte;
  i_value : list byte;
}.

Record node : Type := {
  n_isLeaf : bool;
  n_inodes : list inode;
}.

Global Instance inode_inhabited : Inhabited inode :=
  populate {| i_flags := 0; i_pgid := 0; i_key := []; i_value := [] |}.
Global Instance branchPageElement_inhabited : Inhabited branchPageElement :=
  populate {| bpe_key := []; bpe_pgid := 0 |}.
Global Instance leafPageElement_inhabited : Inhabited leafPageElement :=
  populate {| lpe_flags := 0; lpe_key := []; lpe_value := [] |}.

(** Modelled from the spec: what the cursor uses of its [Bucket] (bucket.go
    and tx.go are not among the sources): the root page id, the resolver
    "[pageNode(pgid) → (page?, node?)]: at least one non-null", and whether
    the transaction is still open ([tx.db != nil]). *)
Record Bucket : Type := {
  b_open : bool;
  b_root : Z;
  b_pageNode : Z → option page * option node;
}.

(** [elemRef]: a reference to an element on a given page/node. *)
Record elemRef : Type := {
  e_page : option page;
  e_node : option node;
  e_index : Z;
}.

Definition with_index (r : elemRef) (i : Z) : elemRef :=
  {| e_page := e_page r; e_node := e_node r; e_index := i |}.

(** [r.isLeaf()]; with neither a node nor a page the page is dereferenced
    as nil. *)
Definition elem_isLeaf (r : elemRef) : outcome bool :=
  match e_node r, e_page r with
  | Some n, _ => Done (n_isLeaf n)
  | None, Some p => Done (negb (Z.land (p_flags p) leafPageFlag =? 0))
  | None, None => Panicked
  end.

(** [r.count()] *)
Definition elem_count (r : elemRef) : outcome Z :=
  match e_node r, e_page r with
  | Some n, _ => Done (Z.of_nat (length (n_inodes n)))
  | None, Some p => Done (p_count p)
  | None, None => Panicked
  end.

(** Indexing a slice: out of range is a panic; a negative index too. *)
Definition at_index {A} (l : list A) (i : Z) : outcome A :=
  if i <? 0 then Panicked
  else match l !! Z.to_nat i with
       | Some x => Done x
       | None => Panicked
       end.

(** The arrays a page body is viewed as ([0x7FFFFFF] elements long in the
    source, whatever the page holds).  The model follows the elements that
    the page holds; an element beyond them, or of a page of another kind,
    is outside of it and ends the run as a panic does. *)
Definition branch_array (p : page) : list branchPageElement :=
  match p_ptr p with BranchElements l => l | _ => [] end.
Definition leaf_array (p : page) : list leafPageElement :=
  match p_ptr p with LeafElements l => l | _ => [] end.

(** [p.branchPageElement(index)], [p.leafPageElement(index)] with
    [index uint16]. *)
Definition branchPageElement_at (p : page) (index : Z) : outcome branchPageElement :=
  at_index (branch_array p) (index mod 2 ^ 16).
Definition leafPageElement_at (p : page) (index : Z) : outcome leafPageElement :=
  at_index (leaf_array p) (index mod 2 ^ 16).

(** [p.branchPageElements()], [p.leafPageElements()]: nil when [count] is 0. *)
Definition branchPageElements (p : page) : list branchPageElement :=
  if p_count p =? 0 then [] else branch_array p.
Definition leafPageElements (p : page) : list leafPageElement :=
  if p_count p =? 0 then [] else leaf_array p.

(** [sort.Search] with a closure that also updates captured variables:
    [f h s] is the closure's result at [h] and the new captured state. *)
Fixpoint search_loop_st {St : Type} (fuel : nat) (f : nat → St → bool * St)
    (i j : nat) (s : St) : nat * St :=
  match fuel with
  | O => (i, s)
  | S fuel' =>
      if (i <? j)%nat then
        let h := Nat.div2 (i + j) in
        let '(r, s') := f h s in
        if negb r then search_loop_st fuel' f (S h) j s'
        else search_loop_st fuel' f i h s'
      else (i, s)
  end.

Definition sort_Search_st {St : Type} (n : nat) (f : nat → St → bool * St) (s : St)
  : nat * St :=
  search_loop_st n f 0%nat n s.

(** The closure of [searchNode] and [searchPage]: [ret != -1], and
    [exact = true] when [ret == 0]; [keys] gives the key at an index. *)
Definition branch_probe (keys : nat → list byte) (key : list byte)
    (i : nat) (exact : bool) : bool * bool :=
  let ret := bytes_compare (keys i) key in
  (negb (is_Lt ret), exact || is_Eq ret).

(** What [searchNode] and [searchPage] store in the frame: the result of
    the search, stepped back by one when the match is not exact. *)
Definition branch_index (n : nat) (keys : nat → list byte) (key : list byte) : Z :=
  let '(index, exact) := sort_Search_st n (branch_probe keys key) false in
  if negb exact && (0 <? Z.of_nat index) then Z.of_nat index - 1 else Z.of_nat index.

(** The closure of [nsearch]. *)
Definition leaf_probe (keys : nat → list byte) (key : list byte) (i : nat) : bool :=
  negb (is_Lt (bytes_compare (keys i) key)).

(** The top of the stack, [c.stack[len(c.stack)-1]]. *)
Definition stack_top (stack : list elemRef) : outcome elemRef :=
  match last stack with
  | Some e => Done e
  | None => Panicked
  end.

Definition set_top_index (stack : list elemRef) (i : Z) : list elemRef :=
  alter (λ e, with_index e i) (pred (length stack)) stack.

(** The keys of a node or of a page, by index. *)
Definition node_keys (n : node) (i : nat) : list byte := i_key (n_inodes n !!! i).
Definition branch_page_keys (p : page) (i : nat) : list byte :=
  bpe_key (branchPageElements p !!! i).
Definition leaf_page_keys (p : page) (i : nat) : list byte :=
  lpe_key (leafPageElements p !!! i).

(** [nsearch]: the stack with the index of its top set. *)
Definition nsearch (key : list byte) (stack : list elemRef) : outcome (list elemRef) :=
  e ←← stack_top stack ;;
  match e_node e, e_page e with
  | Some n, _ =>
      let index := sort_Search (length (n_inodes n)) (leaf_probe (node_keys n) key) in
      Done (set_top_index stack (Z.of_nat index))
  | None, Some p =>
      let index := sort_Search (Z.to_nat (p_count p)) (leaf_probe (leaf_page_keys p) key) in
      Done (set_top_index stack (Z.of_nat index))
  | None, None => Panicked
  end.

(** [searchNode] and [searchPage]: the index of the frame on top of the
    stack is set, then the search goes on in the child page under it.  The
    two call [Cursor.search] back; [search] is that call, which
    [Cursor.search] below fills in with itself (and the fuel it has left). *)
Definition searchNode (search : list byte → Z → list elemRef → outcome (list elemRef))
    (key : list byte) (n : node) (stack : list elemRef) : outcome (list elemRef) :=
  let index := branch_index (length (n_inodes n)) (node_keys n) key in
  _ ←← stack_top stack ;;
  let stack := set_top_index stack index in
  child ←← at_index (n_inodes n) index ;;
  search key (i_pgid child) stack.

Definition searchPage (search : list byte → Z → list elemRef → outcome (list elemRef))
    (key : list byte) (p : page) (stack : list elemRef) : outcome (list elemRef) :=
  let inodes := branchPageElements p in
  let index := branch_index (Z.to_nat (p_count p)) (branch_page_keys p) key in
  _ ←← stack_top stack ;;
  let stack := set_top_index stack index in
  child ←← at_index inodes index ;;
  search key (bpe_pgid child) stack.

(** [search]; the recursion follows page ids, so it takes fuel. *)
Fixpoint search (b : Bucket) (fuel : nat) (key : list byte) (pgid : Z)
    (stack : list elemRef) : outcome (list elemRef) :=
  match fuel with
  | O => OutOfFuel
  | S fuel' =>
      let '(p, n) := b_pageNode b pgid in
      if match p with
         | Some pg => Z.land (p_flags pg) (Z.lor branchPageFlag leafPageFlag) =? 0
         | None => false
         end
      then Panicked
      else
        let e := {| e_page := p; e_node := n; e_index := 0 |} in
        let stack := stack ++ [e] in
        leaf ←← elem_isLeaf e ;;
        if leaf then nsearch key stack
        else
          match n, p with
          | Some nd, _ => searchNode (search b fuel') key nd stack
          | None, Some pg => searchPage (search b fuel') key pg stack
          | None, None => Panicked
          end
  end.

(** What the cursor returns: key, value ([None] is nil) and flags. *)
Definition kv : Type := option (list byte) * option (list byte) * Z.
Definition kv_nil : kv := (None, None, 0).

(** [keyValue] *)
Definition keyValue (stack : list elemRef) : outcome kv :=
  ref ←← stack_top stack ;;
  count ←← elem_count ref ;;
  if (count =? 0) || (count <=? e_index ref) then Done kv_nil
  else
    match e_node ref, e_page ref with
    | Some n, _ =>
        inode ←← at_index (n_inodes n) (e_index ref) ;;
        Done (Some (i_key inode), Some (i_value inode), i_flags inode)
    | None, Some p =>
        elem ←← leafPageElement_at p (e_index ref) ;;
        Done (Some (lpe_key elem), Some (lpe_value elem), lpe_flags elem)
    | None, None => Panicked
    end.

(** The page id under the frame's index, as [first] and [last] read it. *)
Definition child_pgid (ref : elemRef) : outcome Z :=
  match e_node ref, e_page ref with
  | Some n, _ => inode ←← at_index (n_inodes n) (e_index ref) ;; Done (i_pgid inode)
  | None, Some p => elem ←← branchPageElement_at p (e_index ref) ;; Done (bpe_pgid elem)
  | None, None => Panicked
  end.

(** [first]: down to the leftmost leaf under the top of the stack. *)
Fixpoint first (b : Bucket) (fuel : nat) (stack : list elemRef)
  : outcome (list elemRef) :=
  match fuel with
  | O => OutOfFuel
  | S fuel' =>
      ref ←← stack_top stack ;;
      leaf ←← elem_isLeaf ref ;;
      if leaf then Done stack
      else
        pgid ←← child_pgid ref ;;
        let '(p, n) := b_pageNode b pgid in
        first b fuel' (stack ++ [{| e_page := p; e_node := n; e_index := 0 |}])
  end.

(** The inner loop of [next]: [for i = len(c.stack)-1; i >= 0; i--], with
    [k] frames still to visit, so that the frame visited is [k-1].
    [Done None] is [i == -1]; otherwise the index [i] and the stack with
    that frame's index incremented. *)
Fixpoint next_scan (stack : list elemRef) (k : nat)
  : outcome (option (nat * list elemRef)) :=
  match k with
  | O => Done None
  | S i =>
      match stack !! i with
      | None => Panicked
      | Some elem =>
          count ←← elem_count elem ;;
          if e_index elem <? count - 1
          then Done (Some (i, <[i := with_index elem (e_index elem + 1)]> stack))
          else next_scan stack i
      end
  end.

(** [next]: the stack afterwards and what is returned. *)
Fixpoint next (b : Bucket) (fuel : nat) (stack : list elemRef)
  : outcome (list elemRef * kv) :=
  match fuel with
  | O => OutOfFuel
  | S fuel' =>
      r ←← next_scan stack (length stack) ;;
      match r with
      | None => Done (stack, kv_nil)
      | Some (i, stack) =>
          let stack := take (S i) stack in
          stack ←← first b fuel stack ;;
          top ←← stack_top stack ;;
          count ←← elem_count top ;;
          if count =? 0 then next b fuel' stack
          else r ←← keyValue stack ;; Done (stack, r)
      end
  end.

(** [_assert(c.bucket.tx.db != nil, "tx closed")] *)
Definition assert_open (b : Bucket) : outcome unit :=
  if b_open b then Done () else Panicked.

(** The last step of [First], [Next] and [Seek]: a sub-bucket has no value. *)
Definition hide_bucket_value (r : kv) : option (list byte) * option (list byte) :=
  let '(k, v, flags) := r in
  if negb (Z.land flags bucketLeafFlag =? 0) then (k, None) else (k, v).

(** [seek] *)
Definition seek (b : Bucket) (fuel : nat) (key : list byte)
  : outcome (list elemRef * kv) :=
  _ ←← assert_open b ;;
  stack ←← search b fuel key (b_root b) [] ;;
  ref ←← stack_top stack ;;
  count ←← elem_count ref ;;
  if count <=? e_index ref then Done (stack, kv_nil)
  else r ←← keyValue stack ;; Done (stack, r).

(** [Cursor.Seek]: the cursor's stack afterwards, and the key and value. *)
Definition Seek (b : Bucket) (fuel : nat) (key : list byte)
  : outcome (list elemRef * (option (list byte) * option (list byte))) :=
  sr ←← seek b fuel key ;;
  let '(stack, r) := sr in
  ref ←← stack_top stack ;;
  count ←← elem_count ref ;;
  sr ←← (if count <=? e_index ref then next b fuel stack else Done (stack, r)) ;;
  let '(stack, r) := sr in
  match r with
  | (None, _, _) => Done (stack, (None, None))
  | _ => Done (stack, hide_bucket_value r)
  end.

(** [Cursor.First] *)
Definition First (b : Bucket) (fuel : nat)
  : outcome (list elemRef * (option (list byte) * option (list byte))) :=
  _ ←← assert_open b ;;
  let '(p, n) := b_pageNode b (b_root b) in
  let stack := [{| e_page := p; e_node := n; e_index := 0 |}] in
  stack ←← first b fuel stack ;;
  top ←← stack_top stack ;;
  count ←← elem_count top ;;
  stack ←← (if count =? 0 then sr ←← next b fuel stack ;; Done sr.1 else Done stack) ;;
  r ←← keyValue stack ;;
  Done (stack, hide_bucket_value r).

(** [Cursor.Next] *)
Definition Next (b : Bucket) (fuel : nat) (stack : list elemRef)
  : outcome (list elemRef * (option (list byte) * option (list byte))) :=
  _ ←← assert_open b ;;
  sr ←← next b fuel stack ;;
  Done (sr.1, hide_bucket_value sr.2).

(** *** Vocabulary of the cursor properties *)

Definition key_lt (a b : list byte) : Prop := bytes_compare a b = Lt.
Definition key_le (a b : list byte) : Prop := bytes_compare a b ≠ Gt.

(** Keys [keys 0, ..., keys (n-1)] in strictly ascending order. *)
Definition keys_ascending (n : nat) (keys : nat → list byte) : Prop :=
  ∀ i j, (i < j < n)%nat → key_lt (keys i) (keys j).

(** [lower_bound n keys key l]: [l] is the leftmost index whose key is
    [≥ key], or [n] when there is none. *)
Definition lower_bound (n : nat) (keys : nat → list byte) (key : list byte) (l : nat) : Prop :=
  (l ≤ n)%nat ∧
  (∀ i, (i < l)%nat → key_lt (keys i) key) ∧
  (∀ i, (l ≤ i < n)%nat → key_le key (keys i)).

(** The check at the head of [search]: a page, when there is one, is a
    branch or a leaf. *)
Definition flags_valid (p : option page) : Prop :=
  match p with
  | Some pg => Z.land (p_flags pg) (Z.lor branchPageFlag leafPageFlag) ≠ 0
  | None => True
  end.

Definition inode_entry (i : inode) : leafPageElement :=
  {| lpe_flags := i_flags i; lpe_key := i_key i; lpe_value := i_value i |}.
Definition inode_child (i : inode) : list byte * Z := (i_key i, i_pgid i).
Definition bpe_child (e : branchPageElement) : list byte * Z := (bpe_key e, bpe_pgid e).

(** [resolves_branch pn cs]: what [pageNode] returned is a branch, as a
    node or as a page, whose elements are the separator keys and child page
    ids [cs]. *)
Definition resolves_branch (pn : option page * option node)
    (cs : list (list byte * Z)) : Prop :=
  flags_valid pn.1 ∧
  match pn.2, pn.1 with
  | Some nd, _ => n_isLeaf nd = false ∧ inode_child <$> n_inodes nd = cs
  | None, Some pg =>
      Z.land (p_flags pg) leafPageFlag = 0 ∧
      p_count pg = Z.of_nat (length cs) ∧ p_count pg < 2 ^ 16 ∧
      bpe_child <$> branch_array pg = cs
  | None, None => False
  end.

(** [resolves_leaf pn es]: what [pageNode] returned is a leaf with the
    elements [es]. *)
Definition resolves_leaf (pn : option page * option node)
    (es : list leafPageElement) : Prop :=
  flags_valid pn.1 ∧
  match pn.2, pn.1 with
  | Some nd, _ => n_isLeaf nd = true ∧ inode_entry <$> n_inodes nd = es
  | None, Some pg =>
      Z.land (p_flags pg) leafPageFlag ≠ 0 ∧
      p_count pg = Z.of_nat (length es) ∧ p_count pg < 2 ^ 16 ∧
      leaf_array pg = es
  | None, None => False
  end.

Definition branch_keys (cs : list (list byte * Z)) (i : nat) : list byte := (cs !!! i).1.
Definition entry_keys (es : list leafPageElement) (i : nat) : list byte :=
  lpe_key (es !!! i).

(** The frame of the cursor for page id [id] with index [i]. *)
Definition frame (b : Bucket) (id : Z) (i : Z) : elemRef :=
  {| e_page := (b_pageNode b id).1; e_node := (b_pageNode b id).2; e_index := i |}.

(** A B+tree as the cursor sees it: leaves with their elements, branches
    with separator keys and subtrees, every node with its page id. *)
Inductive tree : Type :=
| TLeaf (id : Z) (es : list leafPageElement)
| TBranch (id : Z) (cs : list (list byte * tree)).

Definition root_id (t : tree) : Z :=
  match t with TLeaf id _ => id | TBranch id _ => id end.

Definition child_view (c : list byte * tree) : list byte * Z := (c.1, root_id c.2).

(** [represents b t]: the bucket resolves the page ids of [t] to its nodes;
    a branch has at least one child. *)
Inductive represents (b : Bucket) : tree → Prop :=
| rep_leaf id es :
    resolves_leaf (b_pageNode b id) es → represents b (TLeaf id es)
| rep_branch id cs :
    resolves_branch (b_pageNode b id) (child_view <$> cs) →
    cs ≠ [] →
    Forall (λ c, represents b c.2) cs →
    represents b (TBranch id cs).

(** The leaf elements of a tree, left to right. *)
Fixpoint entries (t : tree) : list leafPageElement :=
  match t with
  | TLeaf _ es => es
  | TBranch _ cs =>
      (fix go (cs : list (list byte * tree)) : list leafPageElement :=
         match cs with
         | [] => []
         | c :: cs' => entries c.2 ++ go cs'
         end) cs
  end.

Fixpoint height (t : tree) : nat :=
  match t with
  | TLeaf _ _ => 0%nat
  | TBranch _ cs =>
      S ((fix go (cs : list (list byte * tree)) : nat :=
            match cs with
            | [] => 0%nat
            | c :: cs' => Nat.max (height c.2) (go cs')
            end) cs)
  end.

Fixpoint leaves (t : tree) : nat :=
  match t with
  | TLeaf _ _ => 1%nat
  | TBranch _ cs =>
      (fix go (cs : list (list byte * tree)) : nat :=
         match cs with
         | [] => 0%nat
         | c :: cs' => (leaves c.2 + go cs')%nat
         end) cs
  end.

(** What [keyValue] returns on a leaf element. *)
Definition entry_kv (x : leafPageElement) : kv :=
  (Some (lpe_key x), Some (lpe_value x), lpe_flags x).

(** *** Example buckets *)

Definition leaf_elem (k v : byte) : leafPageElement :=
  {| lpe_flags := 0; lpe_key := [k]; lpe_value := [v] |}.

Definition leaf_page (id : Z) (es : list leafPageElement) : page :=
  {| p_id := id; p_flags := leafPageFlag; p_count := Z.of_nat (length es);
     p_overflow := 0; p_ptr := LeafElements es |}.

Definition branch_page (id : Z) (cs : list branchPageElement) : page :=
  {| p_id := id; p_flags := branchPageFlag; p_count := Z.of_nat (length cs);
     p_overflow := 0; p_ptr := BranchElements cs |}.

(** Scenario S5: one leaf page with the keys "a", "c", "e". *)
Definition leaf_s5 : list leafPageElement :=
  [leaf_elem x61 x31; leaf_elem x63 x32; leaf_elem x65 x33].
Definition bucket_s5 : Bucket :=
  {| b_open := true; b_root := 3;
     b_pageNode := λ id, (Some (leaf_page id leaf_s5), None) |}.
Definition tree_s5 : tree := TLeaf 3 leaf_s5.

(** Scenario S6: two leaf pages, keys "a", "b" and "c", "d", under one
    branch page. *)
Definition leaf_s6_left : list leafPageElement := [leaf_elem x61 x31; leaf_elem x62 x32].
Definition leaf_s6_right : list leafPageElement := [leaf_elem x63 x33; leaf_elem x64 x34].
Definition branch_s6 : list branchPageElement :=
  [{| bpe_key := [x61]; bpe_pgid := 4 |}; {| bpe_key := [x63]; bpe_pgid := 5 |}].
Definition bucket_s6 : Bucket :=
  {| b_open := true; b_root := 3;
     b_pageNode := λ id,
       if id =? 3 then (Some (branch_page 3 branch_s6), None)
       else if id =? 4 then (Some (leaf_page 4 leaf_s6_left), None)
       else (Some (leaf_page 5 leaf_s6_right), None) |}.
Definition tree_s6 : tree :=
  TBranch 3 [([x61], TLeaf 4 leaf_s6_left); ([x63], TLeaf 5 leaf_s6_right)].

(** *** A cursor in a tree *)

(** The number of elements of the root node of a tree. *)
Definition node_count (t : tree) : Z :=
  match t with
  | TLeaf _ es => Z.of_nat (length es)
  | TBranch _ cs => Z.of_nat (length cs)
  end.

(** The elements of the children [cs], left to right. *)
Definition children_entries (cs : list (list byte * tree)) : list leafPageElement :=
  concat ((λ c, entries c.2) <$> cs).

Definition children_leaves (cs : list (list byte * tree)) : nat :=
  foldr (λ c acc, (leaves c.2 + acc)%nat) 0%nat cs.

(** [cursor_in b t stack]: the stack, root first, is a path from the root
    of [t] down to a leaf, each frame holding what the bucket resolves the
    node's page id to, with the index of the child the next frame is for. *)
Fixpoint cursor_in (b : Bucket) (t : tree) (stack : list elemRef) : Prop :=
  match stack with
  | [] => False
  | e :: rest =>
      e = frame b (root_id t) (e_index e) ∧ 0 ≤ e_index e ∧
      match t with
      | TLeaf _ _ => rest = []
      | TBranch _ cs =>
          match cs !! Z.to_nat (e_index e) with
          | Some c => cursor_in b c.2 rest
          | None => False
          end
      end
  end.

(** The elements of the leaf the cursor is in. *)
Fixpoint leaf_of (t : tree) (stack : list elemRef) : list leafPageElement :=
  match stack with
  | [] => []
  | e :: rest =>
      match t with
      | TLeaf _ es => es
      | TBranch _ cs =>
          match cs !! Z.to_nat (e_index e) with
          | Some c => leaf_of c.2 rest
          | None => []
          end
      end
  end.

(** The element the cursor is on, if its index is within its leaf. *)
Fixpoint here (t : tree) (stack : list elemRef) : option leafPageElement :=
  match stack with
  | [] => None
  | e :: rest =>
      match t with
      | TLeaf _ es => es !! Z.to_nat (e_index e)
      | TBranch _ cs =>
          match cs !! Z.to_nat (e_index e) with
          | Some c => here c.2 rest
          | None => None
          end
      end
  end.

(** The elements to the right of the cursor. *)
Fixpoint after (t : tree) (stack : list elemRef) : list leafPageElement :=
  match stack with
  | [] => []
  | e :: rest =>
      match t with
      | TLeaf _ es => drop (S (Z.to_nat (e_index e))) es
      | TBranch _ cs =>
          match cs !! Z.to_nat (e_index e) with
          | Some c => after c.2 rest
          | None => []
          end ++ children_entries (drop (S (Z.to_nat (e_index e))) cs)
      end
  end.

(** The leaves to the right of the cursor's leaf. *)
Fixpoint right_leaves (t : tree) (stack : list elemRef) : nat :=
  match stack with
  | [] => 0%nat
  | e :: rest =>
      match t with
      | TLeaf _ _ => 0%nat
      | TBranch _ cs =>
          (match cs !! Z.to_nat (e_index e) with
           | Some c => right_leaves c.2 rest
           | None => 0%nat
           end + children_leaves (drop (S (Z.to_nat (e_index e))) cs))%nat
      end
  end.

(** The path to the first slot of the leftmost leaf. *)
Fixpoint leftmost (b : Bucket) (t : tree) : list elemRef :=
  frame b (root_id t) 0 ::
  match t with
  | TLeaf _ _ => []
  | TBranch _ cs =>
      match cs with
      | [] => []
      | c :: _ => leftmost b c.2
      end
  end.

(** One round of the loop of [next] on a cursor: the deepest frame that
    can move one to the right does, and the path goes down to the leftmost
    leaf below it; [None] when no frame can. *)
Fixpoint round (b : Bucket) (t : tree) (stack : list elemRef) : option (list elemRef) :=
  match stack with
  | [] => None
  | e :: rest =>
      match t with
      | TLeaf _ es =>
          if e_index e <? Z.of_nat (length es) - 1
          then Some [with_index e (e_index e + 1)] else None
      | TBranch _ cs =>
          match match cs !! Z.to_nat (e_index e) with
                | Some c => round b c.2 rest
                | None => None
                end with
          | Some rest' => Some (e :: rest')
          | None =>
              if e_index e <? Z.of_nat (length cs) - 1
              then Some (with_index e (e_index e + 1) ::
                         match cs !! Z.to_nat (e_index e + 1) with
                         | Some c => leftmost b c.2
                         | None => []
                         end)
              else None
          end
      end
  end.

(** The scan of [next] from frame [k] down, followed by the truncation of
    the stack and [first]. *)
Definition scan_first (b : Bucket) (fuel : nat) (stack : list elemRef) (k : nat)
  : outcome (option (list elemRef)) :=
  r ←← next_scan stack k ;;
  match r with
  | None => Done None
  | Some (i, s) => s' ←← first b fuel (take (S i) s) ;; Done (Some s')
  end.

(** [ordered t]: the keys of every node ascend strictly, and the separator
    of a child bounds its elements from below (but for the first child,
    whose separator may be stale) and from above by the next separator. *)
Inductive ordered : tree → Prop :=
| ord_leaf id es :
    keys_ascending (length es) (entry_keys es) → ordered (TLeaf id es)
| ord_branch id cs :
    keys_ascending (length cs) (branch_keys (child_view <$> cs)) →
    Forall (λ c, ordered c.2) cs →
    (∀ i c, cs !! i = Some c →
       ((0 < i)%nat → Forall (λ x, key_le c.1 (lpe_key x)) (entries c.2)) ∧
       (∀ c', cs !! S i = Some c' → Forall (λ x, key_lt (lpe_key x) c'.1) (entries c.2))) →
    ordered (TBranch id cs).

(** The elements with a key [≥ key]. *)
Definition from_key (key : list byte) (es : list leafPageElement) : list leafPageElement :=
  filter (λ x, key_le key (lpe_key x)) es.

(** What [First], [Next] and [Seek] are to return for an element: its key,
    and its value unless its flags mark a sub-bucket; (nil, nil) for none. *)
Definition returned (x : option leafPageElement) : option (list byte) * option (list byte) :=
  match x with
  | Some x =>
      (Some (lpe_key x),
       if decide (Z.land (lpe_flags x) bucketLeafFlag = 0) then Some (lpe_value x) else None)
  | None => (None, None)
  end.

(** [First()] followed by [n] calls of [Next()]: the cursor's stack and what
    the last call returned. *)
Fixpoint cursor_after (b : Bucket) (fuel : nat) (n : nat)
  : outcome (list elemRef * (option (list byte) * option (list byte))) :=
  match n with
  | O => First b fuel
  | S n' => r ←← cursor_after b fuel n' ;; Next b fuel r.1
  end.

(** No leaf of the tree is empty. *)
Inductive no_empty_leaf : tree → Prop :=
| nel_leaf id es : es ≠ [] → no_empty_leaf (TLeaf id es)
| nel_branch id cs : Forall (λ c, no_empty_leaf c.2) cs → no_empty_leaf (TBranch id cs).

(** The bucket the cursor works on: open, with the root of the tree. *)
Definition bucket_of (b : Bucket) (t : tree) : Prop :=
  b_open b = true ∧ b_root b = root_id t ∧ represents b t.

(** A branch over the leaf "a" and an empty leaf: what is left after the
    only key of the right leaf has been deleted in the transaction. *)
Definition bucket_trailing : Bucket :=
  {| b_open := true; b_root := 3;
     b_pageNode := λ id,
       if id =? 3 then
         (Some (branch_page 3 [{| bpe_key := [x61]; bpe_pgid := 4 |};
                               {| bpe_key := [x62]; bpe_pgid := 5 |}]), None)
       else if id =? 4 then (Some (leaf_page 4 [leaf_elem x61 x31]), None)
       else (None, Some {| n_isLeaf := true; n_inodes := [] |}) |}.
Definition tree_trailing : tree :=
  TBranch 3 [([x61], TLeaf 4 [leaf_elem x61 x31]); ([x62], TLeaf 5 [])].

(** A branch over the leaf "a", an empty leaf and the leaf "c". *)
Definition bucket_gap : Bucket :=
  {| b_open := true; b_root := 3;
     b_pageNode := λ id,
       if id =? 3 then
         (Some (branch_page 3 [{| bpe_key := [x61]; bpe_pgid := 4 |};
                               {| bpe_key := [x62]; bpe_pgid := 5 |};
                               {| bpe_key := [x63]; bpe_pgid := 6 |}]), None)
       else if id =? 4 then (Some (leaf_page 4 [leaf_elem x61 x31]), None)
       else if id =? 5 then (None, Some {| n_isLeaf := true; n_inodes := [] |})
       else (Some (leaf_page 6 [leaf_elem x63 x33]), None) |}.
Definition tree_gap : tree :=
  TBranch 3 [([x61], TLeaf 4 [leaf_elem x61 x31]); ([x62], TLeaf 5 []);
             ([x63], TLeaf 6 [leaf_elem x63 x33])].

(** [at_element b t n st]: the position of the cursor after [First] and
    [n] calls of [Next]: everything from element [n+1] on is to its right;
    it is on element [n] if there is one, and otherwise, in a tree without
    empty leaves, on the last element. *)
Definition at_element (b : Bucket) (t : tree) (n : nat) (st : list elemRef) : Prop :=
  cursor_in b t st ∧
  after t st = drop (S n) (entries t) ∧
  ((n < length (entries t))%nat → here t st = entries t !! n) ∧
  (no_empty_leaf t → (length (entries t) ≤ n)%nat → here t st = last (entries t)).

(** ** freelist.go: [size] *)

(** [unsafe.Offsetof(page.ptr)]: the header fields take 8 + 2 + 2 + 4 bytes. *)
Definition pageHeaderSize : Z := 16.

(** Go [int] arithmetic: 64-bit two's complement. *)
Definition wrap_int (z : Z) : Z := (z + 2 ^ 63) mod 2 ^ 64 - 2 ^ 63.

(** [size]: the size of the page after serialization;
    [unsafe.Sizeof(pgid(0))] is 8. *)
Definition size (f : freelist) : Z :=
  let n := Z.of_nat (count f) in
  let n := if 0xFFFF <=? n then wrap_int (n + 1) else n in
  wrap_int (pageHeaderSize + wrap_int (8 * n)).

(** ** cursor.go: [last], [Last] and [Prev] *)

(** [last] (named [c_last] here: [last] is the list function of the
    library): down to the rightmost leaf under the top of the stack, every
    new frame with [index = count() - 1]. *)
Fixpoint c_last (b : Bucket) (fuel : nat) (stack : list elemRef)
  : outcome (list elemRef) :=
  match fuel with
  | O => OutOfFuel
  | S fuel' =>
      ref ←← stack_top stack ;;
      leaf ←← elem_isLeaf ref ;;
      if leaf then Done stack
      else
        pgid ←← child_pgid ref ;;
        let '(p, n) := b_pageNode b pgid in
        let nextRef := {| e_page := p; e_node := n; e_index := 0 |} in
        count ←← elem_count nextRef ;;
        c_last b fuel' (stack ++ [with_index nextRef (count - 1)])
  end.

(** [Cursor.Last] *)
Definition Last (b : Bucket) (fuel : nat)
  : outcome (list elemRef * (option (list byte) * option (list byte))) :=
  _ ←← assert_open b ;;
  let '(p, n) := b_pageNode b (b_root b) in
  let ref := {| e_page := p; e_node := n; e_index := 0 |} in
  count ←← elem_count ref ;;
  stack ←← c_last b fuel [with_index ref (count - 1)] ;;
  r ←← keyValue stack ;;
  Done (stack, hide_bucket_value r).

(** The loop of [Prev]: [for i := len(c.stack)-1; i >= 0; i--], with [k]
    frames still to visit, so that the frame visited is [k-1]: its index is
    decremented when it is positive, and the frame is cut off the stack
    otherwise. *)
Fixpoint prev_scan (stack : list elemRef) (k : nat) : outcome (list elemRef) :=
  match k with
  | O => Done stack
  | S i =>
      match stack !! i with
      | None => Panicked
      | Some elem =>
          if 0 <? e_index elem
          then Done (<[i := with_index elem (e_index elem - 1)]> stack)
          else prev_scan (take i stack) i
      end
  end.

(** [Cursor.Prev] *)
Definition Prev (b : Bucket) (fuel : nat) (stack : list elemRef)
  : outcome (list elemRef * (option (list byte) * option (list byte))) :=
  _ ←← assert_open b ;;
  stack ←← prev_scan stack (length stack) ;;
  if (length stack =? 0)%nat then Done (stack, (None, None))
  else
    stack ←← c_last b fuel stack ;;
    r ←← keyValue stack ;;
    Done (stack, hide_bucket_value r).

(** *** Sequences of cursor moves *)

Inductive move : Type :=
| MFirst
| MLast
| MNext
| MPrev
| MSeek (key : list byte).

(** One move of the cursor whose stack is [stack]: the stack afterwards and
    the key and value returned. *)
Definition cursor_move (b : Bucket) (fuel : nat) (m : move) (stack : list elemRef)
  : outcome (list elemRef * (option (list byte) * option (list byte))) :=
  match m with
  | MFirst => First b fuel
  | MLast => Last b fuel
  | MNext => Next b fuel stack
  | MPrev => Prev b fuel stack
  | MSeek key => Seek b fuel key
  end.

Fixpoint cursor_moves (b : Bucket) (fuel : nat) (ms : list move)
    (sr : list elemRef * (option (list byte) * option (list byte)))
  : outcome (list elemRef * (option (list byte) * option (list byte))) :=
  match ms with
  | [] => Done sr
  | m :: ms' => r ←← cursor_move b fuel m sr.1 ;; cursor_moves b fuel ms' r
  end.

(** The moves [ms] made one after the other with a cursor whose stack is
    empty at first: the stack after the last move and what it returned. *)
Definition cursor_run (b : Bucket) (fuel : nat) (ms : list move)
  : outcome (list elemRef * (option (list byte) * option (list byte))) :=
  cursor_moves b fuel ms ([], (None, None)).

(** *** The position of a cursor, seen from the left *)

(** The elements to the left of the cursor. *)
Fixpoint before (t : tree) (stack : list elemRef) : list leafPageElement :=
  match stack with
  | [] => []
  | e :: rest =>
      match t with
      | TLeaf _ es => take (Z.to_nat (e_index e)) es
      | TBranch _ cs =>
          children_entries (take (Z.to_nat (e_index e)) cs) ++
          match cs !! Z.to_nat (e_index e) with
          | Some c => before c.2 rest
          | None => []
          end
      end
  end.

(** The path to the last slot of the rightmost leaf. *)
Fixpoint rightmost (b : Bucket) (t : tree) : list elemRef :=
  frame b (root_id t) (node_count t - 1) ::
  match t with
  | TLeaf _ _ => []
  | TBranch _ cs =>
      (fix go (cs : list (list byte * tree)) : list elemRef :=
         match cs with
         | [] => []
         | c :: cs' =>
             match cs' with
             | [] => rightmost b c.2
             | _ :: _ => go cs'
             end
         end) cs
  end.

(** The elements of the rightmost leaf. *)
Fixpoint rightmost_leaf (t : tree) : list leafPageElement :=
  match t with
  | TLeaf _ es => es
  | TBranch _ cs =>
      (fix go (cs : list (list byte * tree)) : list leafPageElement :=
         match cs with
         | [] => []
         | c :: cs' =>
             match cs' with
             | [] => rightmost_leaf c.2
             | _ :: _ => go cs'
             end
         end) cs
  end.

(** The loop of [Prev] followed by [last] on a cursor: the deepest frame
    that can move one to the left does, and the path goes down to the
    rightmost leaf below it; [None] when no frame can. *)
Fixpoint back (b : Bucket) (t : tree) (stack : list elemRef) : option (list elemRef) :=
  match stack with
  | [] => None
  | e :: rest =>
      match t with
      | TLeaf _ es =>
          if 0 <? e_index e then Some [with_index e (e_index e - 1)] else None
      | TBranch _ cs =>
          match match cs !! Z.to_nat (e_index e) with
                | Some c => back b c.2 rest
                | None => None
                end with
          | Some rest' => Some (e :: rest')
          | None =>
              if 0 <? e_index e
              then Some (with_index e (e_index e - 1) ::
                         match cs !! Z.to_nat (e_index e - 1) with
                         | Some c => rightmost b c.2
                         | None => []
                         end)
              else None
          end
      end
  end.

(** The loop of [Prev] from frame [k] down, followed by [last] unless the
    stack has become empty. *)
Definition scan_last (b : Bucket) (fuel : nat) (stack : list elemRef) (k : nat)
  : outcome (list elemRef) :=
  s ←← prev_scan stack k ;;
  if (length s =? 0)%nat then Done s else c_last b fuel s.

(** [on_element b t n st]: the cursor is on the [n]-th element of the tree,
    with the elements before it to its left and those after it to its
    right. *)
Definition on_element (b : Bucket) (t : tree) (n : nat) (st : list elemRef) : Prop :=
  cursor_in b t st ∧
  (n < length (entries t))%nat ∧
  here t st = entries t !! n ∧
  before t st = take n (entries t) ∧
  after t st = drop (S n) (entries t).

(** ** page.go: [typ] *)

From Stdlib Require Strings.String.
Import Stdlib.Strings.String.StringSyntax.
Delimit Scope string_scope with string.

(** One hexadecimal digit, lower case. *)
Definition hex_digit (d : Z) : String.string :=
  (if d =? 0 then "0" else if d =? 1 then "1" else if d =? 2 then "2"
   else if d =? 3 then "3" else if d =? 4 then "4" else if d =? 5 then "5"
   else if d =? 6 then "6" else if d =? 7 then "7" else if d =? 8 then "8"
   else if d =? 9 then "9" else if d =? 10 then "a" else if d =? 11 then "b"
   else if d =? 12 then "c" else if d =? 13 then "d" else if d =? 14 then "e"
   else "f")%string.

(** [fmt.Sprintf("%02x", x)] for a [uint16]: the hexadecimal digits of [x],
    at least two of them. *)
Definition hex02 (x : Z) : String.string :=
  let d3 := hex_digit (x / 4096 mod 16) in
  let d2 := hex_digit (x / 256 mod 16) in
  let d1 := hex_digit (x / 16 mod 16) in
  let d0 := hex_digit (x mod 16) in
  if 4096 <=? x then String.append d3 (String.append d2 (String.append d1 d0))
  else if 256 <=? x then String.append d2 (String.append d1 d0)
  else String.append d1 d0.

(** [typ]: a human readable page type string used for debugging. *)
Definition typ (p : page) : String.string :=
  (if negb (Z.land (p_flags p) branchPageFlag =? 0) then "branch"
   else if negb (Z.land (p_flags p) leafPageFlag =? 0) then "leaf"
   else if negb (Z.land (p_flags p) metaPageFlag =? 0) then "meta"
   else if negb (Z.land (p_flags p) freelistPageFlag =? 0) then "freelist"
   else String.append "unknown<" (String.append (hex02 (p_flags p)) ">"))%string.

(** * Properties *)

(** ** [sort.Search] *)

Section search.
Variable f : nat → bool.

Lemma div2_between (i j : nat) :
    (i < j)%nat → (i ≤ Nat.div2 (i + j) < j)%nat.
  Proof.
    intros Hij. pose proof (Nat.div2_odd (i + j)) as H.
    destruct (Nat.odd (i + j)); simpl in H; lia.
  Qed.

  (** What the binary search guarantees for an arbitrary predicate. *)
Lemma search_loop_bounds (fuel i j : nat) :
    (i ≤ j)%nat → (j - i ≤ fuel)%nat →
    let r := search_loop fuel f i j in
    (i ≤ r ≤ j)%nat ∧
    (r = i ∨ f (pred r) = false) ∧
    (r = j ∨ f r = true).
  Proof.
    revert i j. induction fuel as [|fuel IH]; intros i j Hij Hfuel; simpl.
    - assert (i = j) by lia. subst. auto.
    - destruct (Nat.ltb_spec i j) as [Hlt|Hge].
      + pose proof (div2_between i j Hlt) as Hh.
        destruct (f (Nat.div2 (i + j))) eqn:Hf; simpl.
        * destruct (IH i (Nat.div2 (i + j))) as (Hr & Hlo & Hhi); [lia..|].
          split; [lia|]. split; [exact Hlo|].
          destruct Hhi as [->| ->]; auto.
        * destruct (IH (S (Nat.div2 (i + j))) j) as (Hr & Hlo & Hhi); [lia..|].
          split; [lia|]. split; [|exact Hhi].
          destruct Hlo as [->| ->]; auto.
      + assert (i = j) by lia. subst. auto.
  Qed.

Lemma sort_Search_bounds (n : nat) :
    let r := sort_Search n f in
    (r ≤ n)%nat ∧ (r = 0%nat ∨ f (pred r) = false) ∧ (r = n ∨ f r = true).
  Proof.
    unfold sort_Search.
    destruct (search_loop_bounds n 0 n) as (Hr & Hlo & Hhi); [lia..|].
    split; [lia|]. auto.
  Qed.

  (** On a predicate that is monotone below [n], [sort.Search] returns the
      least index at which it holds. *)
Lemma sort_Search_least (n : nat) :
    (∀ x y, (x ≤ y < n)%nat → f x = true → f y = true) →
    let r := sort_Search n f in
    (r ≤ n)%nat ∧
    (∀ x, (x < r)%nat → f x = false) ∧
    (∀ x, (r ≤ x < n)%nat → f x = true).
  Proof.
    intros Hmono r. destruct (sort_Search_bounds n) as (Hr & Hlo & Hhi).
    fold r in Hr, Hlo, Hhi. split; [exact Hr|]. split.
    - intros x Hx. destruct Hlo as [->|Hlo]; [lia|].
      destruct (f x) eqn:Hfx; [|done].
      rewrite (Hmono x (pred r)) in Hlo; [done|lia|done].
    - intros x Hx. destruct Hhi as [->|Hhi]; [lia|].
      apply (Hmono r x); [lia|done].
  Qed.
End search.

(** ** [mergepgids] *)

Lemma ascending_lookup_le (l : list Z) (i j : nat) (x y : Z) :
  ascending l → l !! i = Some x → l !! j = Some y → (i ≤ j)%nat → x ≤ y.
Proof.
  intros Hs. revert i j. induction Hs as [|a l Hs IH Hall]; intros i j Hi Hj Hij.
  - by rewrite lookup_nil in Hi.
  - destruct i as [|i], j as [|j]; simpl in *; simplify_eq; try lia.
    + rewrite Forall_forall in Hall. apply Hall. eapply list_elem_of_lookup_2, Hj.
    + eapply IH; eauto. lia.
Qed.

Lemma ascending_total_lookup_le (l : list Z) (i j : nat) :
  ascending l → (i ≤ j < length l)%nat → l !!! i ≤ l !!! j.
Proof.
  intros Hs Hij.
  destruct (lookup_lt_is_Some_2 l i) as [x Hx]; [lia|].
  destruct (lookup_lt_is_Some_2 l j) as [y Hy]; [lia|].
  rewrite (list_lookup_total_correct _ _ _ Hx), (list_lookup_total_correct _ _ _ Hy).
  eapply ascending_lookup_le; eauto. lia.
Qed.

(** The prefix of [lead] that [mergepgids] moves in one round: everything
    up to the first element greater than [f0]. *)
Lemma merge_prefix (lead : list Z) (f0 : Z) :
  ascending lead →
  let n := sort_Search (length lead) (λ i, f0 <? lead !!! i) in
  (n ≤ length lead)%nat ∧
  Forall (λ x, x ≤ f0) (take n lead) ∧
  Forall (λ x, f0 < x) (drop n lead).
Proof.
  intros Hs n.
  destruct (sort_Search_least (λ i, f0 <? lead !!! i) (length lead)) as (Hn & Hlo & Hhi).
  { intros x y Hxy Hx. apply Z.ltb_lt in Hx. apply Z.ltb_lt.
    pose proof (ascending_total_lookup_le lead x y Hs). lia. }
  fold n in Hn, Hlo, Hhi. split; [exact Hn|]. split.
  - apply Forall_lookup. intros i x Hi.
    apply lookup_take_Some in Hi as [Hi Hlt].
    specialize (Hlo i Hlt). apply Z.ltb_ge in Hlo.
    by rewrite (list_lookup_total_correct _ _ _ Hi) in Hlo.
  - apply Forall_lookup. intros i x Hi. rewrite lookup_drop in Hi.
    pose proof (lookup_lt_Some _ _ _ Hi) as Hlt.
    specialize (Hhi (n + i)%nat). rewrite (list_lookup_total_correct _ _ _ Hi) in Hhi.
    apply Z.ltb_lt, Hhi. lia.
Qed.

Lemma merge_loop_ascending (fuel : nat) (merged lead follow : list Z) :
  ascending merged → ascending lead → ascending follow →
  Forall (λ x, Forall (Z.le x) (lead ++ follow)) merged →
  match lead, follow with
  | [], _ => True
  | _ :: _, [] => False
  | l0 :: _, f0 :: _ => l0 ≤ f0
  end →
  (length lead + length follow < fuel)%nat →
  ∃ r, merge_loop fuel merged lead follow = Done r ∧
       ascending r ∧ r ≡ₚ merged ++ lead ++ follow.
Proof.
  revert merged lead follow.
  induction fuel as [|fuel IH]; intros merged lead follow Hm Hl Hf Hml Hhd Hfuel; [lia|].
  simpl. destruct lead as [|l0 lt].
  { exists (merged ++ follow). split; [done|]. split; [|done].
    apply StronglySorted_app. split_and!; [|done..].
    intros x y Hx Hy. rewrite Forall_forall in Hml.
    specialize (Hml x Hx). rewrite Forall_forall in Hml. by apply Hml. }
  destruct follow as [|f0 ft]; [done|].
  set (lead := l0 :: lt) in *. set (follow := f0 :: ft) in *.
  destruct (merge_prefix lead f0 Hl) as (Hn & Htake & Hdrop).
  set (n := sort_Search (length lead) (λ i, f0 <? lead !!! i)) in *.
  assert (Hn1 : (1 ≤ n)%nat).
  { destruct n as [|n]; [|lia]. simpl in Hdrop.
    apply Forall_cons in Hdrop as [Hlt _]. lia. }
  assert (Hsplit : lead = take n lead ++ drop n lead) by (by rewrite take_drop).
  assert (Hfall : Forall (Z.le f0) follow).
  { apply StronglySorted_cons in Hf as [Hf _]. apply Forall_cons. split; [lia|done]. }
  assert (Hm' : ascending (merged ++ take n lead)).
  { apply StronglySorted_app. split_and!; [|done|].
    - intros x y Hx Hy. rewrite Forall_forall in Hml.
      specialize (Hml x Hx). rewrite Forall_forall in Hml. apply Hml.
      apply elem_of_app. left. rewrite Hsplit. apply elem_of_app. by left.
    - rewrite Hsplit in Hl. by apply StronglySorted_app_1_l in Hl. }
  assert (Hml' : Forall (λ x, Forall (Z.le x) (follow ++ drop n lead)) (merged ++ take n lead)).
  { apply Forall_app. split.
    - eapply Forall_impl; [exact Hml|]. intros x Hx. cbv beta in Hx.
      rewrite Hsplit in Hx. rewrite !Forall_app in Hx. rewrite Forall_app. tauto.
    - apply Forall_forall. intros x Hx. apply Forall_app. split.
      + rewrite Forall_forall in Htake. specialize (Htake x Hx). simpl in Htake.
        eapply Forall_impl; [exact Hfall|]. intros; simpl in *; lia.
      + apply Forall_forall. intros y Hy.
        rewrite Hsplit in Hl.
        exact (StronglySorted_app_1_elem_of _ _ _ _ _ Hl Hx Hy). }
  destruct (Nat.leb_spec (length lead) n) as [Hge|Hlt].
  - exists ((merged ++ take n lead) ++ follow). split; [done|]. split.
    + apply StronglySorted_app. split_and!; [|done..].
      intros x y Hx Hy. rewrite Forall_forall in Hml'.
      specialize (Hml' x Hx). rewrite Forall_forall in Hml'. apply Hml'.
      apply elem_of_app. by left.
    + rewrite take_ge by lia. by rewrite <- app_assoc.
  - destruct (IH (merged ++ take n lead) follow (drop n lead)) as (r & Hr & Hsr & Hpr);
      [done|done| |done| | |].
    + rewrite Hsplit in Hl. by apply StronglySorted_app_1_r in Hl.
    + subst follow. destruct (drop n lead) as [|d0 dt] eqn:Hd.
      * apply (f_equal length) in Hd. rewrite length_drop in Hd.
        change (length (@nil Z)) with 0%nat in Hd. lia.
      * apply Forall_cons in Hdrop as [Hlt' _]. lia.
    + rewrite length_drop. lia.
    + exists r. split; [done|]. split; [done|].
      rewrite Hpr. rewrite <- app_assoc. apply Permutation_app_head.
      rewrite (Permutation_app_comm follow). rewrite app_assoc.
      by rewrite <- Hsplit.
Qed.

(** Without any order on the inputs the loop still ends, with a
    rearrangement of what it was given: the search never returns 0 when
    [lead[0] ≤ follow[0]], and it stops at an element above [follow[0]]. *)
Lemma merge_loop_perm (fuel : nat) (merged lead follow : list Z) :
  match lead, follow with
  | [], _ => True
  | _ :: _, [] => False
  | l0 :: _, f0 :: _ => l0 ≤ f0
  end →
  (length lead + length follow < fuel)%nat →
  ∃ r, merge_loop fuel merged lead follow = Done r ∧ r ≡ₚ merged ++ lead ++ follow.
Proof.
  revert merged lead follow.
  induction fuel as [|fuel IH]; intros merged lead follow Hhd Hfuel; [lia|].
  simpl. destruct lead as [|l0 lt]; [by exists (merged ++ follow)|].
  destruct follow as [|f0 ft]; [done|].
  set (lead := l0 :: lt) in *. set (follow := f0 :: ft) in *.
  destruct (sort_Search_bounds (λ i, f0 <? lead !!! i) (length lead)) as (Hn & Hlo & Hhi).
  set (n := sort_Search (length lead) (λ i, f0 <? lead !!! i)) in *.
  assert (Hn1 : (1 ≤ n)%nat).
  { destruct n as [|n]; [|lia]. destruct Hhi as [Hhi|Hhi]; [done|].
    apply Z.ltb_lt in Hhi. change (lead !!! 0%nat) with l0 in Hhi. lia. }
  assert (Hsplit : lead = take n lead ++ drop n lead) by (by rewrite take_drop).
  destruct (Nat.leb_spec (length lead) n) as [Hge|Hlt].
  - exists ((merged ++ take n lead) ++ follow). split; [done|].
    rewrite take_ge by lia. by rewrite <- app_assoc.
  - destruct Hhi as [Hhi|Hhi]; [lia|]. apply Z.ltb_lt in Hhi.
    destruct (IH (merged ++ take n lead) follow (drop n lead)) as (r & Hr & Hpr).
    + subst follow. destruct (drop n lead) as [|d0 dt] eqn:Hd.
      * apply (f_equal length) in Hd. rewrite length_drop in Hd.
        change (length (@nil Z)) with 0%nat in Hd. lia.
      * assert (lead !!! n = d0); [|lia].
        apply list_lookup_total_correct.
        rewrite <- (Nat.add_0_r n), <- lookup_drop, Hd. done.
    + rewrite length_drop. lia.
    + exists r. split; [done|].
      rewrite Hpr. rewrite <- app_assoc. apply Permutation_app_head.
      rewrite (Permutation_app_comm follow). rewrite app_assoc.
      by rewrite <- Hsplit.
Qed.

Lemma go_copy_prefix {A} (dst src : list A) :
  (length src ≤ length dst)%nat → go_copy dst src = src ++ drop (length src) dst.
Proof. intros H. unfold go_copy. by rewrite take_ge. Qed.

(** [mergepgids] on ascending inputs that fit. *)
Lemma mergepgids_fits (dst a b : list Z) :
  ascending a → ascending b → (length a + length b ≤ length dst)%nat →
  ∃ m, mergepgids dst a b = Done (m ++ drop (length a + length b) dst) ∧
       length m = (length a + length b)%nat ∧
       ascending m ∧ m ≡ₚ a ++ b ∧
       (a = [] → m = b) ∧ (b = [] → m = a).
Proof.
  intros Ha Hb Hlen. unfold mergepgids.
  destruct (Nat.ltb_spec (length dst) (length a + length b)) as [?|_]; [lia|].
  destruct a as [|a0 a'].
  { exists b. rewrite go_copy_prefix by (simpl in Hlen; lia). by split_and!. }
  destruct b as [|b0 b'].
  { exists (a0 :: a'). rewrite go_copy_prefix by lia.
    rewrite Nat.add_0_r, app_nil_r. by split_and!. }
  set (a := a0 :: a') in *. set (b := b0 :: b') in *.
  assert (Hloop : ∃ r, (let '(lead, follow) := if b0 <? a0 then (b, a) else (a, b) in
                        merge_loop (S (length a + length b)) [] lead follow) = Done r ∧
                       ascending r ∧ r ≡ₚ a ++ b).
  { destruct (Z.ltb_spec b0 a0) as [Hlt|Hge].
    - destruct (merge_loop_ascending (S (length a + length b)) [] b a)
        as (r & Hr & Hsr & Hpr); [constructor|done|done|constructor|simpl; lia|lia|].
      exists r. split_and!; [done..|]. rewrite Hpr. apply (Permutation_app_comm b a).
    - destruct (merge_loop_ascending (S (length a + length b)) [] a b)
        as (r & Hr & Hsr & Hpr); [constructor|done|done|constructor|simpl; lia|lia|].
      exists r. by split_and!. }
  destruct Hloop as (r & Hr & Hsr & Hpr).
  assert (Hlr : length r = (length a + length b)%nat).
  { by rewrite Hpr, length_app. }
  exists r. split_and!; [|done..].
  destruct (b0 <? a0); rewrite Hr; simpl; rewrite go_copy_prefix by lia;
    by rewrite Hlr.
Qed.

Lemma mergepgids_short (dst a b : list Z) :
  (length dst < length a + length b)%nat → mergepgids dst a b = Panicked.
Proof.
  intros Hlen. unfold mergepgids.
  by destruct (Nat.ltb_spec (length dst) (length a + length b)) as [_|?]; [|lia].
Qed.

(** C6. For ascending [a] and [b] and a [dst] of at least [len a + len b]
    slots, [mergepgids dst a b] overwrites the first [len a + len b] slots of
    [dst] with an ascending sequence that is the multiset union of [a] and
    [b] (the other input when one of them is empty) and leaves the rest of
    [dst] alone; on any shorter [dst] it panics. *)
Theorem mergepgids_sorted_union (dst a b : list Z) :
  (ascending a → ascending b → (length a + length b ≤ length dst)%nat →
   ∃ m, mergepgids dst a b = Done (m ++ drop (length a + length b) dst) ∧
        length m = (length a + length b)%nat ∧
        ascending m ∧ m ≡ₚ a ++ b ∧
        (a = [] → m = b) ∧ (b = [] → m = a)) ∧
  ((length dst < length a + length b)%nat → mergepgids dst a b = Panicked).
Proof.
  split; [apply mergepgids_fits|apply mergepgids_short].
Qed.

Lemma mergepgids_sorted_union_witness :
  ∃ m, mergepgids [0; 0; 0; 0; 0; 9] [3; 5] [4; 6; 7] = Done (m ++ [9]) ∧
       length m = 5%nat ∧ ascending m ∧ m ≡ₚ [3; 5] ++ [4; 6; 7].
Proof.
  destruct (proj1 (mergepgids_sorted_union [0; 0; 0; 0; 0; 9] [3; 5] [4; 6; 7]))
    as (m & H1 & H2 & H3 & H4 & _).
  - repeat constructor; lia.
  - repeat constructor; lia.
  - simpl. lia.
  - exists m. split_and!; assumption.
Defined.

Example mergepgids_interleaved :
  mergepgids [0; 0; 0; 0; 0; 9] [3; 5] [4; 6; 7] = Done [3; 4; 5; 6; 7; 9].
Proof. reflexivity. Qed.

(** [pgids.merge]: the sorted union as a fresh slice. *)
Lemma merge_ascending (a b : list Z) :
  ascending a → ascending b →
  ∃ m, merge a b = Done m ∧ ascending m ∧ m ≡ₚ a ++ b.
Proof.
  intros Ha Hb. unfold merge.
  destruct a as [|a0 a']; [by exists b|].
  destruct b as [|b0 b']; [exists (a0 :: a'); by rewrite app_nil_r|].
  destruct (mergepgids_fits
              (replicate (length (a0 :: a') + length (b0 :: b')) 0)
              (a0 :: a') (b0 :: b'))
    as (m & Hm & Hlm & Hsm & Hpm & _); [done|done|by rewrite length_replicate|].
  exists m. rewrite Hm. rewrite drop_ge by (by rewrite length_replicate).
  rewrite app_nil_r. by split_and!.
Qed.

(** [mergepgids] on arbitrary inputs that fit: a rearrangement of [a ++ b]
    in the first [len a + len b] slots. *)
Lemma mergepgids_perm (dst a b : list Z) :
  (length a + length b ≤ length dst)%nat →
  ∃ m, mergepgids dst a b = Done (m ++ drop (length a + length b) dst) ∧ m ≡ₚ a ++ b.
Proof.
  intros Hlen. unfold mergepgids.
  destruct (Nat.ltb_spec (length dst) (length a + length b)) as [?|_]; [lia|].
  destruct a as [|a0 a'].
  { exists b. by rewrite go_copy_prefix by (simpl in Hlen; lia). }
  destruct b as [|b0 b'].
  { exists (a0 :: a'). rewrite go_copy_prefix by lia.
    by rewrite Nat.add_0_r, app_nil_r. }
  set (a := a0 :: a') in *. set (b := b0 :: b') in *.
  assert (Hloop : ∃ r, (let '(lead, follow) := if b0 <? a0 then (b, a) else (a, b) in
                        merge_loop (S (length a + length b)) [] lead follow) = Done r ∧
                       r ≡ₚ a ++ b).
  { destruct (Z.ltb_spec b0 a0) as [Hlt|Hge].
    - destruct (merge_loop_perm (S (length a + length b)) [] b a)
        as (r & Hr & Hpr); [simpl; lia|lia|].
      exists r. split; [done|]. rewrite Hpr. apply (Permutation_app_comm b a).
    - destruct (merge_loop_perm (S (length a + length b)) [] a b)
        as (r & Hr & Hpr); [simpl; lia|lia|].
      by exists r. }
  destruct Hloop as (r & Hr & Hpr).
  assert (Hlr : length r = (length a + length b)%nat) by (by rewrite Hpr, length_app).
  exists r. split; [|done].
  destruct (b0 <? a0); rewrite Hr; simpl; rewrite go_copy_prefix by lia; by rewrite Hlr.
Qed.


(** ** [free] and [rollback] *)

Lemma wrap64_small (z : Z) : is_uint64 z → wrap64 z = z.
Proof. unfold is_uint64, max_uint64, wrap64. intros H. apply Z.mod_small. lia. Qed.

Lemma wrap64_range (z : Z) : is_uint64 (wrap64 z).
Proof.
  unfold is_uint64, max_uint64, wrap64.
  pose proof (Z.mod_pos_bound z (2 ^ 64)). lia.
Qed.

Lemma uint64_card_eq : Z.of_nat uint64_card = 2 ^ 64.
Proof. unfold uint64_card. rewrite Z2Nat.id; lia. Qed.

Global Opaque uint64_card.

(** The loop below the top of the [uint64] range: it visits
    [id, id+1, ..., hi] and stops. *)
Lemma free_loop_fresh (fuel : nat) (id hi : Z) (l : list Z) (c : gset Z) :
  0 ≤ id → hi < max_uint64 → (Z.to_nat (hi + 1 - id) < fuel)%nat →
  Forall (λ x, x ∉ c) (seqZ id (hi + 1 - id)) →
  free_loop fuel id hi l c =
    Done (l ++ seqZ id (hi + 1 - id), list_to_set (seqZ id (hi + 1 - id)) ∪ c).
Proof.
  revert id l c. induction fuel as [|fuel IH]; intros id l c Hid Hhi Hfuel Hfresh; [lia|].
  simpl. destruct (Z.leb_spec id hi) as [Hle|Hgt].
  - rewrite seqZ_cons in Hfresh |- * by lia.
    apply Forall_cons in Hfresh as [Hid' Hfresh].
    rewrite decide_False by done.
    rewrite wrap64_small by (unfold is_uint64; lia).
    replace (Z.pred (hi + 1 - id)) with (hi + 1 - (id + 1)) in * by lia.
    change (Z.succ id) with (id + 1) in *.
    rewrite IH; [|lia|done|lia|].
    + rewrite <- app_assoc. simpl. f_equal. f_equal. set_solver.
    + rewrite Forall_forall in Hfresh |- *. intros x Hx.
      intros [Hx'|Hx']%elem_of_union; [|by apply (Hfresh x)].
      apply elem_of_singleton in Hx'. apply elem_of_seqZ in Hx. lia.
  - rewrite seqZ_nil by lia. rewrite app_nil_r. simpl. f_equal. f_equal. set_solver.
Qed.

Lemma free_loop_taken (fuel : nat) (id hi : Z) (l : list Z) (c : gset Z) :
  0 ≤ id → hi < max_uint64 → (Z.to_nat (hi + 1 - id) < fuel)%nat →
  (∃ x, id ≤ x ≤ hi ∧ x ∈ c) →
  free_loop fuel id hi l c = Panicked.
Proof.
  revert id l c. induction fuel as [|fuel IH]; intros id l c Hid Hhi Hfuel (x & Hx & Hc); [lia|].
  simpl. destruct (Z.leb_spec id hi) as [Hle|Hgt]; [|lia].
  destruct (decide (id ∈ c)) as [|Hn]; [done|].
  rewrite wrap64_small by (unfold is_uint64; lia).
  apply IH; [lia|done|lia|].
  exists x. split; [|set_solver].
  assert (x ≠ id) by (intros ->; done). lia.
Qed.

(** At the top of the range the condition [id <= hi] always holds: the loop
    can only be left by the panic. *)
Lemma free_loop_top_not_done (fuel : nat) (id : Z) (l : list Z) (c : gset Z) r :
  is_uint64 id → free_loop fuel id max_uint64 l c ≠ Done r.
Proof.
  revert id l c. induction fuel as [|fuel IH]; intros id l c Hid; [done|].
  simpl. destruct (Z.leb_spec id max_uint64) as [Hle|Hgt]; [|unfold is_uint64 in Hid; lia].
  destruct (decide (id ∈ c)); [done|]. apply IH, wrap64_range.
Qed.

Lemma free_loop_top_out_of_fuel (fuel : nat) (id : Z) (l : list Z) (c : gset Z) :
  is_uint64 id → free_loop fuel id max_uint64 l c = OutOfFuel →
  ∀ j, 0 ≤ j < Z.of_nat fuel → wrap64 (id + j) ∉ c.
Proof.
  revert id l c. induction fuel as [|fuel IH]; intros id l c Hid Hout j Hj; [lia|].
  simpl in Hout.
  destruct (Z.leb_spec id max_uint64) as [Hle|Hgt]; [|done].
  destruct (decide (id ∈ c)) as [|Hn]; [done|].
  destruct (decide (j = 0)) as [->|Hj0].
  - by rewrite Z.add_0_r, wrap64_small.
  - specialize (IH _ _ _ (wrap64_range (id + 1)) Hout (j - 1) ltac:(lia)).
    intros Hin. apply IH. apply elem_of_union. right.
    replace (wrap64 (wrap64 (id + 1) + (j - 1))) with (wrap64 (id + j)); [done|].
    unfold wrap64. rewrite Zplus_mod_idemp_l. f_equal. lia.
Qed.

Lemma free_loop_top_panics (id : Z) (l : list Z) (c : gset Z) :
  is_uint64 id → free_loop (S (S uint64_card)) id max_uint64 l c = Panicked.
Proof.
  intros Hid.
  destruct (free_loop (S (S uint64_card)) id max_uint64 l c) as [r| |] eqn:E; [|done|].
  - by apply free_loop_top_not_done in E.
  - exfalso. change (free_loop (S (S uint64_card)) id max_uint64 l c)
      with (if id <=? max_uint64 then
              if decide (id ∈ c) then Panicked
              else free_loop (S uint64_card) (wrap64 (id + 1)) max_uint64 (l ++ [id]) ({[id]} ∪ c)
            else Done (l, c)) in E.
    destruct (Z.leb_spec id max_uint64) as [Hle|Hgt]; [|done].
    destruct (decide (id ∈ c)) as [|Hn]; [done|].
    apply (free_loop_top_out_of_fuel _ _ _ _ (wrap64_range (id + 1)) E (2 ^ 64 - 1)).
    + rewrite Nat2Z.inj_succ, uint64_card_eq. lia.
    + replace (wrap64 (wrap64 (id + 1) + (2 ^ 64 - 1))) with id; [set_solver|].
      unfold wrap64. rewrite Zplus_mod_idemp_l.
      replace (id + 1 + (2 ^ 64 - 1)) with (id + 1 * 2 ^ 64) by lia.
      rewrite Z_mod_plus_full. symmetry. apply Z.mod_small.
      unfold is_uint64, max_uint64 in Hid. lia.
Qed.

Lemma free_unfold (t : Z) (p : page) (f : freelist) :
  free t p f =
    if p_id p <=? 1 then Panicked
    else
      r ←← free_loop (S (S uint64_card)) (p_id p) (wrap64 (p_id p + p_overflow p))
             (default [] (pending f !! t)) (cache f) ;;
      Done {| ids := ids f; pending := <[t := r.1]> (pending f); cache := r.2 |}.
Proof. reflexivity. Qed.

(** Generic folds over id lists, as membership facts. *)
Lemma foldl_uncache (c : gset Z) (l : list Z) :
  foldl (λ c id, c ∖ {[id]}) c l = c ∖ list_to_set l.
Proof.
  revert c. induction l as [|x l IH]; intros c; simpl; [set_solver|].
  rewrite IH. set_solver.
Qed.

Lemma foldl_cache (c : gset Z) (l : list Z) :
  foldl (λ c id, {[id]} ∪ c) c l = list_to_set l ∪ c.
Proof.
  revert c. induction l as [|x l IH]; intros c; simpl; [set_solver|].
  rewrite IH. set_solver.
Qed.

(** Whenever the loop of [free] ends normally it has appended ids that
    were not cached and has cached them. *)
Lemma free_loop_done (fuel : nat) (id hi : Z) (l : list Z) (c : gset Z) l' c' :
  free_loop fuel id hi l c = Done (l', c') →
  ∃ run, l' = l ++ run ∧ c' = list_to_set run ∪ c ∧ Forall (λ x, x ∉ c) run.
Proof.
  revert id l c. induction fuel as [|fuel IH]; intros id l c H; [done|].
  simpl in H. destruct (id <=? hi).
  - destruct (decide (id ∈ c)) as [|Hn]; [done|].
    apply IH in H as (run & -> & -> & Hrun).
    exists (id :: run). split; [by rewrite <- app_assoc|]. split; [set_solver|].
    constructor; [done|]. eapply Forall_impl; [exact Hrun|]. set_solver.
  - injection H as <- <-. exists []. split; [by rewrite app_nil_r|]. split; [set_solver|done].
Qed.

(** [free] on a page above the meta pages, with a run below the top of the
    range and not cached yet. *)
Lemma free_appends (t : Z) (p : page) (f : freelist) :
  page_header_ok p → p_id p + p_overflow p < max_uint64 → 1 < p_id p →
  Forall (λ x, x ∉ cache f) (page_run p) →
  free t p f =
    Done {| ids := ids f;
            pending := <[t := default [] (pending f !! t) ++ page_run p]> (pending f);
            cache := list_to_set (page_run p) ∪ cache f |}.
Proof.
  intros [[Hid0 Hid1] [Hov0 Hov1]] Hhi Hgt Hfresh. rewrite free_unfold.
  destruct (Z.leb_spec (p_id p) 1) as [Hle|_]; [lia|].
  rewrite wrap64_small by (unfold is_uint64; lia).
  pose proof uint64_card_eq as Hcard. unfold max_uint64 in *.
  unfold page_run in *.
  replace (p_overflow p + 1) with (p_id p + p_overflow p + 1 - p_id p) in * by lia.
  rewrite free_loop_fresh; [done|lia|unfold max_uint64; lia|lia|done].
Qed.

Lemma free_taken (t : Z) (p : page) (f : freelist) :
  page_header_ok p → p_id p + p_overflow p < max_uint64 →
  (∃ x, p_id p ≤ x ≤ p_id p + p_overflow p ∧ x ∈ cache f) →
  free t p f = Panicked.
Proof.
  intros [[Hid0 Hid1] [Hov0 Hov1]] Hhi Htaken. rewrite free_unfold.
  destruct (Z.leb_spec (p_id p) 1) as [Hle|_]; [done|].
  rewrite wrap64_small by (unfold is_uint64; lia).
  pose proof uint64_card_eq as Hcard. unfold max_uint64 in *.
  rewrite free_loop_taken; [done|lia|unfold max_uint64; lia|lia|done].
Qed.

(** C9 (as amended). For a page whose run [p.id .. p.id+p.overflow] ends
    below the largest [uint64], [free t p] panics exactly when [p.id ≤ 1] or
    an id of the run is already in [cache]; otherwise it appends the run, in
    ascending order, to [pending[t]], adds it to [cache] and leaves [ids]
    alone. *)
Theorem free_panics_iff_or_appends (t : Z) (p : page) (f : freelist) :
  page_header_ok p → p_id p + p_overflow p < max_uint64 →
  (free t p f = Panicked ↔
     p_id p ≤ 1 ∨ ∃ x, p_id p ≤ x ≤ p_id p + p_overflow p ∧ x ∈ cache f) ∧
  (free t p f ≠ Panicked →
     free t p f =
       Done {| ids := ids f;
               pending := <[t := default [] (pending f !! t) ++ page_run p]> (pending f);
               cache := list_to_set (page_run p) ∪ cache f |}).
Proof.
  intros Hok Hhi.
  destruct (Z.leb_spec (p_id p) 1) as [Hle|Hgt].
  { rewrite free_unfold. destruct (Z.leb_spec (p_id p) 1); [|lia].
    split; [|done]. split; auto. }
  destruct (decide (Forall (λ x, x ∉ cache f) (page_run p))) as [Hfresh|Htaken].
  - rewrite (free_appends t p f) by done.
    split; [|done]. split; [done|]. intros [?|(x & Hx & Hc)]; [lia|].
    rewrite Forall_forall in Hfresh. exfalso. apply (Hfresh x); [|done].
    apply elem_of_seqZ. lia.
  - apply not_Forall_Exists in Htaken; [|intros x; apply _].
    apply Exists_exists in Htaken as (x & Hx & Hc).
    apply elem_of_seqZ in Hx. apply dec_stable in Hc.
    assert (Ht : ∃ x, p_id p ≤ x ≤ p_id p + p_overflow p ∧ x ∈ cache f).
    { exists x. split; [lia|done]. }
    rewrite (free_taken t p f) by done. split; [|done]. split; auto.
Qed.

Lemma free_panics_iff_or_appends_witness :
  free 10 (page_at 20 2) newFreelist =
    Done {| ids := []; pending := {[10 := [20; 21; 22]]}; cache := {[20; 21; 22]} |}.
Proof.
  destruct (free_panics_iff_or_appends 10 (page_at 20 2) newFreelist) as [Hiff Hdone].
  - unfold page_header_ok, is_uint64, max_uint64. simpl. lia.
  - unfold max_uint64. simpl. lia.
  - rewrite Hdone.
    + reflexivity.
    + intros Hp. apply Hiff in Hp as [Hp|(x & _ & Hx)].
      * simpl in Hp. lia.
      * simpl in Hx. set_solver.
Defined.

(** A run that ends exactly at the largest [uint64]: the loop condition
    cannot fail, and the loop ends in the panic. *)
Lemma free_top_run (t : Z) (p : page) (f : freelist) :
  is_uint64 (p_id p) → wrap64 (p_id p + p_overflow p) = max_uint64 →
  free t p f = Panicked.
Proof.
  intros Hid Hhi. rewrite free_unfold, Hhi.
  destruct (p_id p <=? 1); [done|]. by rewrite free_loop_top_panics.
Qed.

(** A run that wraps past the top of the range is not visited at all. *)
Lemma free_wrapped_run (t : Z) (p : page) (f : freelist) :
  1 < p_id p → wrap64 (p_id p + p_overflow p) < p_id p →
  free t p f =
    Done {| ids := ids f; pending := <[t := default [] (pending f !! t)]> (pending f);
            cache := cache f |}.
Proof.
  intros Hid Hhi. rewrite free_unfold.
  destruct (Z.leb_spec (p_id p) 1); [lia|].
  change (free_loop (S (S uint64_card)) (p_id p) (wrap64 (p_id p + p_overflow p))
            (default [] (pending f !! t)) (cache f))
    with (if p_id p <=? wrap64 (p_id p + p_overflow p) then
            if decide (p_id p ∈ cache f) then Panicked
            else free_loop (S uint64_card) (wrap64 (p_id p + 1))
                   (wrap64 (p_id p + p_overflow p))
                   (default [] (pending f !! t) ++ [p_id p]) ({[p_id p]} ∪ cache f)
          else Done (default [] (pending f !! t), cache f)).
  destruct (Z.leb_spec (p_id p) (wrap64 (p_id p + p_overflow p))); [lia|done].
Qed.

(** C9, as stated, fails on the page with the largest id: no id of its run
    is cached and its id is above 1, yet the loop of [free] wraps around
    and panics on the id it cached itself. *)
Lemma free_top_page_counterexample :
  let p := page_at max_uint64 0 in
  ¬ (free 0 p newFreelist = Panicked ↔
       p_id p ≤ 1 ∨ ∃ x, p_id p ≤ x ≤ p_id p + p_overflow p ∧ x ∈ cache newFreelist).
Proof.
  intros p [Hpanic _].
  destruct Hpanic as [Hle|(x & _ & Hx)].
  - apply free_top_run; unfold is_uint64; by vm_compute.
  - revert Hle. by vm_compute.
  - revert Hx. apply not_elem_of_empty.
Qed.

Example free_wrapped_page :
  free 0 (page_at max_uint64 1) newFreelist =
    Done {| ids := []; pending := {[0 := []]}; cache := ∅ |}.
Proof. rewrite free_wrapped_run; [reflexivity|by vm_compute..]. Qed.

(** C8 (as amended). When transaction [t] has no pending entry yet,
    [free t p] followed by [rollback t] gives back the freelist as it was:
    [ids], [pending] and [cache]. *)
Theorem free_rollback_identity (t : Z) (p : page) (f f' : freelist) :
  pending f !! t = None →
  free t p f = Done f' →
  rollback t f' = f.
Proof.
  intros Hnone Hfree. rewrite free_unfold in Hfree.
  destruct (p_id p <=? 1); [done|].
  destruct (free_loop _ _ _ _ _) as [[l' c']| |] eqn:Hloop; [|done..].
  simpl in Hfree. injection Hfree as <-.
  apply free_loop_done in Hloop as (run & -> & -> & Hrun).
  rewrite Hnone. unfold rollback. simpl.
  rewrite lookup_insert_eq, delete_insert_id by done. simpl.
  rewrite foldl_uncache. destruct f as [i pe c]. simpl in *. f_equal.
  apply set_eq. intros x. rewrite Forall_forall in Hrun.
  specialize (Hrun x). set_solver.
Qed.

Lemma free_rollback_identity_witness :
  ∃ f', free 10 (page_at 20 2) newFreelist = Done f' ∧ rollback 10 f' = newFreelist.
Proof.
  eexists. split.
  - reflexivity.
  - apply (free_rollback_identity 10 (page_at 20 2) newFreelist); reflexivity.
Defined.

(** C8, as stated, fails when [t] already has pending pages: [rollback]
    drops all of them, not only the page freed last. *)
Lemma free_rollback_counterexample :
  let f := {| ids := []; pending := {[10 := [20]]}; cache := {[20]} |} in
  ∃ f', free 10 (page_at 21 0) f = Done f' ∧ rollback 10 f' ≠ f.
Proof.
  eexists. split.
  - reflexivity.
  - intros H. apply (f_equal (λ f, pending f !! 10)) in H. simpl in H.
    rewrite lookup_delete_eq, lookup_singleton_eq in H. done.
Qed.

(** ** [allocate] *)

Lemma wrap64_sub_is_one (a b : Z) :
  1 < a ≤ max_uint64 → 0 ≤ b ≤ max_uint64 →
  (wrap64 (a - b) =? 1) = bool_decide (a = b + 1).
Proof.
  unfold max_uint64, wrap64. intros Ha Hb.
  destruct (Z.eqb_spec ((a - b) mod 2 ^ 64) 1) as [H|H].
  - rewrite bool_decide_eq_true_2; [done|].
    destruct (Z_le_gt_dec b a).
    + rewrite Z.mod_small in H by lia. lia.
    + replace (a - b) with (a - b + 2 ^ 64 + (-1) * 2 ^ 64) in H by lia.
      rewrite Z_mod_plus_full, Z.mod_small in H by lia. lia.
  - rewrite bool_decide_eq_false_2; [done|]. intros ->. apply H.
    replace (b + 1 - b) with 1 by lia. done.
Qed.

Lemma wrap64_block_length (d n : Z) :
  0 ≤ d ≤ max_uint64 - 2 → 1 ≤ n ≤ max_int →
  (wrap64 (wrap64 d + 1) =? pgid_of_int n) = bool_decide (d + 1 = n).
Proof.
  unfold max_uint64, max_int, pgid_of_int, wrap64. intros Hd Hn.
  rewrite (Z.mod_small d), (Z.mod_small (d + 1)), (Z.mod_small n) by lia.
  destruct (Z.eqb_spec (d + 1) n).
  - by rewrite bool_decide_eq_true_2.
  - by rewrite bool_decide_eq_false_2.
Qed.

Section scan.
Variable l : list Z.
Variable n : Z.
Hypothesis Hn : 1 ≤ n ≤ max_int.
Hypothesis Hvalid : valid_ids l.

Lemma valid_lookup (k : nat) (x : Z) : l !! k = Some x → 1 < x ≤ max_uint64.
  Proof.
    intros H. unfold valid_ids in Hvalid. rewrite Forall_lookup in Hvalid.
    exact (Hvalid k x H).
  Qed.

  (** A run cannot straddle the start of a block. *)
Lemma run_not_across (j : nat) (s : Z) (j0 : nat) :
    run_at l n j s → (j < j0)%nat → Z.of_nat j0 < Z.of_nat j + n →
    ∃ a b, l !! pred j0 = Some a ∧ l !! j0 = Some b ∧ a + 1 = b.
  Proof.
    intros Hrun Hlt Hin.
    pose proof (Hrun (pred j0 - j)%nat ltac:(lia)) as Ha.
    pose proof (Hrun (j0 - j)%nat ltac:(lia)) as Hb.
    replace (j + (pred j0 - j))%nat with (pred j0) in Ha by lia.
    replace (j + (j0 - j))%nat with j0 in Hb by lia.
    eexists _, _. split_and!; [exact Ha|exact Hb|lia].
  Qed.


Lemma block_norun_next (i j0 : nat) (initial : Z) :
    block_inv l n i j0 initial → Z.of_nat (S i - j0) < n →
    ∀ j s, Z.of_nat j + n ≤ Z.of_nat (S i) → ¬ run_at l n j s.
  Proof.
    intros Hb Hshort j s Hj Hrun.
    destruct (decide (Z.of_nat j + n ≤ Z.of_nat i)) as [Hold|Hnew].
    { exact (bi_norun _ _ _ _ _ Hb j s Hold Hrun). }
    pose proof (bi_le _ _ _ _ _ Hb) as Hle.
    destruct (decide (j0 ≤ j)%nat) as [Hge|Hlt]; [lia|].
    destruct (run_not_across j s j0 Hrun) as (a & b & Ha & Hb' & Hab); [lia..|].
    exact (bi_boundary _ _ _ _ _ Hb a b ltac:(lia) Ha Hb' Hab).
  Qed.

  (** Taking the id at index [i] into a block: what the two tests of the
      loop body compute. *)
Lemma scan_enter (i j0 : nat) (initial previd id : Z) :
    scan_inv l n i j0 initial previd → l !! i = Some id →
    let initial' :=
      if (previd =? 0) || negb (wrap64 (id - previd) =? 1) then id else initial in
    ∃ j0', block_inv l n i j0' initial' ∧
           (wrap64 (wrap64 (id - initial') + 1) =? pgid_of_int n)
           = bool_decide (Z.of_nat (i - j0') + 1 = n).
  Proof.
    intros Hinv Hid initial'.
    pose proof (valid_lookup i id Hid) as Hidr.
    assert (Htest0 : (wrap64 (wrap64 (id - id) + 1) =? pgid_of_int n)
                     = bool_decide (Z.of_nat (i - i) + 1 = n)).
    { rewrite wrap64_block_length; [|unfold max_uint64; lia|done].
      replace (id - id) with 0 by lia. by replace (i - i)%nat with 0%nat by lia. }
    destruct Hinv as [[-> ->]|(i' & -> & Hprev & Hb & Hshort)].
    - exists 0%nat. subst initial'. simpl. split; [|exact Htest0].
      split; try lia.
      intros k Hk. assert (k = 0%nat) as -> by lia. rewrite Hid. f_equal. lia.
    - pose proof (valid_lookup i' previd Hprev) as Hprevr.
      pose proof (bi_le _ _ _ _ _ Hb) as Hle.
      pose proof (bi_block _ _ _ _ _ Hb i' ltac:(lia)) as Hpv.
      rewrite Hprev in Hpv. injection Hpv as Hpv.
      pose proof (bi_block _ _ _ _ _ Hb j0 ltac:(lia)) as Hj0.
      pose proof (valid_lookup j0 _ Hj0) as Hinit.
      replace (j0 - j0)%nat with 0%nat in Hinit by lia.
      subst initial'. destruct (Z.eqb_spec previd 0) as [?|_]; [lia|].
      rewrite wrap64_sub_is_one by lia. simpl.
      destruct (decide (id = previd + 1)) as [Hnext|Hgap].
      + rewrite bool_decide_eq_true_2 by done. simpl. exists j0. split.
        * split; [lia| |done|exact (bi_boundary _ _ _ _ _ Hb)|
                  exact (block_norun_next i' j0 initial Hb Hshort)].
          intros k Hk. destruct (decide (k = S i')) as [->|Hne].
          -- rewrite Hid. f_equal. lia.
          -- apply (bi_block _ _ _ _ _ Hb). lia.
        * rewrite wrap64_block_length; [|lia|done]. f_equal.
          apply bool_decide_ext. lia.
      + rewrite bool_decide_eq_false_2 by done. simpl. exists (S i'). split; [|exact Htest0].
        split; [lia| |lia| |exact (block_norun_next i' j0 initial Hb Hshort)].
        * intros k Hk. assert (k = S i') as -> by lia. rewrite Hid. f_equal. lia.
        * intros a b _ Ha Hb'. simpl in Ha. congruence.
  Qed.

Lemma scan_leave (i j0 : nat) (initial id : Z) :
    block_inv l n i j0 initial → Z.of_nat (i - j0) + 1 ≠ n → l !! i = Some id →
    scan_inv l n (S i) j0 initial id.
  Proof.
    intros Hb Hne Hid. right. exists i. split_and!; [done..|].
    pose proof (bi_le _ _ _ _ _ Hb). pose proof (bi_short _ _ _ _ _ Hb). lia.
  Qed.

Lemma scan_found (i j0 : nat) (initial : Z) :
    block_inv l n i j0 initial → Z.of_nat (i - j0) + 1 = n →
    run_at l n j0 initial ∧ ∀ j' s', (j' < j0)%nat → ¬ run_at l n j' s'.
  Proof.
    intros Hb Hlen. pose proof (bi_le _ _ _ _ _ Hb) as Hle. split.
    - intros k Hk. rewrite (bi_block _ _ _ _ _ Hb) by lia. f_equal. lia.
    - intros j' s' Hlt Hrun.
      destruct (decide (Z.of_nat j' + n ≤ Z.of_nat i)) as [Hold|Hnew].
      { exact (bi_norun _ _ _ _ _ Hb j' s' Hold Hrun). }
      destruct (run_not_across j' s' j0 Hrun) as (a & b & Ha & Hb' & Hab); [lia..|].
      exact (bi_boundary _ _ _ _ _ Hb a b ltac:(lia) Ha Hb' Hab).
  Qed.

  (** The scan finds the leftmost run of [n] contiguous ids, if there is one. *)
Lemma allocate_scan_correct (rest : list Z) (i j0 : nat) (initial previd : Z) :
    drop i l = rest → scan_inv l n i j0 initial previd →
    match allocate_scan n rest i initial previd with
    | Done None => ∀ j s, ¬ run_at l n j s
    | Done (Some (i', s)) =>
        ∃ j, Z.of_nat i' = Z.of_nat j + n - 1 ∧ run_at l n j s ∧
             ∀ j' s', (j' < j)%nat → ¬ run_at l n j' s'
    | _ => False
    end.
  Proof.
    revert i j0 initial previd.
    induction rest as [|id rest IH]; intros i j0 initial previd Hdrop Hinv.
    - simpl. intros j s Hrun.
      assert (Hlen : (length l ≤ i)%nat).
      { apply (f_equal length) in Hdrop. rewrite length_drop in Hdrop. simpl in Hdrop. lia. }
      pose proof (Hrun (Z.to_nat (n - 1)) ltac:(lia)) as Hlast.
      apply lookup_lt_Some in Hlast.
      destruct Hinv as [[-> ->]|(i' & -> & Hprev & Hb & Hshort)]; [lia|].
      apply (block_norun_next i' j0 initial Hb Hshort j s); [lia|done].
    - assert (Hid : l !! i = Some id).
      { rewrite <- (Nat.add_0_r i), <- lookup_drop, Hdrop. done. }
      assert (Hdrop' : drop (S i) l = rest).
      { replace (S i) with (i + 1)%nat by lia. by rewrite <- drop_drop, Hdrop. }
      pose proof (valid_lookup i id Hid) as Hidr.
      simpl. destruct (Z.leb_spec id 1) as [?|_]; [lia|].
      destruct (scan_enter i j0 initial previd id Hinv Hid) as (j0' & Hb & Htest).
      cbv zeta in Htest. rewrite Htest.
      destruct (decide (Z.of_nat (i - j0') + 1 = n)) as [Hlen|Hlen].
      + rewrite bool_decide_eq_true_2 by done.
        destruct (scan_found i j0' _ Hb Hlen) as [Hrun Hfirst].
        exists j0'. split_and!; [|done..].
        pose proof (bi_le _ _ _ _ _ Hb). lia.
      + rewrite bool_decide_eq_false_2 by done.
        apply (IH (S i) j0'); [done|]. by apply scan_leave.
  Qed.
End scan.

Lemma run_at_length (l : list Z) (n : Z) (j : nat) (s : Z) :
  1 ≤ n → run_at l n j s → (j + Z.to_nat n ≤ length l)%nat.
Proof.
  intros Hn Hrun. pose proof (Hrun (Z.to_nat (n - 1)) ltac:(lia)) as H.
  apply lookup_lt_Some in H. lia.
Qed.

Lemma uncache_run_eq (c : gset Z) (initial n : Z) :
  0 ≤ initial → 1 ≤ n ≤ max_int → initial + n - 1 ≤ max_uint64 →
  uncache_run c initial n = c ∖ list_to_set (seqZ initial n).
Proof.
  intros Hi Hn Hmax. unfold uncache_run, pgid_of_int.
  rewrite (wrap64_small n) by (unfold is_uint64, max_uint64, max_int in *; lia).
  replace (seqZ initial n) with (Z.add initial <$> seqZ 0 n)
    by (rewrite fmap_add_seqZ; f_equal; lia).
  assert (Hall : Forall (λ i, 0 ≤ i < n) (seqZ 0 n)).
  { apply Forall_forall. intros x Hx%elem_of_seqZ. lia. }
  revert c Hall. generalize (seqZ 0 n). intros ks.
  induction ks as [|i ks IH]; intros c Hall; simpl; [set_solver|].
  apply Forall_cons in Hall as [Hi' Hall].
  rewrite IH by done. rewrite wrap64_small by (unfold is_uint64; lia). set_solver.
Qed.

(** What is left of [f.ids] once the block [j, j + n) is cut out, along
    either path of the source. *)
Lemma allocate_splice (l : list Z) (n : Z) (j : nat) :
  1 ≤ n → (j + Z.to_nat n ≤ length l)%nat →
  let i := (j + Z.to_nat n - 1)%nat in
  (if Z.of_nat i + 1 =? n then slice_from l (Z.of_nat i + 1)
   else
     dst ←← slice_from l (Z.of_nat i - n + 1) ;;
     src ←← slice_from l (Z.of_nat i + 1) ;;
     let arr := take (Z.to_nat (Z.of_nat i - n + 1)) l ++ go_copy dst src in
     slice_to arr (Z.of_nat (length l) - n))
  = Done (take j l ++ drop (j + Z.to_nat n) l).
Proof.
  intros Hn Hlen i.
  assert (Hi1 : Z.to_nat (Z.of_nat i + 1) = (j + Z.to_nat n)%nat) by lia.
  assert (Hlo : Z.of_nat i - n + 1 = Z.of_nat j) by lia.
  assert (Hfrom : slice_from l (Z.of_nat i + 1) = Done (drop (j + Z.to_nat n) l)).
  { unfold slice_from.
    destruct (Z.ltb_spec (Z.of_nat i + 1) 0); [lia|].
    destruct (Z.ltb_spec (Z.of_nat (length l)) (Z.of_nat i + 1)); [lia|].
    simpl. by rewrite Hi1. }
  destruct (Z.eqb_spec (Z.of_nat i + 1) n) as [Heq|Hne].
  - rewrite Hfrom. assert (j = 0%nat) as -> by lia. done.
  - rewrite Hfrom, Hlo. unfold slice_from at 1.
    destruct (Z.ltb_spec (Z.of_nat j) 0); [lia|].
    destruct (Z.ltb_spec (Z.of_nat (length l)) (Z.of_nat j)); [lia|].
    simpl. rewrite Nat2Z.id. unfold go_copy, slice_to.
    rewrite !length_drop.
    rewrite (take_ge (drop (j + Z.to_nat n) l)) by (rewrite length_drop; lia).
    rewrite !length_app, length_take, !length_drop.
    destruct (Z.ltb_spec (Z.of_nat (length l) - n) 0); [lia|].
    match goal with |- context [?a <? ?b] => destruct (Z.ltb_spec a b) end; [lia|].
    simpl. rewrite app_assoc. apply (f_equal Done).
    apply take_app_length'. rewrite length_app, length_take, length_drop. lia.
Qed.

Section allocate_runs.
Variable f : freelist.
Variable n : Z.
Hypothesis Hn : 1 ≤ n ≤ max_int.
Hypothesis Hvalid : valid_ids (ids f).

Lemma scan_inv_start : scan_inv (ids f) n 0 0 0 0.
  Proof. by left. Qed.

Lemma allocate_no_run :
    (∀ j s, ¬ run_at (ids f) n j s) → allocate n f = Done (0, f).
  Proof.
    intros Hnone. unfold allocate.
    destruct (length (ids f) =? 0)%nat; [done|].
    pose proof (allocate_scan_correct (ids f) n Hn Hvalid (ids f) 0 0 0 0
                  eq_refl scan_inv_start) as Hscan.
    destruct (allocate_scan n (ids f) 0 0 0) as [[[i s]|]| |]; [|done..].
    destruct Hscan as (j & _ & Hrun & _). by destruct (Hnone j s).
  Qed.

Lemma allocate_leftmost_run (j : nat) (s : Z) :
    run_at (ids f) n j s → (∀ j' s', (j' < j)%nat → ¬ run_at (ids f) n j' s') →
    allocate n f =
      Done (s, {| ids := take j (ids f) ++ drop (j + Z.to_nat n) (ids f);
                  pending := pending f;
                  cache := cache f ∖ list_to_set (seqZ s n) |}).
  Proof.
    intros Hrun Hfirst. unfold allocate.
    pose proof (run_at_length _ _ _ _ (proj1 Hn) Hrun) as Hlen.
    destruct (Nat.eqb_spec (length (ids f)) 0) as [?|_]; [lia|].
    pose proof (allocate_scan_correct (ids f) n Hn Hvalid (ids f) 0 0 0 0
                  eq_refl scan_inv_start) as Hscan.
    destruct (allocate_scan n (ids f) 0 0 0) as [[[i s']|]| |]; [|by destruct (Hscan j s)|done..].
    destruct Hscan as (j' & Hi & Hrun' & Hfirst').
    assert (j' = j) as ->.
    { destruct (Nat.lt_trichotomy j' j) as [Hlt|[?|Hlt]]; [|done|].
      - by destruct (Hfirst j' s' Hlt).
      - by destruct (Hfirst' j s Hlt). }
    assert (s' = s) as ->.
    { pose proof (Hrun 0%nat ltac:(lia)) as H1. pose proof (Hrun' 0%nat ltac:(lia)) as H2.
      rewrite H1 in H2. injection H2 as H2. lia. }
    assert (i = (j + Z.to_nat n - 1)%nat) as -> by lia.
    pose proof (allocate_splice (ids f) n j (proj1 Hn) Hlen) as Hsplice.
    cbv zeta in Hsplice. unfold obind at 1 2. rewrite Hsplice.
    rewrite uncache_run_eq; [done| |done|].
    - pose proof (Hrun 0%nat ltac:(lia)) as H1. apply (valid_lookup _ Hvalid) in H1. lia.
    - pose proof (Hrun (Z.to_nat (n - 1)) ltac:(lia)) as H1.
      apply (valid_lookup _ Hvalid) in H1. lia.
  Qed.
End allocate_runs.

(** *** Runs in a strictly ascending list *)

Lemma sorted_lookup_lt {A} (R : relation A) (l : list A) (i k : nat) (x y : A) :
  StronglySorted R l → (i < k)%nat → l !! i = Some x → l !! k = Some y → R x y.
Proof.
  intros Hs. revert i k. induction Hs as [|a l Hs IH Hall]; intros i k Hik Hi Hk.
  - by rewrite lookup_nil in Hi.
  - destruct k as [|k]; [lia|]. destruct i as [|i]; simpl in *.
    + injection Hi as <-. rewrite Forall_forall in Hall.
      apply Hall. eapply list_elem_of_lookup_2, Hk.
    + apply (IH i k); [lia|done..].
Qed.

Lemma filter_all {A} (P : A → Prop) `{∀ x, Decision (P x)} (l : list A) :
  Forall P l → filter P l = l.
Proof.
  induction 1 as [|x l Hx Hl IH]; [done|]. by rewrite filter_cons_True, IH.
Qed.

Lemma filter_none {A} (P : A → Prop) `{∀ x, Decision (P x)} (l : list A) :
  Forall (λ x, ¬ P x) l → filter P l = [].
Proof.
  induction 1 as [|x l Hx Hl IH]; [done|]. by rewrite filter_cons_False, IH.
Qed.

Lemma run_at_has_run (l : list Z) (n : Z) (j : nat) (s : Z) :
  run_at l n j s → has_run l n s.
Proof.
  intros Hrun x Hx. pose proof (Hrun (Z.to_nat (x - s)) ltac:(lia)) as H.
  replace (s + Z.of_nat (Z.to_nat (x - s))) with x in H by lia.
  eapply list_elem_of_lookup_2, H.
Qed.

Section strict.
Variable l : list Z.
Hypothesis Hsorted : strictly_ascending l.

Lemma strict_lookup_lt (i k : nat) (x y : Z) :
    l !! i = Some x → l !! k = Some y → (i < k)%nat ↔ x < y.
  Proof.
    intros Hi Hk. split.
    - intros Hlt. exact (sorted_lookup_lt Z.lt l i k x y Hsorted Hlt Hi Hk).
    - intros Hxy. destruct (Nat.lt_trichotomy i k) as [?|[->|Hgt]]; [done| |].
      + rewrite Hi in Hk. injection Hk as ->. lia.
      + pose proof (sorted_lookup_lt Z.lt l k i y x Hsorted Hgt Hk Hi). lia.
  Qed.

  (** Ids [s, ..., s+n-1] that are all in the list sit next to each other. *)
Lemma has_run_run_at (n s : Z) :
    1 ≤ n → has_run l n s → ∃ j, run_at l n j s.
  Proof.
    intros Hn Hhas.
    destruct (list_elem_of_lookup_1 l s (Hhas s ltac:(lia))) as [j Hj].
    exists j. intros k. induction k as [|k IH]; intros Hk.
    - rewrite Nat.add_0_r, Hj. f_equal. lia.
    - specialize (IH ltac:(lia)).
      destruct (list_elem_of_lookup_1 l _ (Hhas (s + Z.of_nat (S k)) ltac:(lia))) as [m Hm].
      assert (Hjm : (j + k < m)%nat).
      { apply (strict_lookup_lt _ _ _ _ IH Hm). lia. }
      destruct (lookup_lt_is_Some_2 l (j + S k)) as [y Hy].
      { apply lookup_lt_Some in Hm. lia. }
      assert (s + Z.of_nat k < y).
      { apply (strict_lookup_lt (j + k) (j + S k) _ _ IH Hy). lia. }
      destruct (decide (j + S k = m)%nat) as [->|Hne]; [done|].
      assert (y < s + Z.of_nat (S k)).
      { apply (strict_lookup_lt (j + S k) m _ _ Hy Hm). lia. }
      lia.
  Qed.

Lemma run_at_order (n : Z) (j j' : nat) (s s' : Z) :
    1 ≤ n → run_at l n j s → run_at l n j' s' → (j' < j)%nat ↔ s' < s.
  Proof.
    intros Hn Hrun Hrun'.
    pose proof (Hrun 0%nat ltac:(lia)) as H. pose proof (Hrun' 0%nat ltac:(lia)) as H'.
    rewrite Nat.add_0_r, Z.add_0_r in H, H'. exact (strict_lookup_lt _ _ _ _ H' H).
  Qed.

  (** Cutting the block out leaves exactly the ids outside the run. *)
Lemma cut_run_filter (n : Z) (j : nat) (s : Z) :
    1 ≤ n → run_at l n j s →
    take j l ++ drop (j + Z.to_nat n) l = filter (λ x, ¬ (s ≤ x < s + n)) l.
  Proof.
    intros Hn Hrun. pose proof (run_at_length _ _ _ _ Hn Hrun) as Hlen.
    pose proof (Hrun 0%nat ltac:(lia)) as Hfirst.
    pose proof (Hrun (Z.to_nat (n - 1)) ltac:(lia)) as Hlast.
    rewrite Nat.add_0_r, Z.add_0_r in Hfirst.
    rewrite <- (take_drop j l) at 3. rewrite <- (take_drop (Z.to_nat n) (drop j l)).
    rewrite drop_drop, !filter_app.
    rewrite (filter_all _ (take j l)), filter_none, (filter_all _ (drop _ l)); [done|..].
    - apply Forall_lookup. intros k x Hk. rewrite lookup_drop in Hk.
      assert (s + Z.of_nat (Z.to_nat (n - 1)) < x); [|lia].
      apply (strict_lookup_lt _ _ _ _ Hlast Hk). lia.
    - apply Forall_lookup. intros k x Hk.
      apply lookup_take_Some in Hk as [Hk Hlt]. rewrite lookup_drop in Hk.
      rewrite (Hrun k) in Hk by lia. injection Hk as <-. lia.
    - apply Forall_lookup. intros k x Hk.
      apply lookup_take_Some in Hk as [Hk Hlt].
      assert (x < s); [|lia]. by apply (strict_lookup_lt _ _ _ _ Hk Hfirst).
  Qed.
End strict.

Lemma strictly_ascending_filter (P : Z → Prop) `{∀ x, Decision (P x)} (l : list Z) :
  strictly_ascending l → strictly_ascending (filter P l).
Proof.
  induction 1 as [|x l Hs IH Hall]; [constructor|].
  rewrite filter_cons. destruct (decide (P x)); [|done].
  constructor; [done|]. rewrite Forall_forall in Hall |- *.
  intros y [_ Hy]%list_elem_of_filter. by apply Hall.
Qed.

(** The scan panics on the first id [≤ 1] that it reaches. *)
Lemma allocate_scan_panics (n : Z) (pre post : list Z) (id : Z) (i : nat) (initial previd : Z) :
  allocate_scan n pre i initial previd = Done None → id ≤ 1 →
  allocate_scan n (pre ++ id :: post) i initial previd = Panicked.
Proof.
  revert i initial previd. induction pre as [|x pre IH]; intros i initial previd Hpre Hid; simpl.
  - by destruct (Z.leb_spec id 1); [|lia].
  - simpl in Hpre. destruct (x <=? 1); [done|].
    destruct (_ =? pgid_of_int n); [done|]. by apply IH.
Qed.

Lemma leftmost_run_dec (l : list Z) (n : Z) :
  1 ≤ n ≤ max_int → valid_ids l →
  (∀ j s, ¬ run_at l n j s) ∨
  (∃ j s, run_at l n j s ∧ ∀ j' s', (j' < j)%nat → ¬ run_at l n j' s').
Proof.
  intros Hn Hvalid.
  pose proof (allocate_scan_correct l n Hn Hvalid l 0 0 0 0 eq_refl (or_introl (conj eq_refl eq_refl)))
    as Hscan.
  destruct (allocate_scan n l 0 0 0) as [[[i s]|]| |]; [|by left|done..].
  destruct Hscan as (j & _ & Hrun & Hfirst). right. by exists j, s.
Qed.

(** The two ways [allocate] ends on a well-formed list of free ids. *)
Lemma allocate_outcome (f : freelist) (n : Z) :
  1 ≤ n ≤ max_int → strictly_ascending (ids f) → valid_ids (ids f) →
  ((∀ s, ¬ has_run (ids f) n s) ∧ allocate n f = Done (0, f)) ∨
  (∃ s, has_run (ids f) n s ∧ (∀ s', has_run (ids f) n s' → s ≤ s') ∧
        allocate n f =
          Done (s, {| ids := filter (λ x, ¬ (s ≤ x < s + n)) (ids f);
                      pending := pending f;
                      cache := cache f ∖ list_to_set (seqZ s n) |}) ∧
        strictly_ascending (filter (λ x, ¬ (s ≤ x < s + n)) (ids f))).
Proof.
  intros Hn Hsorted Hvalid.
  destruct (leftmost_run_dec (ids f) n Hn Hvalid) as [Hnone|(j & s & Hrun & Hfirst)].
  - left. split; [|by apply allocate_no_run].
    intros s Hhas.
    destruct (has_run_run_at (ids f) Hsorted n s (proj1 Hn) Hhas) as [j Hrun].
    exact (Hnone j s Hrun).
  - right. exists s. split_and!.
    + by eapply run_at_has_run.
    + intros s' Hhas'.
      destruct (has_run_run_at (ids f) Hsorted n s' (proj1 Hn) Hhas') as [j' Hrun'].
      destruct (Z_le_gt_dec s s') as [?|Hgt]; [done|]. exfalso.
      apply (Hfirst j' s'); [|done].
      apply (run_at_order (ids f) Hsorted n j j' s s' (proj1 Hn) Hrun Hrun'). lia.
    + rewrite (allocate_leftmost_run f n Hn Hvalid j s Hrun Hfirst).
      by rewrite (cut_run_filter (ids f) Hsorted n j s (proj1 Hn) Hrun).
    + by apply strictly_ascending_filter.
Qed.

Lemma allocate_panics (f : freelist) (n : Z) (pre post : list Z) (id : Z) :
  1 ≤ n ≤ max_int →
  ids f = pre ++ id :: post → valid_ids pre → (∀ j s, ¬ run_at pre n j s) →
  id ≤ 1 → allocate n f = Panicked.
Proof.
  intros Hn Hids Hpre Hnone Hid. unfold allocate. rewrite Hids.
  destruct (length (pre ++ id :: post) =? 0)%nat eqn:Hlen.
  { apply Nat.eqb_eq in Hlen. rewrite length_app in Hlen. simpl in Hlen. lia. }
  rewrite allocate_scan_panics; [done| |done].
  pose proof (allocate_scan_correct pre n Hn Hpre pre 0 0 0 0 eq_refl
                (or_introl (conj eq_refl eq_refl))) as Hscan.
  destruct (allocate_scan n pre 0 0 0) as [[[i s]|]| |]; [|done..].
  destruct Hscan as (j & _ & Hrun & _). by destruct (Hnone j s).
Qed.

(** C2. On a freelist whose [ids] are strictly ascending and above 1,
    [allocate n] (for [n ≥ 1]) either finds no [n] consecutive ids in [ids],
    returns 0 and leaves the freelist as it is, or returns the least [s]
    with [s, ..., s+n-1] all in [ids] (the start of the leftmost run) and
    removes exactly these ids from [ids], which stays strictly ascending,
    and from [cache].  When the scan reaches an id [≤ 1] it panics. *)
Theorem allocate_first_fit (f : freelist) (n : Z) :
  1 ≤ n ≤ max_int →
  (strictly_ascending (ids f) → valid_ids (ids f) →
   ((∀ s, ¬ has_run (ids f) n s) ∧ allocate n f = Done (0, f)) ∨
   (∃ s, has_run (ids f) n s ∧ (∀ s', has_run (ids f) n s' → s ≤ s') ∧
         allocate n f =
           Done (s, {| ids := filter (λ x, ¬ (s ≤ x < s + n)) (ids f);
                       pending := pending f;
                       cache := cache f ∖ list_to_set (seqZ s n) |}) ∧
         strictly_ascending (filter (λ x, ¬ (s ≤ x < s + n)) (ids f)))) ∧
  (∀ pre id post,
     ids f = pre ++ id :: post → valid_ids pre → (∀ j s, ¬ run_at pre n j s) →
     id ≤ 1 → allocate n f = Panicked).
Proof.
  intros Hn. split.
  - intros Hsorted Hvalid. by apply allocate_outcome.
  - intros pre id post. by apply allocate_panics.
Qed.

Lemma allocate_first_fit_witness :
  ∃ s, has_run (ids freelist_s1) 3 s ∧
       allocate 3 freelist_s1 =
         Done (s, {| ids := filter (λ x, ¬ (s ≤ x < s + 3)) (ids freelist_s1);
                     pending := ∅;
                     cache := cache freelist_s1 ∖ list_to_set (seqZ s 3) |}).
Proof.
  destruct (proj1 (allocate_first_fit freelist_s1 3 ltac:(by vm_compute)))
    as [[Hnone _]|(s & Hhas & _ & Halloc & _)].
  - repeat (constructor; [repeat constructor; lia|]). constructor.
  - repeat (constructor; [unfold max_uint64; lia|]). constructor.
  - exfalso. apply (Hnone 3). intros x Hx. simpl.
    assert (x = 3 ∨ x = 4 ∨ x = 5) as [->|[->| ->]] by lia; set_solver.
  - exists s. split; assumption.
Defined.

(** Scenario S1. *)
Example allocate_s1_first :
  allocate 3 freelist_s1 =
    Done (3, {| ids := [6; 7; 9; 12; 13]; pending := ∅;
                cache := list_to_set [6; 7; 9; 12; 13] |}).
Proof. by vm_compute. Qed.

Example allocate_s1_none :
  let f := {| ids := [6; 7; 9; 12; 13]; pending := ∅;
              cache := list_to_set [6; 7; 9; 12; 13] |} in
  allocate 3 f = Done (0, f).
Proof. by vm_compute. Qed.

Example allocate_s1_second :
  allocate 2 {| ids := [6; 7; 9; 12; 13]; pending := ∅;
                cache := list_to_set [6; 7; 9; 12; 13] |} =
    Done (6, {| ids := [9; 12; 13]; pending := ∅; cache := list_to_set [9; 12; 13] |}).
Proof. by vm_compute. Qed.

Example allocate_meta_page_panics :
  allocate 2 {| ids := [3; 1; 5; 6]; pending := ∅; cache := ∅ |} = Panicked.
Proof. by vm_compute. Qed.

(** ** The cache invariant *)

Lemma foldl_app_concat {A} (ls : list (list A)) (acc : list A) :
  foldl (λ m l, m ++ l) acc ls = acc ++ concat ls.
Proof.
  revert acc. induction ls as [|l ls IH]; intros acc; simpl.
  - by rewrite app_nil_r.
  - by rewrite IH, app_assoc.
Qed.

Lemma elem_of_concat {A} (x : A) (ls : list (list A)) :
  x ∈ concat ls ↔ ∃ l, l ∈ ls ∧ x ∈ l.
Proof.
  induction ls as [|l ls IH]; simpl.
  - split; [by intros ?%elem_of_nil|]. by intros (l & ?%elem_of_nil & _).
  - rewrite elem_of_app, IH. split.
    + intros [?|(l' & ? & ?)]; [exists l|exists l']; split; auto; by constructor.
    + intros (l' & [->|?]%elem_of_cons & ?); [by left|right; by exists l'].
Qed.

Lemma elem_of_all_pending (m : gmap Z (list Z)) (x : Z) :
  x ∈ all_pending m ↔ in_pending m x.
Proof.
  unfold all_pending, in_pending. rewrite elem_of_concat. split.
  - intros (l & Hl & Hx). apply list_elem_of_fmap in Hl as ([t l'] & -> & Hl).
    apply elem_of_map_to_list in Hl. by exists t, l'.
  - intros (t & l & Hl & Hx). exists l. split; [|done].
    apply list_elem_of_fmap. exists (t, l). split; [done|]. by apply elem_of_map_to_list.
Qed.

Lemma foldl_cache_lists (c : gset Z) (ls : list (list Z)) :
  foldl (λ c l, foldl (λ c id, {[id]} ∪ c) c l) c ls = list_to_set (concat ls) ∪ c.
Proof.
  revert c. induction ls as [|l ls IH]; intros c; simpl; [set_solver|].
  rewrite IH, foldl_cache, list_to_set_app_L. set_solver.
Qed.

Lemma pending_count_length (f : freelist) :
  pending_count f = length (all_pending (pending f)).
Proof.
  unfold pending_count, all_pending, pending_lists.
  generalize ((map_to_list (pending f)).*2). intros ls.
  assert (H : ∀ acc, foldl (λ count list, (count + length list)%nat) acc ls
                     = (acc + length (concat ls))%nat); [|apply (H 0%nat)].
  induction ls as [|l ls IH]; intros acc; simpl; [lia|].
  rewrite IH, length_app. lia.
Qed.

(** [reindex] establishes invariant 1 whatever the cache was. *)
Lemma reindex_cache_ok (f : freelist) : cache_ok (reindex f).
Proof.
  intros x. unfold reindex, pending_lists. simpl.
  rewrite foldl_cache_lists, foldl_cache.
  rewrite !elem_of_union, !elem_of_list_to_set, elem_of_empty.
  fold (all_pending (pending f)). rewrite elem_of_all_pending. tauto.
Qed.

Lemma in_pending_insert (m : gmap Z (list Z)) (t : Z) (l : list Z) (x : Z) :
  in_pending (<[t := l]> m) x ↔ x ∈ l ∨ in_pending (delete t m) x.
Proof.
  unfold in_pending. split.
  - intros (t' & l' & Hl & Hx). destruct (decide (t' = t)) as [->|Hne].
    + rewrite lookup_insert_eq in Hl. injection Hl as <-. by left.
    + rewrite lookup_insert_ne in Hl by done. right. exists t', l'.
      by rewrite lookup_delete_ne.
  - intros [Hx|(t' & l' & Hl & Hx)].
    + exists t, l. by rewrite lookup_insert_eq.
    + destruct (decide (t' = t)) as [->|Hne]; [by rewrite lookup_delete_eq in Hl|].
      rewrite lookup_delete_ne in Hl by done.
      exists t', l'. by rewrite lookup_insert_ne.
Qed.

Lemma in_pending_delete (m : gmap Z (list Z)) (t : Z) (x : Z) :
  in_pending m x ↔ x ∈ default [] (m !! t) ∨ in_pending (delete t m) x.
Proof.
  unfold in_pending. split.
  - intros (t' & l' & Hl & Hx). destruct (decide (t' = t)) as [->|Hne].
    + left. by rewrite Hl.
    + right. exists t', l'. by rewrite lookup_delete_ne.
  - intros [Hx|(t' & l' & Hl & Hx)].
    + destruct (m !! t) as [l|] eqn:Hl; [by exists t, l|by apply elem_of_nil in Hx].
    + destruct (decide (t' = t)) as [->|Hne]; [by rewrite lookup_delete_eq in Hl|].
      rewrite lookup_delete_ne in Hl by done. by exists t', l'.
Qed.

Lemma in_pending_filter (P : Z * list Z → Prop) `{∀ kv, Decision (P kv)}
    (m : gmap Z (list Z)) (x : Z) :
  in_pending (filter P m) x ↔ ∃ t l, m !! t = Some l ∧ P (t, l) ∧ x ∈ l.
Proof.
  unfold in_pending. split.
  - intros (t & l & Hl & Hx). apply map_lookup_filter_Some in Hl as [Hl HP].
    by exists t, l.
  - intros (t & l & Hl & HP & Hx). exists t, l. split; [|done].
    by apply map_lookup_filter_Some.
Qed.




Lemma merge_perm (a b : list Z) : ∃ m, merge a b = Done m ∧ m ≡ₚ a ++ b.
Proof.
  unfold merge. destruct a as [|a0 a']; [by exists b|].
  destruct b as [|b0 b']; [exists (a0 :: a'); by rewrite app_nil_r|].
  destruct (mergepgids_perm (replicate (length (a0 :: a') + length (b0 :: b')) 0)
              (a0 :: a') (b0 :: b')) as (m & Hm & Hpm); [by rewrite length_replicate|].
  exists m. rewrite Hm. rewrite drop_ge by (by rewrite length_replicate).
  by rewrite app_nil_r.
Qed.

Lemma sort_pgids_perm (l : list Z) : sort_pgids l ≡ₚ l.
Proof. apply merge_sort_Permutation. Qed.

Lemma release_result (t : Z) (f : freelist) :
  ∃ ids', release t f =
            Done {| ids := ids';
                    pending := filter (λ kv, ¬ kv.1 ≤ t) (pending f);
                    cache := cache f |} ∧
          ids' ≡ₚ ids f ++ all_pending (filter (λ kv, kv.1 ≤ t) (pending f)).
Proof.
  unfold release. rewrite foldl_app_concat. simpl.
  destruct (merge_perm (ids f)
              (sort_pgids (concat (map_to_list (filter (λ kv, kv.1 ≤ t) (pending f))).*2)))
    as (m & Hm & Hpm).
  exists m. rewrite Hm. split; [done|]. by rewrite Hpm, sort_pgids_perm.
Qed.

Lemma release_cache_ok (t : Z) (f f' : freelist) :
  cache_ok f → release t f = Done f' → cache_ok f'.
Proof.
  intros Hc Hrel. destruct (release_result t f) as (ids' & Hr & Hp).
  rewrite Hr in Hrel. injection Hrel as <-.
  intros x. simpl. rewrite (Hc x), Hp, elem_of_app, elem_of_all_pending.
  rewrite !in_pending_filter. unfold in_pending. simpl. split.
  - intros [Hx|(t' & l & Hl & Hx)]; [tauto|].
    destruct (decide (t' ≤ t)); [left; right|right]; by exists t', l.
  - intros [[Hx|(t' & l & Hl & _ & Hx)]|(t' & l & Hl & _ & Hx)];
      [tauto|right; by exists t', l..].
Qed.

Lemma rollback_cache_ok (t : Z) (f : freelist) :
  freelist_inv f → cache_ok (rollback t f).
Proof.
  intros Hinv x. unfold rollback. simpl. rewrite foldl_uncache.
  rewrite elem_of_difference, elem_of_list_to_set, (inv_cache f Hinv x).
  rewrite (in_pending_delete (pending f) t x). split.
  - tauto.
  - intros [Hx|Hx]; (split; [tauto|]); intros Ht.
    + apply (inv_free_pending f Hinv x Hx).
      apply (in_pending_delete (pending f) t x). by left.
    + destruct Hx as (t' & l' & Hl' & Hx).
      destruct (decide (t' = t)) as [->|Hne]; [by rewrite lookup_delete_eq in Hl'|].
      rewrite lookup_delete_ne in Hl' by done.
      destruct (pending f !! t) as [l|] eqn:Hl; [|by apply elem_of_nil in Ht].
      by destruct (Hne (inv_pending_disjoint f Hinv t' l' t l x Hl' Hl Hx Ht)).
Qed.

Lemma allocate_cache_ok (n : Z) (f f' : freelist) (s : Z) :
  1 ≤ n ≤ max_int → freelist_inv f → allocate n f = Done (s, f') → cache_ok f'.
Proof.
  intros Hn Hinv Halloc.
  destruct (allocate_outcome f n Hn (inv_sorted f Hinv) (inv_valid f Hinv))
    as [[_ H0]|(s' & Hhas & _ & Hs & _)]; rewrite Halloc in *.
  - injection H0 as -> ->. apply (inv_cache f Hinv).
  - injection Hs as -> ->. intros x. simpl.
    rewrite elem_of_difference, elem_of_list_to_set, elem_of_seqZ, list_elem_of_filter.
    rewrite (inv_cache f Hinv x). split; [tauto|].
    intros [Hx|Hx]; [tauto|]. split; [tauto|]. intros Hrun.
    exact (inv_free_pending f Hinv x (Hhas x Hrun) Hx).
Qed.





Lemma not_in_pending_empty (x : Z) : ¬ in_pending ∅ x.
Proof. intros (t & l & Hl & _). by rewrite lookup_empty in Hl. Qed.




(** ** [write] and [read] *)

Global Instance Z_le_antisymm : AntiSymm (=) Z.le.
Proof. intros x y ??. lia. Qed.

Lemma sort_pgids_ascending (l : list Z) : ascending (sort_pgids l).
Proof. apply StronglySorted_merge_sort; apply _. Qed.

Lemma sort_pgids_unique (l k : list Z) : ascending k → k ≡ₚ l → sort_pgids l = k.
Proof.
  intros Hk Hp. apply (StronglySorted_unique Z.le).
  - apply sort_pgids_ascending.
  - done.
  - by rewrite sort_pgids_perm.
Qed.

Lemma sort_pgids_length (l : list Z) : length (sort_pgids l) = length l.
Proof. apply Permutation_length, sort_pgids_perm. Qed.

Lemma count_length (f : freelist) :
  count f = length (ids f ++ all_pending (pending f)).
Proof. unfold count, free_count. by rewrite pending_count_length, length_app. Qed.

Lemma copyall_unfold (f : freelist) (dst : list Z) :
  copyall f dst = mergepgids dst (ids f) (sort_pgids (all_pending (pending f))).
Proof. unfold copyall. by rewrite foldl_app_concat. Qed.

Lemma copyall_short (f : freelist) (dst : list Z) :
  (length dst < count f)%nat → copyall f dst = Panicked.
Proof.
  intros H. rewrite copyall_unfold. apply mergepgids_short.
  rewrite count_length, length_app in H. by rewrite sort_pgids_length.
Qed.

(** [copyall] into a destination that is long enough: a rearrangement of
    all ids in its first [count] slots. *)
Lemma copyall_perm (f : freelist) (dst : list Z) :
  (count f ≤ length dst)%nat →
  ∃ m, copyall f dst = Done (m ++ drop (count f) dst) ∧
       m ≡ₚ ids f ++ all_pending (pending f).
Proof.
  intros H. rewrite copyall_unfold.
  rewrite count_length, length_app in *.
  destruct (mergepgids_perm dst (ids f) (sort_pgids (all_pending (pending f))))
    as (m & Hm & Hp); [by rewrite sort_pgids_length|].
  exists m. rewrite sort_pgids_length in Hm. rewrite sort_pgids_perm in Hp. by split.
Qed.

(** With [ids] ascending the slots hold all ids in ascending order. *)
Lemma copyall_sorted (f : freelist) (dst : list Z) :
  ascending (ids f) → (count f ≤ length dst)%nat →
  copyall f dst = Done (all_ids_sorted f ++ drop (count f) dst).
Proof.
  intros Hs H. rewrite copyall_unfold.
  rewrite count_length, length_app in *.
  destruct (mergepgids_fits dst (ids f) (sort_pgids (all_pending (pending f))))
    as (m & Hm & _ & Hsm & Hp & _);
    [done|apply sort_pgids_ascending|by rewrite sort_pgids_length|].
  rewrite sort_pgids_length in Hm. rewrite sort_pgids_perm in Hp. rewrite Hm. do 2 f_equal.
  symmetry. by apply sort_pgids_unique.
Qed.

(** *** The array view *)

Lemma array_len_lower (l : list Z) :
  maxAllocSize ≤ array_len l ∧ Z.of_nat (length l) ≤ array_len l.
Proof. unfold array_len. lia. Qed.

Lemma length_array_prefix (l : list Z) (n : Z) :
  length (array_prefix l n) = (length l `max` Z.to_nat (Z.min n (array_len l)))%nat.
Proof. unfold array_prefix. rewrite length_app, length_replicate. lia. Qed.

(** Within the listed slots the array is the list. *)
Lemma array_prefix_listed (l : list Z) (n : Z) :
  n ≤ Z.of_nat (length l) → array_prefix l n = l.
Proof.
  intros H. unfold array_prefix.
  replace (Z.to_nat (Z.min n (array_len l)) - length l)%nat with 0%nat by lia.
  apply app_nil_r.
Qed.

(** No slot behind the [n]-th is made up. *)
Lemma array_prefix_lookup (l : list Z) (n : Z) (i : nat) :
  n ≤ Z.of_nat i → array_prefix l n !! i = l !! i.
Proof.
  intros H. unfold array_prefix.
  destruct (decide (i < length l)%nat) as [Hlt|Hge]; [by rewrite lookup_app_l|].
  rewrite (proj2 (lookup_ge_None l i)) by lia. apply lookup_ge_None.
  rewrite length_app, length_replicate. lia.
Qed.

Lemma array_slice_to_listed (l : list Z) (n : Z) :
  0 ≤ n ≤ Z.of_nat (length l) → array_slice_to l n = Done (take (Z.to_nat n) l).
Proof.
  intros H. unfold array_slice_to. pose proof (array_len_lower l).
  destruct (Z.ltb_spec n 0); [lia|]. destruct (Z.ltb_spec (array_len l) n); [lia|].
  simpl. by rewrite array_prefix_listed by lia.
Qed.

Lemma length_tail {A} (l : list A) : length (tail l) = pred (length l).
Proof. by destruct l. Qed.

Lemma write_unfold (p : page) (f : freelist) :
  write p f =
    (r ←← (if Z.of_nat (count f) =? 0 then Done (0, p_ptr p)
           else if Z.of_nat (count f) <? 0xFFFF then
             arr' ←← copyall f (array_prefix (pgid_slots p) (Z.of_nat (count f))) ;;
             Done (Z.of_nat (count f), PgidSlots arr')
           else
             tl' ←← copyall f (tail (array_prefix (pgid_slots p) (Z.of_nat (count f) + 1))) ;;
             Done (0xFFFF, PgidSlots (wrap64 (Z.of_nat (count f)) :: tl'))) ;;
     Done ({| p_id := p_id p; p_flags := Z.lor (p_flags p) freelistPageFlag;
              p_count := r.1; p_overflow := p_overflow p; p_ptr := r.2 |}, None)).
Proof. reflexivity. Qed.

(** What [copyall] gets from [write] has room for the ids as long as there
    are fewer than [maxAllocSize] of them, and not from there on. *)
Lemma write_dst_room (l : list Z) (f : freelist) :
  Z.of_nat (count f) < maxAllocSize →
  (count f ≤ length (array_prefix l (Z.of_nat (count f))))%nat ∧
  (count f ≤ length (tail (array_prefix l (Z.of_nat (count f) + 1))))%nat.
Proof.
  intros H. rewrite length_tail, !length_array_prefix.
  pose proof (array_len_lower l). lia.
Qed.







(** Scenario S3. *)
Example write_s3 :
  write page_s3 freelist_s3 =
    Done ({| p_id := 4; p_flags := 0x10; p_count := 3; p_overflow := 0;
             p_ptr := PgidSlots [5; 7; 9; 0] |}, None).
Proof. by vm_compute. Qed.

Example write_then_read_s3 :
  write_then_read page_s3 freelist_s3 =
    Done {| ids := [5; 7; 9]; pending := ∅; cache := list_to_set [5; 7; 9] |}.
Proof. by vm_compute. Qed.

Lemma sort_pgids_perm_eq (l k : list Z) : l ≡ₚ k → sort_pgids l = sort_pgids k.
Proof.
  intros Hp. apply sort_pgids_unique; [apply sort_pgids_ascending|].
  by rewrite sort_pgids_perm.
Qed.

Lemma reindex_fresh (l : list Z) (c : gset Z) :
  reindex {| ids := l; pending := ∅; cache := c |} =
    {| ids := l; pending := ∅; cache := list_to_set l |}.
Proof.
  unfold reindex, pending_lists. simpl. rewrite map_to_list_empty. simpl.
  rewrite foldl_cache. f_equal. set_solver.
Qed.

Lemma read_unfold (p : page) (f : freelist) :
  read p f =
    (let r := if p_count p =? 0xFFFF
              then (1%nat, int_of_uint64 (array_at (pgid_slots p) 0))
              else (0%nat, p_count p) in
     ids' ←← (if r.2 =? 0 then Done []
              else s ←← array_slice_to (pgid_slots p) r.2 ;;
                   Done (sort_pgids (drop r.1 s))) ;;
     Done (reindex {| ids := ids'; pending := pending f; cache := cache f |})).
Proof.
  unfold read. by destruct (if p_count p =? 65535 then _ else _) as [idx c].
Qed.

Lemma read_slots (id fl c ov : Z) (l : list Z) (f : freelist) :
  read {| p_id := id; p_flags := fl; p_count := c; p_overflow := ov;
          p_ptr := PgidSlots l |} f =
    (let r := if c =? 0xFFFF then (1%nat, int_of_uint64 (array_at l 0))
              else (0%nat, c) in
     ids' ←← (if r.2 =? 0 then Done []
              else s ←← array_slice_to l r.2 ;; Done (sort_pgids (drop r.1 s))) ;;
     Done (reindex {| ids := ids'; pending := pending f; cache := cache f |})).
Proof. by rewrite read_unfold. Qed.

(** Below the escape the round trip gives all ids back, pending ones
    included, as the sorted [ids] of the fresh freelist. *)
Lemma write_then_read_small (p : page) (f : freelist) :
  Z.of_nat (count f) < 0xFFFF → (count f ≤ length (pgid_slots p))%nat →
  write_then_read p f =
    Done {| ids := all_ids_sorted f; pending := ∅;
            cache := list_to_set (all_ids_sorted f) |}.
Proof.
  intros Hsmall Hfit. unfold write_then_read. rewrite write_unfold.
  destruct (Z.eqb_spec (Z.of_nat (count f)) 0) as [H0|H0].
  - simpl. rewrite read_unfold. simpl. rewrite reindex_fresh.
    unfold all_ids_sorted. rewrite count_length in H0.
    destruct (ids f ++ all_pending (pending f)); [done|simpl in H0; lia].
  - destruct (Z.ltb_spec (Z.of_nat (count f)) 65535) as [_|?]; [|lia].
    rewrite array_prefix_listed by lia.
    destruct (copyall_perm f (pgid_slots p) Hfit) as (m & -> & Hp).
    simpl. rewrite read_slots.
    destruct (Z.eqb_spec (Z.of_nat (count f)) 65535) as [?|_]; [lia|]. cbv zeta. cbn [fst snd].
    destruct (Z.eqb_spec (Z.of_nat (count f)) 0) as [?|_]; [lia|].
    assert (Hlm : length m = count f) by (by rewrite Hp, count_length).
    rewrite array_slice_to_listed by (rewrite length_app, length_drop, Hlm; lia).
    simpl. rewrite Nat2Z.id, take_app_length' by done.
    rewrite reindex_fresh. unfold all_ids_sorted.
    by rewrite drop_0, (sort_pgids_perm_eq m _ Hp).
Qed.

Lemma ascending_take (l : list Z) (k : nat) : ascending l → ascending (take k l).
Proof.
  intros Hs. rewrite <- (take_drop k l) in Hs. by apply StronglySorted_app_1_l in Hs.
Qed.

(** In the escape [read] slices [arr[1:count]], which holds one id less
    than [write] stored: the largest id does not come back. *)
Lemma write_then_read_escape (p : page) (f : freelist) :
  ascending (ids f) →
  0xFFFF ≤ Z.of_nat (count f) ≤ max_int → (S (count f) ≤ length (pgid_slots p))%nat →
  write_then_read p f =
    Done {| ids := take (count f - 1) (all_ids_sorted f); pending := ∅;
            cache := list_to_set (take (count f - 1) (all_ids_sorted f)) |}.
Proof.
  intros Hs Hbig Hfit. unfold write_then_read. rewrite write_unfold.
  destruct (Z.eqb_spec (Z.of_nat (count f)) 0) as [?|_]; [lia|].
  destruct (Z.ltb_spec (Z.of_nat (count f)) 65535) as [?|_]; [lia|].
  rewrite array_prefix_listed by lia.
  destruct (pgid_slots p) as [|c tl] eqn:Harr; [simpl in Hfit; lia|]. cbn [tail].
  rewrite (copyall_sorted f tl) by (done || simpl in Hfit; lia).
  simpl. rewrite read_slots. unfold array_at. simpl.
  assert (Hc : int_of_uint64 (wrap64 (Z.of_nat (count f))) = Z.of_nat (count f)).
  { unfold max_int in Hbig. rewrite wrap64_small by (unfold is_uint64, max_uint64; lia).
    unfold int_of_uint64. by destruct (Z.ltb_spec (Z.of_nat (count f)) (2 ^ 63)); [|lia]. }
  rewrite Hc. destruct (Z.eqb_spec (Z.of_nat (count f)) 0) as [?|_]; [lia|].
  assert (Hlen : length (all_ids_sorted f) = count f).
  { unfold all_ids_sorted. by rewrite sort_pgids_length, count_length. }
  rewrite array_slice_to_listed
    by (simpl length; rewrite length_app, length_drop, Hlen; simpl in Hfit; lia).
  simpl. rewrite Nat2Z.id. destruct (count f) as [|k] eqn:Hk; [lia|].
  simpl. rewrite drop_0, take_app_le by lia.
  rewrite (sort_pgids_unique _ (take k (all_ids_sorted f))); [|by apply ascending_take, sort_pgids_ascending|done].
  rewrite Nat.sub_0_r. by rewrite reindex_fresh.
Qed.

Lemma ascending_seqZ (m n : Z) : ascending (seqZ m n).
Proof.
  destruct (Z_le_gt_dec n 0) as [?|Hpos]; [rewrite seqZ_nil by done; constructor|].
  rewrite <- (Z2Nat.id n) by lia. generalize (Z.to_nat n). clear. intros k.
  induction k as [|k IH]; [rewrite seqZ_nil by done; constructor|].
  rewrite seqZ_S. apply StronglySorted_app. split_and!; [|done|repeat constructor].
  intros x y Hx%elem_of_seqZ Hy%list_elem_of_singleton. lia.
Qed.

Lemma all_pending_empty : all_pending ∅ = [].
Proof. unfold all_pending. by rewrite map_to_list_empty. Qed.

Lemma count_freelist_big : count freelist_big = Z.to_nat 65535.
Proof.
  rewrite count_length. unfold freelist_big. cbn [ids pending].
  by rewrite all_pending_empty, app_nil_r, length_seqZ.
Qed.

Lemma all_ids_sorted_big : all_ids_sorted freelist_big = seqZ 2 65535.
Proof.
  unfold all_ids_sorted, freelist_big. cbn [ids pending].
  rewrite all_pending_empty, app_nil_r.
  apply sort_pgids_unique; [apply ascending_seqZ|done].
Qed.

(** C1 at an input that takes the escape: 65535 free ids are written with
    their count in slot 0, and [read] gives back only the first 65534 of
    them; the id 65536 is lost. *)
Theorem write_read_escape_loses_last :
  ∃ f', write_then_read page_big freelist_big = Done f' ∧
        ids f' = seqZ 2 65534 ∧
        65536 ∈ ids freelist_big ∧ 65536 ∉ ids f'.
Proof.
  eexists. split_and!.
  - apply write_then_read_escape.
    + apply ascending_seqZ.
    + rewrite count_freelist_big. unfold max_int. lia.
    + rewrite count_freelist_big. unfold page_big, pgid_slots. cbn [p_ptr].
      rewrite length_replicate. lia.
  - cbn [ids]. rewrite all_ids_sorted_big, count_freelist_big.
    replace 65535 with (65534 + 1) at 2 by lia. rewrite seqZ_app by lia.
    apply take_app_length'. rewrite length_seqZ. lia.
  - apply elem_of_seqZ. lia.
  - cbn [ids]. intros Hin%elem_of_take. destruct Hin as (i & Hi & Hlt).
    rewrite all_ids_sorted_big in Hi. apply lookup_seqZ in Hi.
    rewrite count_freelist_big in Hlt. lia.
Qed.

(** ** Byte strings in lexicographic order *)

Lemma byte_to_N_inj (x y : byte) : Byte.to_N x = Byte.to_N y → x = y.
Proof.
  intros H. apply (f_equal Byte.of_N) in H. rewrite !Byte.of_to_N in H. congruence.
Qed.

Lemma bytes_compare_refl (a : list byte) : bytes_compare a a = Eq.
Proof. induction a as [|x a IH]; simpl; [done|]. by rewrite N.compare_refl. Qed.

Lemma bytes_compare_eq (a b : list byte) : bytes_compare a b = Eq → a = b.
Proof.
  revert b. induction a as [|x a IH]; intros [|y b]; simpl; try done.
  destruct (N.compare_spec (Byte.to_N x) (Byte.to_N y)) as [Heq| |]; try done.
  intros H. apply byte_to_N_inj in Heq. by rewrite Heq, (IH b H).
Qed.

Lemma bytes_compare_antisym (a b : list byte) :
  bytes_compare b a = CompOpp (bytes_compare a b).
Proof.
  revert b. induction a as [|x a IH]; intros [|y b]; simpl; try done.
  rewrite (N.compare_antisym (Byte.to_N x) (Byte.to_N y)).
  destruct (Byte.to_N x ?= Byte.to_N y)%N; simpl; auto.
Qed.

Lemma key_lt_trans (a b c : list byte) : key_lt a b → key_lt b c → key_lt a c.
Proof.
  unfold key_lt. revert b c.
  induction a as [|x a IH]; intros [|y b] [|z c]; simpl; try done.
  destruct (N.compare_spec (Byte.to_N x) (Byte.to_N y)) as [Hxy|Hxy|Hxy]; try done;
    destruct (N.compare_spec (Byte.to_N y) (Byte.to_N z)) as [Hyz|Hyz|Hyz]; try done;
    intros H1 H2.
  - rewrite Hxy, Hyz, N.compare_refl. by apply (IH b c).
  - by rewrite (proj2 (N.compare_lt_iff _ _)) by lia.
  - by rewrite (proj2 (N.compare_lt_iff _ _)) by lia.
  - by rewrite (proj2 (N.compare_lt_iff _ _)) by lia.
Qed.

Lemma key_lt_irrefl (a : list byte) : ¬ key_lt a a.
Proof. unfold key_lt. by rewrite bytes_compare_refl. Qed.

Lemma key_le_iff (a b : list byte) : key_le a b ↔ ¬ key_lt b a.
Proof.
  unfold key_le, key_lt. rewrite (bytes_compare_antisym a b).
  destruct (bytes_compare a b); simpl; split; congruence.
Qed.

Lemma key_le_cases (a b : list byte) : key_le a b ↔ key_lt a b ∨ a = b.
Proof.
  unfold key_le, key_lt. split.
  - destruct (bytes_compare a b) eqn:E; [|by left|done].
    right. by apply bytes_compare_eq.
  - intros [->| ->]; [done|]. by rewrite bytes_compare_refl.
Qed.

Lemma key_lt_le_trans (a b c : list byte) : key_lt a b → key_le b c → key_lt a c.
Proof.
  intros H1 [H2| ->]%key_le_cases; [by eapply key_lt_trans|done].
Qed.

Lemma key_le_lt_trans (a b c : list byte) : key_le a b → key_lt b c → key_lt a c.
Proof.
  intros [H1| ->]%key_le_cases H2; [by eapply key_lt_trans|done].
Qed.

Lemma key_le_trans (a b c : list byte) : key_le a b → key_le b c → key_le a c.
Proof.
  intros H1 [H2| ->]%key_le_cases; [|done].
  apply key_le_cases. left. by eapply key_le_lt_trans.
Qed.

Lemma key_lt_le (a b : list byte) : key_lt a b → key_le a b.
Proof. intros H. apply key_le_cases. by left. Qed.

Lemma key_le_total (a b : list byte) : key_lt a b ∨ key_le b a.
Proof.
  unfold key_lt, key_le. rewrite (bytes_compare_antisym a b).
  destruct (bytes_compare a b); simpl; auto.
Qed.

Lemma leaf_probe_true (keys : nat → list byte) (key : list byte) (i : nat) :
  leaf_probe keys key i = true ↔ key_le key (keys i).
Proof.
  unfold leaf_probe. rewrite key_le_iff. unfold key_lt.
  destruct (bytes_compare (keys i) key); simpl; split; congruence.
Qed.

Lemma leaf_probe_false (keys : nat → list byte) (key : list byte) (i : nat) :
  leaf_probe keys key i = false ↔ key_lt (keys i) key.
Proof.
  unfold leaf_probe, key_lt.
  destruct (bytes_compare (keys i) key); simpl; split; congruence.
Qed.

(** ** Binary search over ascending keys *)

Section key_search.
Variable n : nat.
Variable keys : nat → list byte.
Variable key : list byte.
Hypothesis Hasc : keys_ascending n keys.

Lemma leaf_probe_monotone (x y : nat) :
  (x ≤ y < n)%nat → leaf_probe keys key x = true → leaf_probe keys key y = true.
Proof.
  intros Hxy Hx. destruct (decide (x = y)) as [->|Hne]; [done|].
  apply leaf_probe_true in Hx. apply leaf_probe_true.
  eapply key_le_trans; [exact Hx|]. apply key_lt_le, Hasc. lia.
Qed.

(** [nsearch]: the leftmost index whose key is [≥ key]. *)
Lemma sort_Search_lower_bound :
  lower_bound n keys key (sort_Search n (leaf_probe keys key)).
Proof.
  destruct (sort_Search_least (leaf_probe keys key) n leaf_probe_monotone)
    as (Hr & Hlo & Hhi).
  split; [done|]. split.
  - intros i Hi. by apply leaf_probe_false, Hlo.
  - intros i Hi. by apply leaf_probe_true, Hhi.
Qed.

Lemma lower_bound_unique (l1 l2 : nat) :
  lower_bound n keys key l1 → lower_bound n keys key l2 → l1 = l2.
Proof.
  intros (H1 & Hlo1 & Hhi1) (H2 & Hlo2 & Hhi2).
  destruct (Nat.lt_trichotomy l1 l2) as [Hlt|[?|Hlt]]; [|done|]; exfalso.
  - specialize (Hlo2 l1 Hlt). specialize (Hhi1 l1 ltac:(lia)).
    by apply key_le_iff in Hhi1.
  - specialize (Hlo1 l2 Hlt). specialize (Hhi2 l2 ltac:(lia)).
    by apply key_le_iff in Hhi2.
Qed.
End key_search.

(** ** The closure of [searchNode] and [searchPage] *)

Section branch_search.
Variable n : nat.
Variable keys : nat → list byte.
Variable key : list byte.

(** The search with the [exact] flag visits the same indices as the plain
    one; the flag is raised exactly at a probe that compares equal, and the
    index returned, unless it is [n], has been probed. *)
Lemma search_loop_st_branch (fuel i j : nat) (e : bool) :
  (i ≤ j ≤ n)%nat → (j - i ≤ fuel)%nat →
  ((j < n)%nat → bytes_compare (keys j) key = Eq → e = true) →
  let '(r, e') := search_loop_st fuel (branch_probe keys key) i j e in
  r = search_loop fuel (leaf_probe keys key) i j ∧
  (e = true → e' = true) ∧
  (e' = true → e = true ∨ ∃ h, (h < n)%nat ∧ bytes_compare (keys h) key = Eq) ∧
  ((r < n)%nat → bytes_compare (keys r) key = Eq → e' = true).
Proof.
  revert i j e. induction fuel as [|fuel IH]; intros i j e Hij Hfuel Hj; simpl.
  { assert (i = j) as -> by lia. split_and!; auto. }
  destruct (Nat.ltb_spec i j) as [Hlt|Hge].
  - pose proof (div2_between i j Hlt) as Hh.
    set (h := Nat.div2 (i + j)) in *.
    unfold branch_probe at 1. fold (leaf_probe keys key h).
    destruct (leaf_probe keys key h) eqn:Hp; simpl.
    + specialize (IH i h (e || is_Eq (bytes_compare (keys h) key)) ltac:(lia) ltac:(lia)).
      destruct (search_loop_st fuel _ i h _) as [r e'].
      destruct IH as (Hr & Hmono & Hex & Hprobed).
      { intros _ Heq. rewrite Heq. simpl. by rewrite orb_true_r. }
      split_and!; [done| | |done].
      * intros ->. by apply Hmono.
      * intros He'. destruct (Hex He') as [He|?]; [|by right].
        apply orb_true_iff in He as [?|He]; [by left|].
        right. exists h. split; [lia|]. by destruct (bytes_compare (keys h) key).
    + specialize (IH (S h) j (e || is_Eq (bytes_compare (keys h) key)) ltac:(lia) ltac:(lia)).
      destruct (search_loop_st fuel _ (S h) j _) as [r e'].
      destruct IH as (Hr & Hmono & Hex & Hprobed).
      { intros Hjn Heq. rewrite (Hj Hjn Heq). done. }
      split_and!; [done| | |done].
      * intros ->. by apply Hmono.
      * intros He'. destruct (Hex He') as [He|?]; [|by right].
        apply orb_true_iff in He as [?|He]; [by left|].
        right. exists h. split; [lia|]. by destruct (bytes_compare (keys h) key).
  - assert (i = j) as -> by lia. split_and!; auto.
Qed.

Hypothesis Hasc : keys_ascending n keys.

(** With ascending keys: the index is the lower bound, and [exact] says
    whether the key stands there. *)
Lemma sort_Search_st_branch :
  let '(l, exact) := sort_Search_st n (branch_probe keys key) false in
  lower_bound n keys key l ∧
  (exact = true ↔ (l < n)%nat ∧ keys l = key).
Proof.
  unfold sort_Search_st.
  pose proof (search_loop_st_branch n 0 n false ltac:(lia) ltac:(lia) ltac:(lia)) as H.
  destruct (search_loop_st n (branch_probe keys key) 0 n false) as [l exact].
  destruct H as (Hl & _ & Hex & Hprobed).
  fold (sort_Search n (leaf_probe keys key)) in Hl.
  pose proof (sort_Search_lower_bound n keys key Hasc) as Hlb. rewrite <- Hl in Hlb.
  split; [done|]. split.
  - intros He. destruct (Hex He) as [?|(h & Hh & Heq)]; [done|].
    apply bytes_compare_eq in Heq. destruct Hlb as (Hln & Hlo & Hhi).
    destruct (Nat.lt_trichotomy h l) as [Hlt|[->|Hgt]]; [|done|]; exfalso.
    + specialize (Hlo h Hlt). rewrite Heq in Hlo. by apply key_lt_irrefl in Hlo.
    + specialize (Hhi l ltac:(lia)). apply key_le_iff in Hhi. apply Hhi.
      rewrite <- Heq. apply Hasc. lia.
  - intros [Hln Heq]. apply Hprobed; [done|]. rewrite Heq. apply bytes_compare_refl.
Qed.

(** The index that [searchNode] and [searchPage] store: the lower bound
    when the key stands there, else the index before it (0 at the left
    end); that is the rightmost index whose key is [≤ key]. *)
Lemma branch_index_spec :
  (0 < n)%nat →
  ∃ l : nat,
    lower_bound n keys key l ∧
    branch_index n keys key =
      (if decide ((l < n)%nat ∧ keys l = key) then Z.of_nat l
       else if (0 <? l)%nat then Z.of_nat l - 1 else Z.of_nat l) ∧
    0 ≤ branch_index n keys key < Z.of_nat n ∧
    ((∃ i, (i < n)%nat ∧ key_le (keys i) key) →
     key_le (keys (Z.to_nat (branch_index n keys key))) key ∧
     ∀ i, (Z.to_nat (branch_index n keys key) < i < n)%nat → key_lt key (keys i)) ∧
    ((∀ i, (i < n)%nat → key_lt key (keys i)) → branch_index n keys key = 0).
Proof.
  intros Hn. unfold branch_index. pose proof sort_Search_st_branch as H.
  destruct (sort_Search_st n (branch_probe keys key) false) as [l exact].
  destruct H as (Hlb & Hex). exists l. split; [done|].
  destruct Hlb as (Hln & Hlo & Hhi).
  destruct (decide ((l < n)%nat ∧ keys l = key)) as [[Hl Heq]|Hno].
  - rewrite (proj2 Hex) by done. simpl. split; [done|]. split; [lia|].
    rewrite Nat2Z.id. split.
    + intros _. split; [rewrite Heq; apply key_le_cases; by right|].
      intros i Hi. rewrite <- Heq. apply Hasc. lia.
    + intros Hall. specialize (Hall l Hl). rewrite Heq in Hall.
      by apply key_lt_irrefl in Hall.
  - assert (exact = false) as ->.
    { destruct exact; [|done]. by destruct Hno; apply Hex. }
    simpl. destruct (Nat.ltb_spec 0 l) as [Hpos|Hzero];
      destruct (Z.ltb_spec 0 (Z.of_nat l)) as [?|?]; try lia.
    + split; [done|]. split; [lia|].
      replace (Z.to_nat (Z.of_nat l - 1)) with (pred l) by lia. split.
      * intros _. split; [apply key_lt_le, Hlo; lia|].
        intros i Hi. pose proof (Hhi i ltac:(lia)) as Hle.
        apply key_le_cases in Hle as [?|Heq]; [done|].
        destruct (decide (i = l)) as [->|Hne]; [destruct Hno; split; [lia|done]|].
        eapply key_le_lt_trans; [apply (Hhi l); lia|]. apply Hasc. lia.
      * intros Hall. specialize (Hall (pred l) ltac:(lia)).
        specialize (Hlo (pred l) ltac:(lia)).
        destruct (key_lt_irrefl key). by eapply key_lt_trans.
    + assert (l = 0%nat) as -> by lia. split; [done|]. split; [lia|]. split; [|done].
      intros (i & Hi & Hle). exfalso. pose proof (Hhi i ltac:(lia)) as Hge.
      assert (keys i = key).
      { apply key_le_cases in Hle as [Hlt|?]; [|done].
        by apply key_le_iff in Hge. }
      destruct (decide (i = 0%nat)) as [->|Hne]; [by destruct Hno|].
      specialize (Hhi 0%nat ltac:(lia)). apply key_le_iff in Hhi. apply Hhi.
      subst key. apply Hasc. lia.
Qed.
End branch_search.

Lemma search_loop_st_ext {St} (n fuel : nat) (f g : nat → St → bool * St) (i j : nat) (s : St) :
  (∀ h s, (h < n)%nat → f h s = g h s) → (j ≤ n)%nat →
  search_loop_st fuel f i j s = search_loop_st fuel g i j s.
Proof.
  intros Hext. revert i j s. induction fuel as [|fuel IH]; intros i j s Hj; simpl; [done|].
  destruct (Nat.ltb_spec i j) as [Hlt|Hge]; [|done].
  pose proof (div2_between i j Hlt) as Hh.
  rewrite Hext by lia. destruct (g _ s) as [r s'].
  destruct (negb r); apply IH; lia.
Qed.

Lemma search_loop_ext (n fuel : nat) (f g : nat → bool) (i j : nat) :
  (∀ h, (h < n)%nat → f h = g h) → (j ≤ n)%nat →
  search_loop fuel f i j = search_loop fuel g i j.
Proof.
  intros Hext. revert i j. induction fuel as [|fuel IH]; intros i j Hj; simpl; [done|].
  destruct (Nat.ltb_spec i j) as [Hlt|Hge]; [|done].
  pose proof (div2_between i j Hlt) as Hh.
  rewrite Hext by lia. destruct (negb (g _)); apply IH; lia.
Qed.

Lemma branch_index_ext (n : nat) (keys keys' : nat → list byte) (key : list byte) :
  (∀ i, (i < n)%nat → keys i = keys' i) →
  branch_index n keys key = branch_index n keys' key.
Proof.
  intros Hext. unfold branch_index, sort_Search_st.
  rewrite (search_loop_st_ext n n (branch_probe keys key) (branch_probe keys' key)); [done| |done].
  intros h s Hh. unfold branch_probe. by rewrite Hext.
Qed.

Lemma sort_Search_leaf_ext (n : nat) (keys keys' : nat → list byte) (key : list byte) :
  (∀ i, (i < n)%nat → keys i = keys' i) →
  sort_Search n (leaf_probe keys key) = sort_Search n (leaf_probe keys' key).
Proof.
  intros Hext. unfold sort_Search. apply (search_loop_ext n); [|done].
  intros h Hh. unfold leaf_probe. by rewrite Hext.
Qed.

(** ** Frames of the cursor stack *)

Lemma stack_top_snoc (pre : list elemRef) (e : elemRef) :
  stack_top (pre ++ [e]) = Done e.
Proof. unfold stack_top. by rewrite last_snoc. Qed.

Lemma set_top_index_snoc (pre : list elemRef) (e : elemRef) (i : Z) :
  set_top_index (pre ++ [e]) i = pre ++ [with_index e i].
Proof.
  unfold set_top_index. rewrite length_app, Nat.add_1_r. simpl.
  by rewrite alter_app_r_alt, Nat.sub_diag by lia.
Qed.

Lemma at_index_lookup {A} (l : list A) (i : Z) (x : A) :
  0 ≤ i → l !! Z.to_nat i = Some x → at_index l i = Done x.
Proof.
  intros Hi Hx. unfold at_index. destruct (Z.ltb_spec i 0); [lia|]. by rewrite Hx.
Qed.

Lemma at_index_fmap {A B} (f : A → B) (l : list A) (i : Z) :
  at_index (f <$> l) i = (x ←← at_index l i ;; Done (f x)).
Proof.
  unfold at_index. destruct (i <? 0); [done|].
  rewrite list_lookup_fmap. by destruct (l !! Z.to_nat i).
Qed.

Section branch_frame.
Variable pn : option page * option node.
Variable cs : list (list byte * Z).
Hypothesis Hres : resolves_branch pn cs.

Lemma branch_isLeaf (i : Z) :
  elem_isLeaf {| e_page := pn.1; e_node := pn.2; e_index := i |} = Done false.
Proof.
  destruct pn as [p n], Hres as [_ H]. unfold elem_isLeaf. simpl in *.
  destruct n as [nd|]; [by destruct H as [-> _]|].
  destruct p as [pg|]; [|done]. destruct H as (-> & _). done.
Qed.

Lemma branch_count (i : Z) :
  elem_count {| e_page := pn.1; e_node := pn.2; e_index := i |} = Done (Z.of_nat (length cs)).
Proof.
  destruct pn as [p n], Hres as [_ H]. unfold elem_count. simpl in *.
  destruct n as [nd|]; [destruct H as [_ <-]; by rewrite length_fmap|].
  destruct p as [pg|]; [|done]. by destruct H as (_ & -> & _).
Qed.

Lemma branch_child_pgid (i : Z) (k : list byte) (id : Z) :
  0 ≤ i → cs !! Z.to_nat i = Some (k, id) →
  child_pgid {| e_page := pn.1; e_node := pn.2; e_index := i |} = Done id.
Proof.
  intros Hi Hc. destruct pn as [p n], Hres as [_ H]. unfold child_pgid. simpl in *.
  destruct n as [nd|].
  - destruct H as [_ <-]. rewrite list_lookup_fmap in Hc.
    destruct (n_inodes nd !! Z.to_nat i) as [x|] eqn:Hx; [|done].
    rewrite (at_index_lookup _ _ _ Hi Hx). simpl. by injection Hc as _ ->.
  - destruct p as [pg|]; [|done]. destruct H as (_ & Hcount & Hlt & <-).
    pose proof (lookup_lt_Some _ _ _ Hc) as Hlen. rewrite length_fmap in Hlen.
    rewrite length_fmap in Hcount.
    unfold branchPageElement_at. rewrite Z.mod_small by lia.
    rewrite list_lookup_fmap in Hc.
    destruct (branch_array pg !! Z.to_nat i) as [x|] eqn:Hx; [|done].
    rewrite (at_index_lookup _ _ _ Hi Hx). simpl. by injection Hc as _ ->.
Qed.
End branch_frame.

Section leaf_frame.
Variable pn : option page * option node.
Variable es : list leafPageElement.
Hypothesis Hres : resolves_leaf pn es.

Lemma leaf_isLeaf (i : Z) :
  elem_isLeaf {| e_page := pn.1; e_node := pn.2; e_index := i |} = Done true.
Proof.
  destruct pn as [p n], Hres as [_ H]. unfold elem_isLeaf. simpl in *.
  destruct n as [nd|]; [by destruct H as [-> _]|].
  destruct p as [pg|]; [|done]. destruct H as (H & _).
  by destruct (Z.eqb_spec (Z.land (p_flags pg) leafPageFlag) 0).
Qed.

Lemma leaf_count (i : Z) :
  elem_count {| e_page := pn.1; e_node := pn.2; e_index := i |} = Done (Z.of_nat (length es)).
Proof.
  destruct pn as [p n], Hres as [_ H]. unfold elem_count. simpl in *.
  destruct n as [nd|]; [destruct H as [_ <-]; by rewrite length_fmap|].
  destruct p as [pg|]; [|done]. by destruct H as (_ & -> & _).
Qed.

Lemma leaf_keyValue (pre : list elemRef) (i : Z) :
  0 ≤ i →
  keyValue (pre ++ [{| e_page := pn.1; e_node := pn.2; e_index := i |}]) =
    Done (match es !! Z.to_nat i with Some x => entry_kv x | None => kv_nil end).
Proof.
  intros Hi. unfold keyValue. rewrite stack_top_snoc. simpl.
  rewrite leaf_count. simpl.
  destruct (es !! Z.to_nat i) as [x|] eqn:Hx.
  - pose proof (lookup_lt_Some _ _ _ Hx) as Hlen.
    destruct (Z.eqb_spec (Z.of_nat (length es)) 0) as [?|_]; [lia|].
    destruct (Z.leb_spec (Z.of_nat (length es)) i) as [?|_]; [lia|]. simpl.
    destruct pn as [p n], Hres as [_ H]. simpl in *.
    destruct n as [nd|].
    + destruct H as [_ <-]. rewrite list_lookup_fmap in Hx.
      destruct (n_inodes nd !! Z.to_nat i) as [y|] eqn:Hy; [|done].
      rewrite (at_index_lookup _ _ _ Hi Hy). simpl. by injection Hx as <-.
    + destruct p as [pg|]; [|done]. destruct H as (_ & Hcount & Hlt & <-).
      unfold leafPageElement_at. rewrite Z.mod_small by lia.
      by rewrite (at_index_lookup _ _ _ Hi Hx).
  - apply lookup_ge_None in Hx.
    destruct (Z.eqb_spec (Z.of_nat (length es)) 0) as [?|_]; [done|].
    by destruct (Z.leb_spec (Z.of_nat (length es)) i) as [_|?]; [|lia].
Qed.
End leaf_frame.

(** ** One step of [search] *)

Lemma search_unfold (b : Bucket) (fuel : nat) (key : list byte) (pgid : Z)
    (stack : list elemRef) :
  search b (S fuel) key pgid stack =
    let '(p, n) := b_pageNode b pgid in
    if match p with
       | Some pg => Z.land (p_flags pg) (Z.lor branchPageFlag leafPageFlag) =? 0
       | None => false
       end
    then Panicked
    else
      let e := {| e_page := p; e_node := n; e_index := 0 |} in
      let stack := stack ++ [e] in
      leaf ←← elem_isLeaf e ;;
      if leaf then nsearch key stack
      else
        match n, p with
        | Some nd, _ => searchNode (search b fuel) key nd stack
        | None, Some pg => searchPage (search b fuel) key pg stack
        | None, None => Panicked
        end.
Proof. reflexivity. Qed.

Lemma flags_valid_test (p : option page) :
  flags_valid p →
  match p with
  | Some pg => Z.land (p_flags pg) (Z.lor branchPageFlag leafPageFlag) =? 0
  | None => false
  end = false.
Proof. destruct p as [pg|]; [|done]. simpl. intros H. by apply Z.eqb_neq. Qed.

(** [searchNode] and [searchPage] on a branch with the elements [cs]: the
    frame on top of the stack gets the branch index, and the search that
    they are given goes on in the child under it. *)
Lemma searchNode_frame (search' : list byte → Z → list elemRef → outcome (list elemRef))
    (key : list byte) (nd : node) (pre : list elemRef) (e : elemRef)
    (cs : list (list byte * Z)) :
  inode_child <$> n_inodes nd = cs →
  searchNode search' key nd (pre ++ [e]) =
    (let idx := branch_index (length cs) (branch_keys cs) key in
     child ←← at_index cs idx ;;
     search' key child.2 (pre ++ [with_index e idx])).
Proof.
  intros <-. unfold searchNode. rewrite stack_top_snoc. cbn [obind].
  rewrite set_top_index_snoc, length_fmap.
  rewrite (branch_index_ext _ (node_keys nd) (branch_keys (inode_child <$> n_inodes nd))).
  - rewrite at_index_fmap. by destruct (at_index (n_inodes nd) _).
  - intros i Hi. unfold node_keys, branch_keys.
    by rewrite (list_lookup_total_fmap inode_child) by done.
Qed.

Lemma searchPage_frame (search' : list byte → Z → list elemRef → outcome (list elemRef))
    (key : list byte) (pg : page) (pre : list elemRef) (e : elemRef)
    (cs : list (list byte * Z)) :
  p_count pg = Z.of_nat (length cs) → bpe_child <$> branch_array pg = cs →
  searchPage search' key pg (pre ++ [e]) =
    (let idx := branch_index (length cs) (branch_keys cs) key in
     child ←← at_index cs idx ;;
     search' key child.2 (pre ++ [with_index e idx])).
Proof.
  intros Hcount <-. unfold searchPage. rewrite stack_top_snoc. cbn [obind].
  rewrite set_top_index_snoc, Hcount, Nat2Z.id.
  assert (Harr : branchPageElements pg = branch_array pg).
  { unfold branchPageElements. destruct (Z.eqb_spec (p_count pg) 0) as [H0|]; [|done].
    rewrite length_fmap in Hcount. symmetry. apply nil_length_inv. lia. }
  rewrite (branch_index_ext _ (branch_page_keys pg) (branch_keys (bpe_child <$> branch_array pg))).
  - rewrite at_index_fmap, Harr. by destruct (at_index (branch_array pg) _).
  - intros i Hi. unfold branch_page_keys, branch_keys. rewrite Harr.
    rewrite length_fmap in Hi. by rewrite (list_lookup_total_fmap bpe_child) by done.
Qed.

(** [search] on a branch: the new frame gets the branch index and [search]
    goes on in the child under it. *)
Lemma search_branch (b : Bucket) (fuel : nat) (key : list byte) (pgid : Z)
    (stack : list elemRef) (cs : list (list byte * Z)) :
  resolves_branch (b_pageNode b pgid) cs →
  search b (S fuel) key pgid stack =
    (let idx := branch_index (length cs) (branch_keys cs) key in
     child ←← at_index cs idx ;;
     search b fuel key child.2 (stack ++ [frame b pgid idx])).
Proof.
  intros Hres. rewrite search_unfold. unfold frame.
  pose proof (branch_isLeaf _ _ Hres 0) as Hleaf.
  destruct (b_pageNode b pgid) as [p n]. destruct Hres as [Hflags H].
  rewrite (flags_valid_test p Hflags). cbv zeta. simpl in Hleaf, H |- *. rewrite Hleaf. simpl.
  destruct n as [nd|].
  - destruct H as [_ Hcs]. by rewrite (searchNode_frame _ key nd stack _ cs Hcs).
  - destruct p as [pg|]; [|done]. destruct H as (_ & Hcount & Hlt & Hcs).
    by rewrite (searchPage_frame _ key pg stack _ cs Hcount Hcs).
Qed.

(** [nsearch] on a leaf: the frame gets the lower bound of the key. *)
Lemma search_leaf (b : Bucket) (fuel : nat) (key : list byte) (pgid : Z)
    (stack : list elemRef) (es : list leafPageElement) :
  resolves_leaf (b_pageNode b pgid) es →
  search b (S fuel) key pgid stack =
    Done (stack ++ [frame b pgid
                      (Z.of_nat (sort_Search (length es) (leaf_probe (entry_keys es) key)))]).
Proof.
  intros Hres. rewrite search_unfold. unfold frame.
  pose proof (leaf_isLeaf _ _ Hres 0) as Hleaf.
  destruct (b_pageNode b pgid) as [p n]. destruct Hres as [Hflags H].
  rewrite (flags_valid_test p Hflags). cbv zeta. simpl in Hleaf, H |- *. rewrite Hleaf. simpl.
  unfold nsearch. rewrite stack_top_snoc. simpl.
  destruct n as [nd|].
  - destruct H as [_ <-]. rewrite set_top_index_snoc, length_fmap.
    rewrite (sort_Search_leaf_ext _ (node_keys nd) (entry_keys (inode_entry <$> n_inodes nd))); [done|].
    intros i Hi. unfold node_keys, entry_keys.
    by rewrite (list_lookup_total_fmap inode_entry) by done.
  - destruct p as [pg|]; [|done]. destruct H as (_ & Hcount & Hlt & <-).
    rewrite set_top_index_snoc, Hcount, Nat2Z.id.
    assert (Harr : leafPageElements pg = leaf_array pg).
    { unfold leafPageElements. destruct (Z.eqb_spec (p_count pg) 0) as [H0|]; [|done].
      symmetry. apply nil_length_inv. lia. }
    rewrite (sort_Search_leaf_ext _ (leaf_page_keys pg) (entry_keys (leaf_array pg))); [done|].
    intros i Hi. unfold leaf_page_keys, entry_keys. by rewrite Harr.
Qed.

(** Whatever [search] returns has the stack it started with, then the
    frame of the page it was called on. *)
Lemma search_extends (b : Bucket) (fuel : nat) (key : list byte) (pgid : Z)
    (stack st' : list elemRef) :
  search b fuel key pgid stack = Done st' →
  ∃ i rest, st' = stack ++ frame b pgid i :: rest.
Proof.
  revert pgid stack. induction fuel as [|fuel IH]; intros pgid stack; [done|].
  rewrite search_unfold. unfold frame.
  destruct (b_pageNode b pgid) as [p n]. cbn [fst snd].
  destruct (match p with Some _ => _ | None => _ end); [done|]. cbv zeta.
  destruct (elem_isLeaf _) as [[|]| |]; cbn [obind]; [| |done..].
  - unfold nsearch. rewrite stack_top_snoc. cbn [obind e_node e_page].
    destruct n as [nd|]; [|destruct p as [pg|]; [|done]];
      rewrite set_top_index_snoc; intros [= <-]; by eexists _, [].
  - destruct n as [nd|]; [|destruct p as [pg|]; [|done]].
    + unfold searchNode. rewrite stack_top_snoc. cbn [obind]. rewrite set_top_index_snoc.
      destruct (at_index (n_inodes nd) _) as [c| |]; cbn [obind]; [|done..].
      intros (i & rest & ->)%IH. eexists _, (frame b (i_pgid c) i :: rest).
      by rewrite <- app_assoc.
    + unfold searchPage. rewrite stack_top_snoc. cbn [obind]. rewrite set_top_index_snoc.
      destruct (at_index (branchPageElements pg) _) as [c| |]; cbn [obind]; [|done..].
      intros (i & rest & ->)%IH. eexists _, (frame b (bpe_pgid c) i :: rest).
      by rewrite <- app_assoc.
Qed.

(** C5. On a branch (a node, or a page without a node) with strictly
    ascending keys, [searchNode] and [searchPage] store in the frame on top
    of the stack the leftmost index whose key is [≥ key], stepped back by
    one when the key does not stand there and the index is above 0; that is
    the rightmost index whose key is [≤ key] (0 when every key is above
    [key]); and they go on with the search in the child page under that
    index, so that [search] returns a stack with this branch's frame at that
    index, followed by the frame of that child. *)
Theorem branch_search_rightmost_le (b : Bucket) (fuel : nat) (key : list byte)
    (pgid : Z) (stack : list elemRef) (cs : list (list byte * Z)) :
  resolves_branch (b_pageNode b pgid) cs → cs ≠ [] →
  keys_ascending (length cs) (branch_keys cs) →
  let idx := branch_index (length cs) (branch_keys cs) key in
  (∃ l : nat,
     lower_bound (length cs) (branch_keys cs) key l ∧
     idx = if decide ((l < length cs)%nat ∧ branch_keys cs l = key) then Z.of_nat l
           else if (0 <? l)%nat then Z.of_nat l - 1 else Z.of_nat l) ∧
  (∃ k child,
     0 ≤ idx ∧ cs !! Z.to_nat idx = Some (k, child) ∧
     (∀ nd search' pre e,
        (b_pageNode b pgid).2 = Some nd →
        searchNode search' key nd (pre ++ [e]) =
          search' key child (pre ++ [with_index e idx])) ∧
     (∀ pg search' pre e,
        b_pageNode b pgid = (Some pg, None) →
        searchPage search' key pg (pre ++ [e]) =
          search' key child (pre ++ [with_index e idx])) ∧
     search b (S fuel) key pgid stack =
       search b fuel key child (stack ++ [frame b pgid idx]) ∧
     (∀ st', search b (S fuel) key pgid stack = Done st' →
             ∃ i rest, st' = stack ++ frame b pgid idx :: frame b child i :: rest)) ∧
  ((∃ i, (i < length cs)%nat ∧ key_le (branch_keys cs i) key) →
   key_le (branch_keys cs (Z.to_nat idx)) key ∧
   ∀ i, (Z.to_nat idx < i < length cs)%nat → key_lt key (branch_keys cs i)) ∧
  ((∀ i, (i < length cs)%nat → key_lt key (branch_keys cs i)) → idx = 0).
Proof.
  intros Hres Hne Hasc idx.
  assert (Hn : (0 < length cs)%nat) by (destruct cs; [done|simpl; lia]).
  destruct (branch_index_spec (length cs) (branch_keys cs) key Hasc Hn)
    as (l & Hlb & Hidx & Hrange & Hright & Hzero).
  fold idx in Hidx, Hrange, Hright, Hzero.
  split; [by exists l|]. split; [|by split].
  destruct (lookup_lt_is_Some_2 cs (Z.to_nat idx)) as [[k child] Hc]; [lia|].
  assert (Hat : at_index cs idx = Done (k, child)) by (apply at_index_lookup; [lia|done]).
  assert (Hstep : search b (S fuel) key pgid stack =
                    search b fuel key child (stack ++ [frame b pgid idx])).
  { rewrite (search_branch b fuel key pgid stack cs Hres). cbv zeta. fold idx.
    by rewrite Hat. }
  exists k, child. split; [lia|]. split; [done|]. split_and!.
  - intros nd search' pre e Hnd. destruct Hres as [_ H]. rewrite Hnd in H.
    destruct H as [_ Hcs]. rewrite (searchNode_frame search' key nd pre e cs Hcs).
    cbv zeta. fold idx. by rewrite Hat.
  - intros pg search' pre e Hpg. destruct Hres as [_ H]. rewrite Hpg in H.
    destruct H as (_ & Hcount & _ & Hcs).
    rewrite (searchPage_frame search' key pg pre e cs Hcount Hcs).
    cbv zeta. fold idx. by rewrite Hat.
  - done.
  - intros st'. rewrite Hstep. intros (i & rest & ->)%search_extends.
    exists i, rest. by rewrite <- app_assoc.
Qed.

Lemma branch_search_rightmost_le_witness :
  branch_index 2 (branch_keys [([x61], 4); ([x63], 5)]) [x62] = 0 ∧
  search bucket_s6 3 [x62] 3 [] =
    search bucket_s6 2 [x62] 4 [frame bucket_s6 3 0] ∧
  ∃ i rest, search bucket_s6 3 [x62] 3 [] =
              Done (frame bucket_s6 3 0 :: frame bucket_s6 4 i :: rest).
Proof.
  destruct (branch_search_rightmost_le bucket_s6 2 [x62] 3 [] [([x61], 4); ([x63], 5)])
    as (_ & (k & child & _ & Hc & _ & _ & Hs & Hst) & _ & _).
  - split; [by vm_compute|]. by vm_compute.
  - done.
  - intros i j Hij. assert (i = 0%nat ∧ j = 1%nat) as [-> ->] by (simpl in Hij; lia).
    by vm_compute.
  - assert (Hidx : branch_index (length [([x61], 4); ([x63], 5)])
                     (branch_keys [([x61], 4); ([x63], 5)]) [x62] = 0) by (by vm_compute).
    rewrite Hidx in Hc, Hs, Hst. simpl in Hc. injection Hc as <- <-.
    split; [by vm_compute|]. split; [exact Hs|]. clear Hs.
    destruct (search bucket_s6 3 [x62] 3 []) as [st'| |] eqn:Hsearch;
      [|by vm_compute in Hsearch..].
    destruct (Hst st' eq_refl) as (i & rest & ->). by exists i, rest.
Defined.

(** Scenario S6: the search for "b" descends through index 0 of the branch
    into the left leaf and stops at index 1 there. *)
Example search_s6 :
  search bucket_s6 3 [x62] 3 [] = Done [frame bucket_s6 3 0; frame bucket_s6 4 1].
Proof. by vm_compute. Qed.

(** ** Trees *)

Lemma tree_ind' (P : tree → Prop) :
  (∀ id es, P (TLeaf id es)) →
  (∀ id cs, Forall (λ c, P c.2) cs → P (TBranch id cs)) →
  ∀ t, P t.
Proof.
  intros Hleaf Hbranch. fix IH 1. intros [id es|id cs]; [apply Hleaf|].
  apply Hbranch. revert cs. fix IHcs 1. intros [|[k c] cs].
  - constructor.
  - constructor; [apply IH|apply IHcs].
Qed.

Lemma entries_branch (id : Z) (cs : list (list byte * tree)) :
  entries (TBranch id cs) = children_entries cs.
Proof.
  unfold children_entries. simpl. induction cs as [|c cs IH]; simpl; [done|].
  by rewrite IH.
Qed.

Lemma leaves_branch (id : Z) (cs : list (list byte * tree)) :
  leaves (TBranch id cs) = children_leaves cs.
Proof.
  unfold children_leaves. simpl. induction cs as [|c cs IH]; simpl; [done|].
  by rewrite IH.
Qed.

Lemma height_child (id : Z) (cs : list (list byte * tree)) (i : nat) (c : list byte * tree) :
  cs !! i = Some c → (height c.2 < height (TBranch id cs))%nat.
Proof.
  simpl. revert i. induction cs as [|c' cs IH]; intros i Hc; [done|].
  destruct i as [|i]; simpl in Hc.
  - injection Hc as ->. lia.
  - specialize (IH i Hc). lia.
Qed.

Lemma children_entries_cons (c : list byte * tree) (cs : list (list byte * tree)) :
  children_entries (c :: cs) = entries c.2 ++ children_entries cs.
Proof. done. Qed.

Lemma children_entries_app (cs1 cs2 : list (list byte * tree)) :
  children_entries (cs1 ++ cs2) = children_entries cs1 ++ children_entries cs2.
Proof. unfold children_entries. by rewrite fmap_app, concat_app. Qed.

Lemma children_leaves_app (cs1 cs2 : list (list byte * tree)) :
  children_leaves (cs1 ++ cs2) = (children_leaves cs1 + children_leaves cs2)%nat.
Proof.
  unfold children_leaves. induction cs1 as [|c cs1 IH]; simpl; [done|]. rewrite IH. lia.
Qed.

(** A tree cut at child [i]. *)
Lemma children_split (cs : list (list byte * tree)) (i : nat) (c : list byte * tree) :
  cs !! i = Some c → cs = take i cs ++ c :: drop (S i) cs.
Proof. intros H. by rewrite take_drop_middle. Qed.

Section represented.
Variable b : Bucket.

Lemma represents_child (id : Z) (cs : list (list byte * tree)) (i : nat)
    (c : list byte * tree) :
  represents b (TBranch id cs) → cs !! i = Some c → represents b c.2.
Proof.
  intros Hrep Hc. inversion Hrep as [|id' cs' _ _ Hall]; subst.
  rewrite Forall_lookup in Hall. exact (Hall i c Hc).
Qed.

Lemma represents_branch (id : Z) (cs : list (list byte * tree)) :
  represents b (TBranch id cs) →
  resolves_branch (b_pageNode b id) (child_view <$> cs) ∧ cs ≠ [].
Proof. intros Hrep. by inversion Hrep. Qed.

Lemma represents_leaf (id : Z) (es : list leafPageElement) :
  represents b (TLeaf id es) → resolves_leaf (b_pageNode b id) es.
Proof. intros Hrep. by inversion Hrep. Qed.

Lemma leaves_pos (t : tree) : represents b t → (0 < leaves t)%nat.
Proof.
  induction t as [id es|id cs IH] using tree_ind'; intros Hrep; [simpl; lia|].
  destruct (represents_branch _ _ Hrep) as [_ Hne].
  rewrite leaves_branch. destruct cs as [|c cs]; [done|].
  apply Forall_cons in IH as [IHc _].
  specialize (IHc (represents_child id (c :: cs) 0 c Hrep eq_refl)).
  unfold children_leaves. simpl. lia.
Qed.

Lemma frame_count (t : tree) (i : Z) :
  represents b t → elem_count (frame b (root_id t) i) = Done (node_count t).
Proof.
  intros Hrep. destruct t as [id es|id cs]; simpl.
  - apply (leaf_count _ _ (represents_leaf _ _ Hrep)).
  - destruct (represents_branch _ _ Hrep) as [Hres _].
    unfold frame. rewrite (branch_count _ _ Hres). by rewrite length_fmap.
Qed.

Lemma frame_child (id : Z) (cs : list (list byte * tree)) (i : Z) (c : list byte * tree) :
  represents b (TBranch id cs) → 0 ≤ i → cs !! Z.to_nat i = Some c →
  child_pgid (frame b id i) = Done (root_id c.2).
Proof.
  intros Hrep Hi Hc. destruct (represents_branch _ _ Hrep) as [Hres _].
  apply (branch_child_pgid _ _ Hres i c.1); [done|].
  by rewrite list_lookup_fmap, Hc.
Qed.

Lemma first_unfold (fuel : nat) (stack : list elemRef) :
  first b (S fuel) stack =
    (ref ←← stack_top stack ;;
     leaf ←← elem_isLeaf ref ;;
     if leaf then Done stack
     else
       pgid ←← child_pgid ref ;;
       first b fuel (stack ++ [frame b pgid 0])).
Proof.
  simpl. destruct (stack_top stack) as [ref| |]; [|done..]. simpl.
  destruct (elem_isLeaf ref) as [[|]| |]; [done| |done..]. simpl.
  destruct (child_pgid ref) as [pgid| |]; [|done..]. simpl.
  unfold frame. by destruct (b_pageNode b pgid).
Qed.

(** [first] from the root frame of a subtree goes down its leftmost path. *)
Lemma first_leftmost (t : tree) (fuel : nat) (pre : list elemRef) :
  represents b t → (height t < fuel)%nat →
  first b fuel (pre ++ [frame b (root_id t) 0]) = Done (pre ++ leftmost b t).
Proof.
  revert fuel pre. induction t as [id es|id cs IH] using tree_ind'; intros fuel pre Hrep Hfuel.
  - destruct fuel as [|fuel]; [lia|]. rewrite first_unfold, stack_top_snoc. simpl.
    unfold frame. by rewrite (leaf_isLeaf _ _ (represents_leaf _ _ Hrep)).
  - destruct fuel as [|fuel]; [lia|]. rewrite first_unfold, stack_top_snoc. cbn [obind].
    destruct (represents_branch _ _ Hrep) as [Hres Hne].
    destruct cs as [|c cs]; [done|].
    cbn [root_id]. unfold frame at 1. rewrite (branch_isLeaf _ _ Hres). cbn [obind].
    fold (frame b id 0).
    rewrite (frame_child id (c :: cs) 0 c Hrep) by done. cbn [obind].
    apply Forall_cons in IH as [IHc _].
    rewrite <- app_assoc. cbn [app].
    replace (pre ++ frame b id 0 :: [frame b (root_id c.2) 0])
      with ((pre ++ [frame b id 0]) ++ [frame b (root_id c.2) 0])
      by (by rewrite <- app_assoc).
    rewrite IHc.
    + by rewrite <- app_assoc.
    + by apply (represents_child id (c :: cs) 0 c).
    + pose proof (height_child id (c :: cs) 0 c eq_refl). lia.
Qed.

(** [first] from a frame somewhere in a node: nothing to do on a leaf, the
    leftmost path of the child under the index on a branch. *)
Lemma first_from (t : tree) (i : Z) (fuel : nat) (pre : list elemRef) :
  represents b t → (height t < fuel)%nat → 0 ≤ i →
  match t with
  | TLeaf _ _ => True
  | TBranch _ cs => is_Some (cs !! Z.to_nat i)
  end →
  first b fuel (pre ++ [frame b (root_id t) i]) =
    Done (pre ++ frame b (root_id t) i ::
          match t with
          | TLeaf _ _ => []
          | TBranch _ cs =>
              match cs !! Z.to_nat i with
              | Some c => leftmost b c.2
              | None => []
              end
          end).
Proof.
  intros Hrep Hfuel Hi Hc. destruct fuel as [|fuel]; [lia|].
  rewrite first_unfold, stack_top_snoc. cbn [obind].
  destruct t as [id es|id cs].
  - simpl. unfold frame. by rewrite (leaf_isLeaf _ _ (represents_leaf _ _ Hrep)).
  - destruct Hc as [c Hc]. rewrite Hc.
    destruct (represents_branch _ _ Hrep) as [Hres Hne].
    cbn [root_id]. unfold frame at 1. rewrite (branch_isLeaf _ _ Hres). cbn [obind].
    fold (frame b id i).
    rewrite (frame_child id cs i c Hrep) by done. cbn [obind].
    rewrite first_leftmost.
    + by rewrite <- app_assoc.
    + by apply (represents_child id cs (Z.to_nat i) c).
    + pose proof (height_child id cs _ c Hc). lia.
Qed.
End represented.

(** ** One round of [next] *)

Lemma scan_first_step (b : Bucket) (fuel : nat) (stack : list elemRef) (i : nat)
    (e : elemRef) (c : Z) :
  stack !! i = Some e → elem_count e = Done c →
  scan_first b fuel stack (S i) =
    if e_index e <? c - 1
    then s' ←← first b fuel (take (S i) (<[i := with_index e (e_index e + 1)]> stack)) ;;
         Done (Some s')
    else scan_first b fuel stack i.
Proof.
  intros He Hc. unfold scan_first. simpl. rewrite He, Hc. simpl.
  by destruct (e_index e <? c - 1).
Qed.

Lemma with_index_frame (b : Bucket) (id i j : Z) :
  with_index (frame b id i) j = frame b id j.
Proof. done. Qed.

Section rounds.
Variable b : Bucket.

Lemma cursor_in_cons (t : tree) (e : elemRef) (rest : list elemRef) :
  cursor_in b t (e :: rest) →
  e = frame b (root_id t) (e_index e) ∧ 0 ≤ e_index e.
Proof. simpl. tauto. Qed.

(** The scan of [next] over the part of the stack that is a cursor in [t],
    then [first]: one [round], or the scan goes on in the frames above. *)
Lemma scan_first_round (st : list elemRef) (t : tree) (pre : list elemRef) (fuel : nat) :
  represents b t → cursor_in b t st → (height t < fuel)%nat →
  scan_first b fuel (pre ++ st) (length pre + length st) =
    match round b t st with
    | Some st' => Done (Some (pre ++ st'))
    | None => scan_first b fuel (pre ++ st) (length pre)
    end.
Proof.
  revert t pre. induction st as [|e rest IH]; intros t pre Hrep Hcur Hfuel; [done|].
  destruct (cursor_in_cons _ _ _ Hcur) as [He Hidx].
  assert (Hw : with_index e (e_index e + 1) = frame b (root_id t) (e_index e + 1)).
  { rewrite He at 1. done. }
  assert (Hstep : scan_first b fuel (pre ++ e :: rest) (S (length pre)) =
            if e_index e <? node_count t - 1
            then s' ←← first b fuel (pre ++ [frame b (root_id t) (e_index e + 1)]) ;;
                 Done (Some s')
            else scan_first b fuel (pre ++ e :: rest) (length pre)).
  { rewrite (scan_first_step b fuel _ (length pre) e (node_count t)).
    - rewrite insert_app_r_alt, Nat.sub_diag by lia. simpl.
      assert (Htake : take (S (length pre)) (pre ++ with_index e (e_index e + 1) :: rest)
                      = pre ++ [frame b (root_id t) (e_index e + 1)]).
      { replace (pre ++ with_index e (e_index e + 1) :: rest)
          with ((pre ++ [with_index e (e_index e + 1)]) ++ rest) by (by rewrite <- app_assoc).
        rewrite take_app_length' by (rewrite length_app; simpl; lia).
        by rewrite Hw. }
      by rewrite Htake.
    - by apply list_lookup_middle.
    - rewrite He. by apply frame_count. }
  destruct t as [id es|id cs]; simpl in Hcur |- *.
  - destruct Hcur as (_ & _ & ->). simpl length. rewrite Nat.add_1_r, Hstep. simpl node_count.
    destruct (e_index e <? Z.of_nat (length es) - 1); [|done].
    rewrite (first_from b (TLeaf id es)) by (done || lia). by rewrite Hw.
  - destruct Hcur as (_ & _ & Hcur).
    destruct (cs !! Z.to_nat (e_index e)) as [c|] eqn:Hc; [|done].
    replace (pre ++ e :: rest) with ((pre ++ [e]) ++ rest) by (by rewrite <- app_assoc).
    replace (length pre + S (length rest))%nat
      with (length (pre ++ [e]) + length rest)%nat by (rewrite length_app; simpl; lia).
    rewrite (IH c.2 (pre ++ [e])); [|by eapply represents_child|done|].
    2:{ pose proof (height_child id cs _ c Hc). lia. }
    destruct (round b c.2 rest) as [rest'|]; [by rewrite <- app_assoc|].
    rewrite length_app, Nat.add_1_r. rewrite <- !app_assoc. cbn [app].
    rewrite Hstep. simpl node_count.
    destruct (Z.ltb_spec (e_index e) (Z.of_nat (length cs) - 1)) as [Hlt|Hge]; [|done].
    rewrite (first_from b (TBranch id cs)); [| done | done | lia |].
    + by rewrite Hw.
    + apply lookup_lt_is_Some_2. lia.
Qed.
End rounds.

Section cursor_facts.
Variable b : Bucket.

(** The top of a cursor is a frame on the leaf it is in. *)
Lemma cursor_top (st : list elemRef) (t : tree) :
  represents b t → cursor_in b t st →
  ∃ pre id i,
    st = pre ++ [frame b id i] ∧ 0 ≤ i ∧
    resolves_leaf (b_pageNode b id) (leaf_of t st) ∧
    here t st = leaf_of t st !! Z.to_nat i.
Proof.
  revert t. induction st as [|e rest IH]; intros t Hrep Hcur; [done|].
  destruct (cursor_in_cons b _ _ _ Hcur) as [He Hidx].
  destruct t as [id es|id cs]; simpl in Hcur |- *.
  - destruct Hcur as (_ & _ & ->). exists [], id, (e_index e).
    split_and!; [by rewrite He at 1|done|by apply represents_leaf|done].
  - destruct Hcur as (_ & _ & Hcur).
    destruct (cs !! Z.to_nat (e_index e)) as [c|] eqn:Hc; [|done].
    destruct (IH c.2 (represents_child b _ _ _ _ Hrep Hc) Hcur)
      as (pre & id' & i & -> & Hi & Hres & Hhere).
    by exists (e :: pre), id', i.
Qed.

Lemma cursor_stack_top (st : list elemRef) (t : tree) :
  represents b t → cursor_in b t st →
  ∃ top, stack_top st = Done top ∧
         elem_count top = Done (Z.of_nat (length (leaf_of t st))) ∧
         0 ≤ e_index top ∧
         here t st = leaf_of t st !! Z.to_nat (e_index top).
Proof.
  intros Hrep Hcur.
  destruct (cursor_top st t Hrep Hcur) as (pre & id & i & Hst & Hi & Hres & Hhere).
  exists (frame b id i). rewrite Hst at 1. rewrite stack_top_snoc.
  split_and!; [done| |done|done]. apply (leaf_count _ _ Hres).
Qed.

Lemma cursor_keyValue (st : list elemRef) (t : tree) :
  represents b t → cursor_in b t st →
  keyValue st = Done (match here t st with Some x => entry_kv x | None => kv_nil end).
Proof.
  intros Hrep Hcur.
  destruct (cursor_top st t Hrep Hcur) as (pre & id & i & Hst & Hi & Hres & Hhere).
  rewrite Hst at 1. unfold frame. rewrite (leaf_keyValue _ _ Hres pre i Hi).
  by rewrite Hhere.
Qed.

(** The leftmost path of a tree: a cursor with everything to its right. *)
Lemma leftmost_props (t : tree) :
  represents b t →
  cursor_in b t (leftmost b t) ∧
  option_list (here t (leftmost b t)) ++ after t (leftmost b t) = entries t ∧
  here t (leftmost b t) = leaf_of t (leftmost b t) !! 0%nat ∧
  S (right_leaves t (leftmost b t)) = leaves t.
Proof.
  induction t as [id es|id cs IH] using tree_ind'; intros Hrep.
  - simpl. split_and!; [done|lia|done| |done|done].
    destruct es as [|x es]; [done|]. simpl. by rewrite drop_0.
  - destruct (represents_branch b _ _ Hrep) as [_ Hne].
    destruct cs as [|c cs]; [done|]. apply Forall_cons in IH as [IHc _].
    destruct (IHc (represents_child b id (c :: cs) 0 c Hrep eq_refl))
      as (Hcur & Hent & Hhere & Hleaves).
    rewrite entries_branch, leaves_branch. simpl. split_and!; [done|lia|done| |done|].
    + rewrite app_assoc, Hent. by rewrite drop_0.
    + rewrite drop_0. unfold children_leaves in *. simpl. lia.
Qed.
End cursor_facts.

Section round_facts.
Variable b : Bucket.

(** What a round does to a cursor: it stays a cursor; the element it lands
    on, if any, is the first of those that were to the right; when it lands
    on no element it is in an empty leaf, with fewer leaves to its right.
    When no frame can move, nothing was to the right. *)
Lemma round_props (st : list elemRef) (t : tree) :
  represents b t → cursor_in b t st →
  match round b t st with
  | Some st' =>
      cursor_in b t st' ∧
      option_list (here t st') ++ after t st' = after t st ∧
      (here t st' = None →
       leaf_of t st' = [] ∧ (right_leaves t st' < right_leaves t st)%nat)
  | None => after t st = []
  end.
Proof.
  revert t. induction st as [|e rest IH]; intros t Hrep Hcur; [done|].
  destruct (cursor_in_cons b _ _ _ Hcur) as [He Hidx].
  assert (Hw : with_index e (e_index e + 1) = frame b (root_id t) (e_index e + 1)).
  { rewrite He at 1. done. }
  assert (Hnext : Z.to_nat (e_index e + 1) = S (Z.to_nat (e_index e))) by lia.
  destruct t as [id es|id cs]; cbn [cursor_in round after here leaf_of right_leaves] in *.
  - destruct Hcur as (_ & _ & ->).
    destruct (Z.ltb_spec (e_index e) (Z.of_nat (length es) - 1)) as [Hlt|Hge].
    + destruct (lookup_lt_is_Some_2 es (S (Z.to_nat (e_index e)))) as [x Hx]; [lia|].
      cbn [cursor_in after here leaf_of right_leaves]. rewrite Hw. cbn [e_index frame root_id].
      rewrite Hnext, Hx. split_and!; [done|lia|done| |done].
      simpl. by rewrite <- (drop_S _ _ _ Hx).
    + apply drop_ge. lia.
  - destruct Hcur as (_ & _ & Hcur).
    destruct (cs !! Z.to_nat (e_index e)) as [c|] eqn:Hc; [|done].
    specialize (IH c.2 (represents_child b _ _ _ _ Hrep Hc) Hcur).
    destruct (round b c.2 rest) as [rest'|].
    + destruct IH as (Hcur' & Hent & Hnone).
      cbn [cursor_in after here leaf_of right_leaves]. rewrite Hc.
      split_and!; [done..| |].
      * by rewrite app_assoc, Hent.
      * intros Hh. destruct (Hnone Hh) as [? ?]. split; [done|lia].
    + destruct (Z.ltb_spec (e_index e) (Z.of_nat (length cs) - 1)) as [Hlt|Hge].
      * destruct (lookup_lt_is_Some_2 cs (S (Z.to_nat (e_index e)))) as [c' Hc']; [lia|].
        rewrite Hnext, Hc'.
        destruct (leftmost_props b c'.2 (represents_child b _ _ _ _ Hrep Hc'))
          as (Hcur' & Hent & Hhere & Hleaves).
        cbn [cursor_in after here leaf_of right_leaves]. rewrite Hw.
        cbn [e_index frame root_id]. rewrite Hnext, Hc', IH.
        rewrite (drop_S _ _ _ Hc'). rewrite children_entries_cons.
        split_and!; [done|lia|done| |].
        -- by rewrite app_assoc, Hent.
        -- intros Hh. rewrite Hh in Hhere. split.
           ++ symmetry in Hhere. apply lookup_ge_None in Hhere.
              apply nil_length_inv. lia.
           ++ unfold children_leaves. simpl. fold (children_leaves (drop (S (S (Z.to_nat (e_index e)))) cs)). lia.
      * rewrite IH. simpl. unfold children_entries. rewrite drop_ge by lia. done.
Qed.
End round_facts.

(** ** [next] *)

Section next_facts.
Variable b : Bucket.

Lemma next_unfold (fuel : nat) (stack : list elemRef) :
  next b (S fuel) stack =
    (r ←← scan_first b (S fuel) stack (length stack) ;;
     match r with
     | None => Done (stack, kv_nil)
     | Some stack' =>
         top ←← stack_top stack' ;;
         count ←← elem_count top ;;
         if count =? 0 then next b fuel stack'
         else r ←← keyValue stack' ;; Done (stack', r)
     end).
Proof.
  unfold scan_first. cbn [next].
  destruct (next_scan stack (length stack)) as [[[i s]|]| |]; [|done..].
  cbn [obind]. by destruct (first b (S fuel) (take (S i) s)).
Qed.

(** [next] on a cursor returns the first element to its right and leaves
    the cursor on it; when there is none it returns nil, and the cursor is
    where it was or in an empty leaf. *)
Lemma next_spec (fuel : nat) (st : list elemRef) (t : tree) :
  represents b t → cursor_in b t st →
  (height t + right_leaves t st < fuel)%nat →
  ∃ st' r,
    next b fuel st = Done (st', r) ∧ cursor_in b t st' ∧
    match after t st with
    | [] => r = kv_nil ∧ after t st' = [] ∧
            (st' = st ∨ (here t st' = None ∧ leaf_of t st' = []))
    | x :: A => r = entry_kv x ∧ here t st' = Some x ∧ after t st' = A
    end.
Proof.
  intros Hrep. revert st. induction fuel as [|fuel IH]; intros st Hcur Hfuel; [lia|].
  rewrite next_unfold.
  pose proof (scan_first_round b st t [] (S fuel) Hrep Hcur ltac:(lia)) as Hscan.
  simpl in Hscan. rewrite Hscan.
  pose proof (round_props b st t Hrep Hcur) as Hround.
  destruct (round b t st) as [st1|].
  - destruct Hround as (Hcur1 & Hent & Hnone). cbn [obind].
    destruct (cursor_stack_top b st1 t Hrep Hcur1) as (top & Htop & Hcount & Hidx & Hhere).
    rewrite Htop. cbn [obind]. rewrite Hcount. cbn [obind].
    destruct (Z.eqb_spec (Z.of_nat (length (leaf_of t st1))) 0) as [Hzero|Hpos].
    + assert (Hh : here t st1 = None).
      { rewrite Hhere. apply lookup_ge_None. lia. }
      destruct (Hnone Hh) as [Hnil Hless]. rewrite Hh in Hent. simpl in Hent.
      destruct (IH st1 Hcur1 ltac:(lia)) as (st' & r & Hnext & Hcur' & Hres).
      exists st', r. split_and!; [done..|]. rewrite <- Hent.
      destruct (after t st1) as [|x A]; [|done].
      destruct Hres as (-> & Hafter & [-> | Hh']); split_and!; auto.
    + destruct (here t st1) as [x|] eqn:Hh.
      * rewrite (cursor_keyValue b st1 t Hrep Hcur1), Hh. cbn [obind].
        exists st1, (entry_kv x). split_and!; [done..|].
        rewrite <- Hent. simpl. by rewrite Hh.
      * destruct (Hnone eq_refl) as [Hnil _]. rewrite Hnil in Hpos. done.
  - simpl. unfold scan_first. simpl. exists st, kv_nil. split_and!; [done..|].
    rewrite Hround. auto.
Qed.
End next_facts.

Lemma hide_bucket_value_entry (x : leafPageElement) :
  hide_bucket_value (entry_kv x) = returned (Some x).
Proof.
  unfold hide_bucket_value, entry_kv, returned.
  destruct (Z.eqb_spec (Z.land (lpe_flags x) bucketLeafFlag) 0) as [H|H]; simpl.
  - by rewrite decide_True.
  - by rewrite decide_False.
Qed.

Lemma hide_bucket_value_nil : hide_bucket_value kv_nil = returned None.
Proof. done. Qed.

Section bounds.
Variable b : Bucket.

Lemma right_leaves_lt (st : list elemRef) (t : tree) :
  represents b t → cursor_in b t st → (right_leaves t st < leaves t)%nat.
Proof.
  revert t. induction st as [|e rest IH]; intros t Hrep Hcur; [done|].
  destruct t as [id es|id cs]; cbn [cursor_in right_leaves] in *; [simpl; lia|].
  destruct Hcur as (_ & _ & Hcur).
  destruct (cs !! Z.to_nat (e_index e)) as [c|] eqn:Hc; [|done].
  specialize (IH c.2 (represents_child b _ _ _ _ Hrep Hc) Hcur).
  rewrite leaves_branch. rewrite (children_split cs _ c Hc) at 2.
  rewrite children_leaves_app. unfold children_leaves at 2. simpl.
  fold (children_leaves (drop (S (Z.to_nat (e_index e))) cs)). lia.
Qed.

Lemma leaf_of_nonempty (st : list elemRef) (t : tree) :
  no_empty_leaf t → cursor_in b t st → leaf_of t st ≠ [].
Proof.
  revert t. induction st as [|e rest IH]; intros t Hne Hcur; [done|].
  destruct t as [id es|id cs]; cbn [cursor_in leaf_of] in *.
  - by inversion Hne.
  - destruct Hcur as (_ & _ & Hcur).
    destruct (cs !! Z.to_nat (e_index e)) as [c|] eqn:Hc; [|done].
    apply IH; [|done]. inversion Hne as [|id' cs' Hall]; subst.
    rewrite Forall_lookup in Hall. exact (Hall _ _ Hc).
Qed.
End bounds.

(** ** [First] and [Next] *)

Section iteration.
Variable b : Bucket.
Variable t : tree.
Hypothesis Hbucket : bucket_of b t.
Variable fuel : nat.
Hypothesis Hfuel : (height t + leaves t < fuel)%nat.

Lemma bucket_represents : represents b t.
Proof. apply Hbucket. Qed.

Lemma assert_open_ok : assert_open b = Done ().
Proof. unfold assert_open. by rewrite (proj1 Hbucket). Qed.

(** The position of the cursor after [n] calls of [Next]: everything from
    element [n+1] on is to its right, and it is on element [n] if there is
    one. *)
Lemma at_element_unfold (n : nat) (st : list elemRef) :
  at_element b t n st ↔
  cursor_in b t st ∧
  after t st = drop (S n) (entries t) ∧
  ((n < length (entries t))%nat → here t st = entries t !! n) ∧
  (no_empty_leaf t → (length (entries t) ≤ n)%nat → here t st = last (entries t)).
Proof. done. Qed.

Lemma First_spec :
  ∃ st, First b fuel = Done (st, returned (entries t !! 0%nat)) ∧ at_element b t 0 st.
Proof.
  pose proof bucket_represents as Hrep. destruct Hbucket as (_ & Hroot & _).
  unfold First. rewrite assert_open_ok. cbn [obind].
  destruct (b_pageNode b (b_root b)) as [p n] eqn:Hpn.
  change [{| e_page := p; e_node := n; e_index := 0 |}]
    with ([] ++ [{| e_page := (p, n).1; e_node := (p, n).2; e_index := 0 |}]).
  rewrite <- Hpn. fold (frame b (b_root b) 0). rewrite Hroot.
  rewrite (first_leftmost b t fuel [] Hrep) by lia. cbn [obind app].
  destruct (leftmost_props b t Hrep) as (Hcur & Hent & Hhere & _).
  destruct (cursor_stack_top b _ t Hrep Hcur) as (top & Htop & Hcount & Hidx & Hhere').
  rewrite Htop. cbn [obind]. rewrite Hcount. cbn [obind].
  destruct (Z.eqb_spec (Z.of_nat (length (leaf_of t (leftmost b t)))) 0) as [Hzero|Hpos].
  - assert (Hh : here t (leftmost b t) = None).
    { rewrite Hhere. apply lookup_ge_None. lia. }
    rewrite Hh in Hent. simpl in Hent.
    destruct (next_spec b fuel (leftmost b t) t Hrep Hcur) as (st' & r & Hnext & Hcur' & Hres).
    { pose proof (right_leaves_lt b _ t Hrep Hcur). lia. }
    rewrite Hnext. cbn [obind fst].
    rewrite (cursor_keyValue b st' t Hrep Hcur'). cbn [obind].
    exists st'. unfold at_element. rewrite Hent in Hres. destruct (entries t) as [|x A] eqn:He.
    + destruct Hres as (_ & Hafter & Hst).
      assert (Hh' : here t st' = None) by (destruct Hst as [->|[? _]]; done).
      rewrite Hh'. split; [done|]. split_and!; [done|done|simpl; lia|done].
    + destruct Hres as (_ & Hh' & Hafter). rewrite Hh'.
      rewrite hide_bucket_value_entry. split; [done|].
      split_and!; [done|done|done|simpl; lia].
  - cbn [obind]. rewrite (cursor_keyValue b _ t Hrep Hcur). cbn [obind].
    exists (leftmost b t). unfold at_element.
    destruct (here t (leftmost b t)) as [x|] eqn:Hh.
    + simpl in Hent. rewrite <- Hent. rewrite hide_bucket_value_entry.
      split; [done|]. split_and!; [done|done|done|simpl; lia].
    + symmetry in Hhere. apply lookup_ge_None in Hhere. lia.
Qed.

Lemma Next_spec (n : nat) (st : list elemRef) :
  at_element b t n st →
  ∃ st', Next b fuel st = Done (st', returned (entries t !! S n)) ∧
         at_element b t (S n) st' ∧
         (no_empty_leaf t → (length (entries t) ≤ S n)%nat → st' = st).
Proof.
  intros (Hcur & Hafter & Hhere & Hlast). pose proof bucket_represents as Hrep.
  unfold Next. rewrite assert_open_ok. cbn [obind].
  destruct (next_spec b fuel st t Hrep Hcur) as (st' & r & Hnext & Hcur' & Hres).
  { pose proof (right_leaves_lt b _ t Hrep Hcur). lia. }
  rewrite Hnext. cbn [obind fst snd]. exists st'. unfold at_element. rewrite Hafter in Hres.
  destruct (drop (S n) (entries t)) as [|x A] eqn:Hd.
  - destruct Hres as (-> & Hafter' & Hst).
    assert (Hlen : (length (entries t) ≤ S n)%nat).
    { apply (f_equal length) in Hd. rewrite length_drop in Hd. simpl in Hd. lia. }
    rewrite (proj2 (lookup_ge_None _ _) Hlen).
    assert (Hstay : no_empty_leaf t → st' = st).
    { intros Hne. destruct Hst as [->|[_ Hnil]]; [done|].
      by destruct (leaf_of_nonempty b st' t Hne Hcur'). }
    split; [done|]. split; [|auto].
    split_and!; [done| |lia|].
    + rewrite Hafter'. symmetry. apply drop_ge. lia.
    + intros Hne _. rewrite (Hstay Hne).
      destruct (decide (n < length (entries t))%nat) as [Hlt|Hge].
      * rewrite (Hhere Hlt), last_lookup.
        by replace (pred (length (entries t))) with n by lia.
      * apply Hlast; [done|lia].
  - destruct Hres as (-> & Hh' & Hafter').
    assert (Hx : entries t !! S n = Some x).
    { rewrite <- (Nat.add_0_r (S n)), <- lookup_drop, Hd. done. }
    pose proof (lookup_lt_Some _ _ _ Hx) as Hlt.
    rewrite Hx, hide_bucket_value_entry. split; [done|]. split.
    + split_and!; [done| |by rewrite Hh'|lia].
      rewrite Hafter'. rewrite (drop_S _ _ _ Hx) in Hd. by simplify_eq.
    + intros _ Hlen. lia.
Qed.

(** The [n]-th call returns element [n], or (nil, nil) past the end. *)
Lemma cursor_after_spec (n : nat) :
  ∃ st, cursor_after b fuel n = Done (st, returned (entries t !! n)) ∧ at_element b t n st.
Proof.
  induction n as [|n (st & Hn & Hat)]; [apply First_spec|].
  destruct (Next_spec n st Hat) as (st' & Hnext & Hat' & _).
  exists st'. cbn [cursor_after]. rewrite Hn. cbn [obind fst]. by split.
Qed.

End iteration.

Lemma keys_ascending_lookup (es : list leafPageElement) (i j : nat) (x y : leafPageElement) :
  keys_ascending (length es) (entry_keys es) →
  (i < j)%nat → es !! i = Some x → es !! j = Some y → key_lt (lpe_key x) (lpe_key y).
Proof.
  intros Hasc Hij Hx Hy. pose proof (lookup_lt_Some _ _ _ Hy) as Hj.
  specialize (Hasc i j ltac:(lia)). unfold entry_keys in Hasc.
  by rewrite (list_lookup_total_correct _ _ _ Hx), (list_lookup_total_correct _ _ _ Hy) in Hasc.
Qed.

Lemma represents_s6 : represents bucket_s6 tree_s6.
Proof.
  apply rep_branch; [by vm_compute|done|].
  repeat constructor; by vm_compute.
Qed.

(** Scenario S6, forwards. *)
Example cursor_s6_forward :
  (λ n, snd <$> (match cursor_after bucket_s6 4 n with Done r => Some r | _ => None end))
    <$> [0; 1; 2; 3; 4; 5]%nat =
  [Some (Some [x61], Some [x31]); Some (Some [x62], Some [x32]);
   Some (Some [x63], Some [x33]); Some (Some [x64], Some [x34]);
   Some (None, None); Some (None, None)].
Proof. by vm_compute. Qed.

Lemma bucket_of_trailing : bucket_of bucket_trailing tree_trailing.
Proof.
  split_and!; [done|done|].
  apply rep_branch; [by vm_compute|done|].
  repeat constructor; by vm_compute.
Qed.

(** C4. The claim fails on a tree whose last leaf is empty (a node that
    deletes have emptied).  On the branch over the leaf "a" and an empty
    leaf, [First] is on "a"; the call of [Next] that returns (nil, nil) has
    moved the cursor into the empty leaf, where it stays: it is not on the
    last element, against the comments of [next] ("if the cursor is at the
    last leaf element then it stays there"). *)
Theorem Next_leaves_last_element :
  bucket_of bucket_trailing tree_trailing ∧
  entries tree_trailing = [leaf_elem x61 x31] ∧
  ∃ st1 st2,
    cursor_after bucket_trailing 4 0 = Done (st1, (Some [x61], Some [x31])) ∧
    keyValue st1 = Done (entry_kv (leaf_elem x61 x31)) ∧
    cursor_after bucket_trailing 4 1 = Done (st2, (None, None)) ∧
    cursor_after bucket_trailing 4 2 = Done (st2, (None, None)) ∧
    st2 ≠ st1 ∧ keyValue st2 = Done kv_nil.
Proof.
  split; [apply bucket_of_trailing|]. split; [done|].
  eexists _, _. split_and!; [by vm_compute..| |by vm_compute].
  by vm_compute.
Qed.

(** ** [search] and [Seek] *)

Lemma from_key_app (key : list byte) (l1 l2 : list leafPageElement) :
  from_key key (l1 ++ l2) = from_key key l1 ++ from_key key l2.
Proof. apply filter_app. Qed.

Lemma from_key_none (key : list byte) (l : list leafPageElement) :
  Forall (λ x, key_lt (lpe_key x) key) l → from_key key l = [].
Proof.
  intros H. apply filter_none. eapply Forall_impl; [exact H|].
  intros x Hx Hle. by apply key_le_iff in Hle.
Qed.

Lemma from_key_all (key : list byte) (l : list leafPageElement) :
  Forall (λ x, key_le key (lpe_key x)) l → from_key key l = l.
Proof. apply filter_all. Qed.

(** In a leaf with ascending keys the elements from the lower bound on are
    those with a key [≥ key]. *)
Lemma from_key_drop (key : list byte) (es : list leafPageElement) (l : nat) :
  lower_bound (length es) (entry_keys es) key l → from_key key es = drop l es.
Proof.
  intros (Hl & Hlo & Hhi). rewrite <- (take_drop l es) at 1.
  rewrite from_key_app, from_key_none, from_key_all; [done|..].
  - apply Forall_lookup. intros i x Hx. rewrite lookup_drop in Hx.
    pose proof (lookup_lt_Some _ _ _ Hx).
    specialize (Hhi (l + i)%nat ltac:(lia)). unfold entry_keys in Hhi.
    by rewrite (list_lookup_total_correct _ _ _ Hx) in Hhi.
  - apply Forall_lookup. intros i x Hx. apply lookup_take_Some in Hx as [Hx Hi].
    specialize (Hlo i Hi). unfold entry_keys in Hlo.
    by rewrite (list_lookup_total_correct _ _ _ Hx) in Hlo.
Qed.

Lemma elem_of_children_entries (cs : list (list byte * tree)) (x : leafPageElement) :
  x ∈ children_entries cs ↔ ∃ j c, cs !! j = Some c ∧ x ∈ entries c.2.
Proof.
  unfold children_entries. rewrite elem_of_concat. split.
  - intros (l & Hl & Hx). apply list_elem_of_fmap in Hl as (c & -> & Hc).
    apply list_elem_of_lookup in Hc as [j Hj]. by exists j, c.
  - intros (j & c & Hj & Hx). exists (entries c.2). split; [|done].
    apply list_elem_of_fmap. exists c. split; [done|]. by eapply list_elem_of_lookup_2.
Qed.

(** The index of [searchNode]/[searchPage] among ascending separators: the
    separator there is [≤ key] unless the index is 0, and all separators
    to the right are above [key]. *)
Lemma branch_index_bounds (n : nat) (keys : nat → list byte) (key : list byte) :
  keys_ascending n keys → (0 < n)%nat →
  let idx := branch_index n keys key in
  0 ≤ idx < Z.of_nat n ∧
  (0 < idx → key_le (keys (Z.to_nat idx)) key) ∧
  (∀ i, (Z.to_nat idx < i < n)%nat → key_lt key (keys i)).
Proof.
  intros Hasc Hn idx.
  destruct (branch_index_spec n keys key Hasc Hn) as (l & Hlb & _ & Hrange & Hright & Hzero).
  fold idx in Hrange, Hright, Hzero. split; [done|].
  destruct Hlb as (Hl & Hlo & Hhi).
  assert (Hcases : (∃ i, (i < n)%nat ∧ key_le (keys i) key) ∨
                   (∀ i, (i < n)%nat → key_lt key (keys i))).
  { destruct (decide (l = 0%nat)) as [->|Hpos].
    - pose proof (Hhi 0%nat ltac:(lia)) as H0.
      apply key_le_cases in H0 as [Hlt|Heq].
      + right. intros i Hi. destruct (decide (i = 0%nat)) as [->|?]; [done|].
        eapply key_lt_trans; [exact Hlt|]. apply Hasc. lia.
      + left. exists 0%nat. split; [done|]. rewrite <- Heq. apply key_le_cases. by right.
    - left. exists 0%nat. split; [done|]. apply key_lt_le, Hlo. lia. }
  destruct Hcases as [Hex|Hall].
  - destruct (Hright Hex) as [Hle Hgt]. by split.
  - rewrite (Hzero Hall). split; [lia|]. intros i Hi. apply Hall. lia.
Qed.

Section seeking.
Variable b : Bucket.
Variable key : list byte.

Lemma ordered_child (id : Z) (cs : list (list byte * tree)) (i : nat) (c : list byte * tree) :
  ordered (TBranch id cs) → cs !! i = Some c → ordered c.2.
Proof.
  intros Hord Hc. inversion Hord as [|id' cs' _ Hall _]; subst.
  rewrite Forall_lookup in Hall. exact (Hall i c Hc).
Qed.

Lemma branch_keys_child_view (cs : list (list byte * tree)) (i : nat) (c : list byte * tree) :
  cs !! i = Some c → branch_keys (child_view <$> cs) i = c.1.
Proof.
  intros Hc. unfold branch_keys.
  rewrite (list_lookup_total_correct (child_view <$> cs) i (child_view c)); [done|].
  by rewrite list_lookup_fmap, Hc.
Qed.

(** [search] in a tree: the cursor it leaves is on the first element with
    a key [≥ key] of the leaf it went down to, or past the end of that
    leaf; that element and those to the right of the cursor are the
    elements of the tree with a key [≥ key]. *)
Lemma search_spec (t : tree) (fuel : nat) (pre : list elemRef) :
  represents b t → ordered t → (height t < fuel)%nat →
  ∃ st, search b fuel key (root_id t) pre = Done (pre ++ st) ∧
        cursor_in b t st ∧
        option_list (here t st) ++ after t st = from_key key (entries t).
Proof.
  revert fuel pre. induction t as [id es|id cs IH] using tree_ind';
    intros fuel pre Hrep Hord Hfuel; (destruct fuel as [|fuel]; [lia|]).
  - cbn [root_id]. rewrite (search_leaf b fuel key id pre es (represents_leaf b _ _ Hrep)).
    eexists. split; [done|]. split; [simpl; split_and!; [done|lia|done]|].
    inversion Hord as [id' es' Hasc|]; subst.
    pose proof (sort_Search_lower_bound (length es) (entry_keys es) key Hasc) as Hlb.
    cbn [here after e_index frame entries]. rewrite Nat2Z.id.
    rewrite (from_key_drop key es _ Hlb).
    set (l := sort_Search (length es) (leaf_probe (entry_keys es) key)).
    destruct (es !! l) as [x|] eqn:Hx.
    + simpl. by rewrite <- (drop_S _ _ _ Hx).
    + apply lookup_ge_None in Hx. simpl. by rewrite !drop_ge by lia.
  - cbn [root_id]. destruct (represents_branch b _ _ Hrep) as [Hres Hne].
    rewrite (search_branch b fuel key id pre _ Hres). cbv zeta.
    inversion Hord as [|id' cs' Hasc Hall Hbounds]; subst.
    rewrite length_fmap in *.
    assert (Hn : (0 < length cs)%nat) by (destruct cs; [done|simpl; lia]).
    destruct (branch_index_bounds (length cs) (branch_keys (child_view <$> cs)) key Hasc Hn)
      as (Hrange & Hle & Hgt).
    set (idx := branch_index (length cs) (branch_keys (child_view <$> cs)) key) in *.
    destruct (lookup_lt_is_Some_2 cs (Z.to_nat idx)) as [c Hc]; [lia|].
    rewrite (at_index_lookup (child_view <$> cs) idx (child_view c))
      by (lia || by rewrite list_lookup_fmap, Hc).
    cbn [obind child_view snd].
    rewrite Forall_lookup in IH.
    destruct (IH _ c Hc fuel (pre ++ [frame b id idx])
                (represents_child b _ _ _ _ Hrep Hc) (ordered_child _ _ _ _ Hord Hc))
      as (stc & Hsearch & Hcur & Hent).
    { pose proof (height_child id cs _ c Hc). lia. }
    exists (frame b id idx :: stc). rewrite Hsearch. split; [by rewrite <- app_assoc|].
    split.
    + cbn [cursor_in e_index frame root_id]. rewrite Hc. split_and!; [done|lia|done].
    + cbn [here after e_index frame]. rewrite Hc, app_assoc, Hent.
      rewrite entries_branch. rewrite (children_split cs _ c Hc) at 2.
      rewrite children_entries_app, children_entries_cons, !from_key_app.
      rewrite (from_key_none key (children_entries (take _ cs))).
      * simpl. f_equal. symmetry. apply from_key_all.
        apply Forall_forall. intros x Hx.
        apply elem_of_children_entries in Hx as (j & cj & Hj & Hx).
        rewrite lookup_drop in Hj.
        pose proof (lookup_lt_Some _ _ _ Hj) as Hjn.
        destruct (Hbounds _ _ Hj) as [Hlow _].
        specialize (Hlow ltac:(lia)). rewrite Forall_forall in Hlow.
        specialize (Hgt (S (Z.to_nat idx) + j)%nat ltac:(lia)).
        rewrite (branch_keys_child_view cs _ cj Hj) in Hgt.
        apply key_lt_le. eapply key_lt_le_trans; [exact Hgt|]. by apply Hlow.
      * apply Forall_forall. intros x Hx.
        apply elem_of_children_entries in Hx as (j & cj & Hj & Hx).
        apply lookup_take_Some in Hj as [Hj Hji].
        destruct (lookup_lt_is_Some_2 cs (S j)) as [c' Hc']; [lia|].
        destruct (Hbounds _ _ Hj) as [_ Hup].
        specialize (Hup c' Hc'). rewrite Forall_forall in Hup.
        specialize (Hle ltac:(lia)).
        rewrite (branch_keys_child_view cs _ c Hc) in Hle.
        eapply key_lt_le_trans; [by apply Hup|].
        destruct (decide (S j = Z.to_nat idx)) as [Heq|Hneq].
        -- rewrite Heq, Hc in Hc'. by injection Hc' as <-.
        -- eapply key_le_trans; [|exact Hle]. apply key_lt_le.
           specialize (Hasc (S j) (Z.to_nat idx) ltac:(lia)).
           by rewrite (branch_keys_child_view cs _ c' Hc'),
                      (branch_keys_child_view cs _ c Hc) in Hasc.
Qed.
End seeking.

Lemma head_filter_leftmost {A} (P : A → Prop) `{∀ x, Decision (P x)}
    (l : list A) (i : nat) (x : A) :
  l !! i = Some x → P x → (∀ j y, (j < i)%nat → l !! j = Some y → ¬ P y) →
  head (filter P l) = Some x.
Proof.
  intros Hx HP Hbefore. rewrite <- (take_drop_middle l i x Hx), filter_app.
  rewrite filter_none; [by rewrite filter_cons_True|].
  apply Forall_lookup. intros j y Hy. apply lookup_take_Some in Hy as [Hy Hj].
  by apply (Hbefore j).
Qed.

Lemma key_le_nil (k : list byte) : key_le [] k.
Proof. unfold key_le. by destruct k. Qed.

Section seek_facts.
Variable b : Bucket.
Variable t : tree.
Hypothesis Hbucket : bucket_of b t.
Hypothesis Hord : ordered t.
Variable fuel : nat.
Hypothesis Hfuel : (height t + leaves t < fuel)%nat.

(** [Seek] returns the first of the elements with a key [≥ key], in the
    order of the leaves, or (nil, nil) when there is none. *)
Lemma Seek_spec (key : list byte) :
  ∃ st, Seek b fuel key = Done (st, returned (head (from_key key (entries t)))) ∧
        cursor_in b t st.
Proof.
  destruct Hbucket as (Hopen & Hroot & Hrep).
  unfold Seek, seek, assert_open. rewrite Hopen, Hroot. cbn [obind].
  destruct (search_spec b key t fuel [] Hrep Hord ltac:(lia)) as (st0 & Hsearch & Hcur & Hent).
  rewrite Hsearch. cbn [obind app].
  destruct (cursor_stack_top b st0 t Hrep Hcur) as (top & Htop & Hcount & Hidx & Hhere).
  rewrite Htop. cbn [obind]. rewrite Hcount. cbn [obind].
  destruct (Z.leb_spec (Z.of_nat (length (leaf_of t st0))) (e_index top)) as [Hpast|Hin].
  - cbn [obind]. rewrite Htop. cbn [obind]. rewrite Hcount. cbn [obind].
    destruct (Z.leb_spec (Z.of_nat (length (leaf_of t st0))) (e_index top)) as [_|?]; [|lia].
    assert (Hh : here t st0 = None) by (rewrite Hhere; apply lookup_ge_None; lia).
    rewrite Hh in Hent. simpl in Hent.
    destruct (next_spec b fuel st0 t Hrep Hcur) as (st' & r & Hnext & Hcur' & Hres).
    { pose proof (right_leaves_lt b _ t Hrep Hcur). lia. }
    rewrite Hnext. cbn [obind]. exists st'. rewrite <- Hent.
    destruct (after t st0) as [|x A].
    + by destruct Hres as (-> & _ & _).
    + destruct Hres as (-> & _ & _). cbn [head].
      by rewrite <- hide_bucket_value_entry.
  - destruct (lookup_lt_is_Some_2 (leaf_of t st0) (Z.to_nat (e_index top))) as [x Hx]; [lia|].
    rewrite Hx in Hhere. rewrite Hhere in Hent. simpl in Hent.
    rewrite (cursor_keyValue b st0 t Hrep Hcur), Hhere. cbn [obind].
    rewrite Htop. cbn [obind]. rewrite Hcount. cbn [obind].
    destruct (Z.leb_spec (Z.of_nat (length (leaf_of t st0))) (e_index top)) as [?|_]; [lia|].
    cbn [obind]. exists st0. rewrite <- Hent. cbn [head].
    by rewrite <- hide_bucket_value_entry.
Qed.
End seek_facts.

(** C3. In a B+tree (separators bounding their subtrees, keys strictly
    ascending) [Seek(k)] returns the leftmost element whose key is [≥ k]:
    its key and its value, the value nil for a sub-bucket; (nil, nil) when
    every key is below [k]; and the first element of the tree for the
    empty key. *)
Theorem Seek_leftmost_ge (b : Bucket) (t : tree) (fuel : nat) (key : list byte) :
  bucket_of b t → ordered t → (height t + leaves t < fuel)%nat →
  (∀ i x, entries t !! i = Some x → key_le key (lpe_key x) →
          (∀ j y, (j < i)%nat → entries t !! j = Some y → key_lt (lpe_key y) key) →
          ∃ st, Seek b fuel key =
                  Done (st, (Some (lpe_key x),
                             if decide (Z.land (lpe_flags x) bucketLeafFlag = 0)
                             then Some (lpe_value x) else None))) ∧
  ((∀ y, y ∈ entries t → key_lt (lpe_key y) key) →
   ∃ st, Seek b fuel key = Done (st, (None, None))) ∧
  (∃ st, Seek b fuel [] = Done (st, returned (head (entries t)))).
Proof.
  intros Hbucket Hord Hfuel. split_and!.
  - intros i x Hx Hle Hbefore.
    destruct (Seek_spec b t Hbucket Hord fuel Hfuel key) as (st & HSeek & _).
    exists st. rewrite HSeek. unfold from_key.
    rewrite (head_filter_leftmost _ (entries t) i x Hx Hle); [done|].
    intros j y Hj Hy Hley. apply key_le_iff in Hley. by apply Hley, (Hbefore j).
  - intros Hall.
    destruct (Seek_spec b t Hbucket Hord fuel Hfuel key) as (st & HSeek & _).
    exists st. rewrite HSeek, from_key_none; [done|]. by apply Forall_forall.
  - destruct (Seek_spec b t Hbucket Hord fuel Hfuel []) as (st & HSeek & _).
    exists st. rewrite HSeek, from_key_all; [done|].
    apply Forall_forall. intros x _. apply key_le_nil.
Qed.

Lemma represents_s5 : represents bucket_s5 tree_s5.
Proof. apply rep_leaf; by vm_compute. Qed.

Lemma ordered_s5 : ordered tree_s5.
Proof.
  apply ord_leaf. intros i j Hij. simpl in Hij.
  assert (j = 1 ∨ j = 2)%nat as [->| ->] by lia;
    destruct i as [|[|i]]; try lia; by vm_compute.
Qed.

Lemma Seek_leftmost_ge_witness :
  ∃ st, Seek bucket_s5 2 [x62] = Done (st, (Some [x63], Some [x32])).
Proof.
  destruct (Seek_leftmost_ge bucket_s5 tree_s5 2 [x62]) as (Hge & _ & _).
  - split_and!; [done|done|apply represents_s5].
  - apply ordered_s5.
  - simpl. lia.
  - apply (Hge 1%nat (leaf_elem x63 x32)); [done|by vm_compute|].
    intros j y Hj Hy. assert (j = 0)%nat as -> by lia.
    injection Hy as <-. by vm_compute.
Defined.

(** Scenario S5: [Seek] for "b", "e", "f" and the empty key. *)
Example seek_s5 :
  (λ key, snd <$> (match Seek bucket_s5 2 key with Done r => Some r | _ => None end))
    <$> [[x62]; [x65]; [x66]; []] =
  [Some (Some [x63], Some [x32]); Some (Some [x65], Some [x33]);
   Some (None, None); Some (Some [x61], Some [x31])].
Proof. by vm_compute. Qed.

(** [Seek] across the two leaves of scenario S6: for "b", "bb", "c", "e"
    and the empty key. *)
Example seek_s6 :
  (λ key, snd <$> (match Seek bucket_s6 4 key with Done r => Some r | _ => None end))
    <$> [[x62]; [x62; x62]; [x63]; [x65]; []] =
  [Some (Some [x62], Some [x32]); Some (Some [x63], Some [x33]);
   Some (Some [x63], Some [x33]); Some (None, None); Some (Some [x61], Some [x31])].
Proof. by vm_compute. Qed.

(** ** [pgids.merge], [copyall] and [size] *)

(** X1. [a.merge(b)] never panics: it returns a rearrangement of the ids of
    [a] and [b] together, ascending when [a] and [b] are, and the other
    slice itself when one of them is empty. *)
Theorem merge_sorted_union (a b : list Z) :
  ∃ m, merge a b = Done m ∧ m ≡ₚ a ++ b ∧
       (ascending a → ascending b → ascending m) ∧
       (a = [] → m = b) ∧ (b = [] → m = a).
Proof.
  destruct (merge_perm a b) as (m & Hm & Hp). exists m. split_and!; [done..| | |].
  - intros Ha Hb. destruct (merge_ascending a b Ha Hb) as (m' & Hm' & Hasc & _).
    rewrite Hm in Hm'. by injection Hm' as ->.
  - intros ->. simpl in Hm. by injection Hm as ->.
  - intros ->. destruct a; simpl in Hm; by injection Hm as ->.
Qed.

(** X2. [copyall] writes the free and the pending ids, in one ascending
    list, to the first [count()] slots of [dst] and leaves the other slots
    as they are; it panics when [dst] is shorter than [count()]. *)
Theorem copyall_sorted_union (f : freelist) (dst : list Z) :
  ((count f ≤ length dst)%nat →
   ∃ m, copyall f dst = Done (m ++ drop (count f) dst) ∧
        length m = count f ∧
        m ≡ₚ ids f ++ all_pending (pending f) ∧
        (ascending (ids f) → ascending m)) ∧
  ((length dst < count f)%nat → copyall f dst = Panicked).
Proof.
  split; [|apply copyall_short].
  intros Hlen. destruct (copyall_perm f dst Hlen) as (m & Hm & Hp).
  exists m. split_and!; [done| |done|].
  - by rewrite Hp, count_length.
  - intros Hasc. pose proof (copyall_sorted f dst Hasc Hlen) as Hs.
    rewrite Hm in Hs. injection Hs as Hs.
    apply app_inv_tail in Hs as ->. apply sort_pgids_ascending.
Qed.

Lemma wrap_int_small (z : Z) : - 2 ^ 63 ≤ z < 2 ^ 63 → wrap_int z = z.
Proof. intros Hz. unfold wrap_int. rewrite Z.mod_small; lia. Qed.

(** [size] counts the header and 8 bytes for each slot that [write] uses. *)
Lemma size_slots_needed (f : freelist) :
  Z.of_nat (count f) < 2 ^ 59 →
  size f = pageHeaderSize + 8 * Z.of_nat (slots_needed f).
Proof.
  intros Hc. unfold size, slots_needed, pageHeaderSize.
  assert (Hw : ∀ n, 0 ≤ n ≤ 2 ^ 59 → wrap_int (16 + wrap_int (8 * n)) = 16 + 8 * n).
  { intros n Hn. rewrite (wrap_int_small (8 * n)) by lia. apply wrap_int_small. lia. }
  destruct (Z.leb_spec 0xFFFF (Z.of_nat (count f))) as [Hbig|Hsmall].
  - destruct (Nat.eqb_spec (count f) 0) as [H0|_]; [lia|].
    destruct (Z.ltb_spec (Z.of_nat (count f)) 0xFFFF) as [?|_]; [lia|].
    rewrite (wrap_int_small (Z.of_nat (count f) + 1)) by lia. rewrite Hw; lia.
  - destruct (Nat.eqb_spec (count f) 0) as [H0|_].
    + rewrite H0. by vm_compute.
    + destruct (Z.ltb_spec (Z.of_nat (count f)) 0xFFFF) as [_|?]; [|lia].
      rewrite Hw; lia.
Qed.

(** X3. [size()] is the extent of what [write] writes.  For a freelist
    with fewer than [maxAllocSize] ids, [write] returns nil, the page it has
    written holds [size()] bytes, and no slot of the page that starts at
    byte [size()] or behind it has changed. *)
Theorem write_fits_size (p : page) (f : freelist) :
  Z.of_nat (count f) < maxAllocSize →
  ∃ p', write p f = Done (p', None) ∧
        size f ≤ pageHeaderSize + 8 * Z.of_nat (length (pgid_slots p')) ∧
        ∀ i : nat, size f ≤ pageHeaderSize + 8 * Z.of_nat i →
                   pgid_slots p' !! i = pgid_slots p !! i.
Proof.
  intros Hroom.
  assert (Hc : Z.of_nat (count f) < 2 ^ 59) by (unfold maxAllocSize in Hroom; lia).
  rewrite (size_slots_needed f Hc). unfold slots_needed. rewrite write_unfold.
  destruct (write_dst_room (pgid_slots p) f Hroom) as [Hall Htl].
  destruct (Nat.eqb_spec (count f) 0) as [H0|H0].
  { destruct (Z.eqb_spec (Z.of_nat (count f)) 0); [|lia].
    eexists. split; [done|]. cbn [fst snd]. unfold pgid_slots at 1 3. cbn [p_ptr].
    split; [lia|done]. }
  destruct (Z.eqb_spec (Z.of_nat (count f)) 0); [lia|].
  destruct (Z.of_nat (count f) <? 65535).
  - destruct (copyall_perm f _ Hall) as (m & -> & Hp).
    assert (Hlm : length m = count f) by (by rewrite Hp, count_length).
    eexists. split; [done|]. cbn [fst snd]. unfold pgid_slots at 1 3. cbn [p_ptr].
    split; [rewrite length_app; lia|].
    intros i Hi. rewrite lookup_app_r by lia. rewrite lookup_drop, Hlm.
    replace (count f + (i - count f))%nat with i by lia.
    apply array_prefix_lookup. lia.
  - destruct (copyall_perm f _ Htl) as (m & -> & Hp).
    assert (Hlm : length m = count f) by (by rewrite Hp, count_length).
    eexists. split; [done|]. cbn [fst snd]. unfold pgid_slots at 1 3. cbn [p_ptr].
    split; [cbn [length]; rewrite length_app; lia|].
    intros i Hi. destruct i as [|j]; [lia|]. rewrite lookup_cons. cbv beta iota.
    rewrite lookup_app_r by lia. rewrite lookup_drop, Hlm, lookup_tail.
    replace (S (count f + (j - count f)))%nat with (S j) by lia.
    apply array_prefix_lookup. lia.
Qed.

Lemma write_fits_size_witness :
  size freelist_s3 = 40 ∧
  ∃ p', write page_s3 freelist_s3 = Done (p', None) ∧ pgid_slots p' !! 3%nat = Some 0.
Proof.
  split; [by vm_compute|].
  destruct (write_fits_size page_s3 freelist_s3) as (p' & Hw & _ & Hkeep); [by vm_compute|].
  exists p'. split; [exact Hw|]. rewrite (Hkeep 3%nat); [reflexivity|by vm_compute].
Defined.

(** ** Counting the pages of a freelist *)

Lemma concat_perm {A} (l k : list (list A)) : l ≡ₚ k → concat l ≡ₚ concat k.
Proof.
  induction 1 as [|x l k _ IH|x y l|l k j _ IH1 _ IH2]; simpl.
  - done.
  - by rewrite IH.
  - rewrite !(assoc_L (++)). by rewrite (comm (++) y x).
  - by rewrite IH1.
Qed.

Lemma all_pending_insert_fresh (m : gmap Z (list Z)) (t : Z) (l : list Z) :
  m !! t = None → all_pending (<[t := l]> m) ≡ₚ l ++ all_pending m.
Proof.
  intros Hm. unfold all_pending.
  change (l ++ concat (map_to_list m).*2) with (concat (((t, l) :: map_to_list m).*2)).
  apply concat_perm, fmap_Permutation. by apply map_to_list_insert.
Qed.

Lemma all_pending_delete (m : gmap Z (list Z)) (t : Z) :
  all_pending m ≡ₚ default [] (m !! t) ++ all_pending (delete t m).
Proof.
  destruct (m !! t) as [l|] eqn:Hl; simpl.
  - rewrite <- (all_pending_insert_fresh (delete t m) t l) by apply lookup_delete_eq.
    by rewrite insert_delete_id.
  - by rewrite delete_id.
Qed.

Lemma all_pending_insert (m : gmap Z (list Z)) (t : Z) (l : list Z) :
  all_pending (<[t := l]> m) ≡ₚ l ++ all_pending (delete t m).
Proof.
  rewrite <- insert_delete_eq. apply all_pending_insert_fresh, lookup_delete_eq.
Qed.

Lemma all_pending_filter (P : Z * list Z → Prop) `{∀ kv, Decision (P kv)}
    (m : gmap Z (list Z)) :
  all_pending m ≡ₚ all_pending (filter P m) ++ all_pending (filter (λ kv, ¬ P kv) m).
Proof.
  induction m as [|t l m Hm _ IH] using map_first_key_ind.
  - by rewrite !map_filter_empty.
  - rewrite all_pending_insert_fresh by done. rewrite IH.
    destruct (decide (P (t, l))) as [HP|HP].
    + rewrite (map_filter_insert_True P) by done.
      rewrite (map_filter_insert_not' (λ kv, ¬ P kv)); [|tauto|congruence].
      rewrite all_pending_insert_fresh by (by apply map_lookup_filter_None_2; left).
      by rewrite (assoc_L (++)).
    + rewrite (map_filter_insert_True (λ kv, ¬ P kv)) by done.
      rewrite (map_filter_insert_not' P); [|done|congruence].
      rewrite all_pending_insert_fresh by (by apply map_lookup_filter_None_2; left).
      rewrite !(assoc_L (++)). by rewrite (comm (++) l).
Qed.

Lemma count_parts (f : freelist) :
  count f = (length (ids f) + length (all_pending (pending f)))%nat.
Proof. by rewrite count_length, length_app. Qed.

(** A [free] that returns has appended the page and its overflow pages,
    none of which was cached. *)
Lemma free_done_appends (t : Z) (p : page) (f f' : freelist) :
  page_header_ok p → p_id p + p_overflow p < max_uint64 →
  free t p f = Done f' →
  1 < p_id p ∧ Forall (λ x, x ∉ cache f) (page_run p) ∧
  f' = {| ids := ids f;
          pending := <[t := default [] (pending f !! t) ++ page_run p]> (pending f);
          cache := list_to_set (page_run p) ∪ cache f |}.
Proof.
  intros Hok Hhi Hfree.
  assert (Hid : 1 < p_id p).
  { rewrite free_unfold in Hfree. destruct (Z.leb_spec (p_id p) 1); [done|lia]. }
  destruct (decide (Forall (λ x, x ∉ cache f) (page_run p))) as [Hfresh|Htaken].
  - rewrite (free_appends t p f Hok Hhi Hid Hfresh) in Hfree. by injection Hfree as <-.
  - apply not_Forall_Exists in Htaken; [|apply _].
    apply Exists_exists in Htaken as (x & Hx & Hin).
    apply dec_stable in Hin. unfold page_run in Hx. apply elem_of_seqZ in Hx.
    rewrite (free_taken t p f Hok Hhi) in Hfree; [done|]. exists x. split; [lia|done].
Qed.

Lemma length_page_run (p : page) :
  0 ≤ p_overflow p → Z.of_nat (length (page_run p)) = p_overflow p + 1.
Proof. intros Hov. unfold page_run. rewrite length_seqZ. lia. Qed.

(** X4. A [free] that returns leaves the number of free pages as it is and
    adds the page and its overflow pages to the pending ones: [count()]
    grows by [overflow + 1]. *)
Theorem free_count_grows (t : Z) (p : page) (f f' : freelist) :
  page_header_ok p → p_id p + p_overflow p < max_uint64 →
  free t p f = Done f' →
  free_count f' = free_count f ∧
  Z.of_nat (pending_count f') = Z.of_nat (pending_count f) + p_overflow p + 1 ∧
  Z.of_nat (count f') = Z.of_nat (count f) + p_overflow p + 1.
Proof.
  intros Hok Hhi Hfree.
  destruct (free_done_appends t p f f' Hok Hhi Hfree) as (_ & _ & ->).
  assert (Hp : Z.of_nat (pending_count
                 {| ids := ids f;
                    pending := <[t := default [] (pending f !! t) ++ page_run p]> (pending f);
                    cache := list_to_set (page_run p) ∪ cache f |})
               = Z.of_nat (pending_count f) + p_overflow p + 1).
  { rewrite !pending_count_length. cbn [pending].
    rewrite all_pending_insert, (all_pending_delete (pending f) t), !length_app.
    pose proof (length_page_run p (proj1 (proj2 Hok))). lia. }
  unfold count, free_count in *. cbn [ids] in *. split_and!; [done|done|lia].
Qed.

Lemma free_count_grows_witness :
  ∃ f', free 10 (page_at 20 2) newFreelist = Done f' ∧ count f' = 3%nat.
Proof.
  eexists. split; [reflexivity|].
  destruct (free_count_grows 10 (page_at 20 2) newFreelist _
              ltac:(by vm_compute) ltac:(by vm_compute) eq_refl) as (_ & _ & Hc).
  change (Z.of_nat (count newFreelist) + p_overflow (page_at 20 2) + 1) with 3 in Hc.
  lia.
Defined.

Lemma release_outcome (t : Z) (f : freelist) :
  ∃ f', release t f = Done f' ∧
        ids f' ≡ₚ ids f ++ all_pending (filter (λ kv, kv.1 ≤ t) (pending f)) ∧
        (ascending (ids f) → ascending (ids f')) ∧
        (∀ t' l, pending f' !! t' = Some l ↔ pending f !! t' = Some l ∧ t < t') ∧
        cache f' = cache f ∧
        count f' = count f.
Proof.
  destruct (release_result t f) as (ids' & Hr & Hp).
  eexists. split; [exact Hr|]. cbn [ids pending cache]. split_and!.
  - done.
  - intros Hasc. unfold release in Hr. rewrite foldl_app_concat in Hr. simpl in Hr.
    destruct (merge_ascending (ids f)
                (sort_pgids (concat (map_to_list (filter (λ kv, kv.1 ≤ t) (pending f))).*2))
                Hasc (sort_pgids_ascending _)) as (m & Hm & Hm_asc & _).
    rewrite Hm in Hr. simpl in Hr. by injection Hr as <-.
  - intros t' l. rewrite map_lookup_filter_Some. simpl. intuition lia.
  - done.
  - rewrite !count_parts. cbn [ids pending].
    pose proof (Permutation_length (all_pending_filter (λ kv, kv.1 ≤ t) (pending f))) as Hs.
    apply Permutation_length in Hp. rewrite length_app in Hp, Hs. lia.
Qed.

(** X5. [release] never panics.  It moves the pending pages of the
    transactions up to [txid] to the free ids, which stay ascending, keeps
    the lists of the later transactions and the cache, and so the number
    of pages on the freelist. *)
Theorem release_moves_pending (t : Z) (f : freelist) :
  ∃ f', release t f = Done f' ∧
        ids f' ≡ₚ ids f ++ all_pending (filter (λ kv, kv.1 ≤ t) (pending f)) ∧
        (ascending (ids f) → ascending (ids f')) ∧
        (∀ t' l, pending f' !! t' = Some l ↔ pending f !! t' = Some l ∧ t < t') ∧
        cache f' = cache f ∧
        count f' = count f.
Proof. apply release_outcome. Qed.

(** X6. [rollback] keeps the free ids and the lists of the other
    transactions, drops the list of [txid] and takes its ids out of the
    cache; for a transaction without pending pages it changes nothing. *)
Theorem rollback_forgets_tx (t : Z) (f : freelist) :
  ids (rollback t f) = ids f ∧
  pending (rollback t f) !! t = None ∧
  (∀ t', t' ≠ t → pending (rollback t f) !! t' = pending f !! t') ∧
  (∀ x, freed x (rollback t f) = true ↔
        freed x f = true ∧ x ∉ default [] (pending f !! t)) ∧
  (count (rollback t f) + length (default [] (pending f !! t)) = count f)%nat ∧
  (pending f !! t = None → rollback t f = f).
Proof.
  split_and!.
  - done.
  - apply lookup_delete_eq.
  - intros t' Ht. by apply lookup_delete_ne.
  - intros x. unfold freed, rollback. cbn [cache]. rewrite foldl_uncache.
    rewrite !bool_decide_eq_true. set_solver.
  - rewrite !count_parts. cbn [ids pending rollback].
    rewrite (all_pending_delete (pending f) t), length_app. lia.
  - intros Hnone. unfold rollback. rewrite Hnone. simpl. rewrite delete_id by done.
    by destruct f.
Qed.

(** ** The invariants of the data model are kept *)

Lemma strictly_ascending_NoDup (l : list Z) : strictly_ascending l → NoDup l.
Proof.
  induction 1 as [|x l _ IH Hx]; constructor; [|done].
  intros Hin. rewrite Forall_forall in Hx. specialize (Hx x Hin). lia.
Qed.

Lemma ascending_NoDup_strict (l : list Z) : ascending l → NoDup l → strictly_ascending l.
Proof.
  induction 1 as [|x l _ IH Hx]; intros Hnd; constructor.
  - apply IH. by apply NoDup_cons in Hnd as [_ ?].
  - apply NoDup_cons in Hnd as [Hnotin _].
    rewrite Forall_forall in *. intros y Hy. specialize (Hx y Hy).
    assert (x ≠ y) by (by intros ->). lia.
Qed.

Lemma strictly_ascending_ascending (l : list Z) : strictly_ascending l → ascending l.
Proof.
  induction 1 as [|x l _ IH Hx]; constructor; [done|].
  eapply Forall_impl; [exact Hx|]. intros y ?. simpl in *. lia.
Qed.

(** Two ascending lists with the same ids are the same list. *)
Lemma ascending_perm_eq (l k : list Z) : ascending l → ascending k → l ≡ₚ k → l = k.
Proof.
  intros Hl Hk Hp. rewrite <- (sort_pgids_unique k l Hl Hp).
  by rewrite (sort_pgids_unique k k Hk).
Qed.

Lemma NoDup_all_pending (m : gmap Z (list Z)) :
  (∀ t l, m !! t = Some l → NoDup l) →
  (∀ t1 l1 t2 l2 x, m !! t1 = Some l1 → m !! t2 = Some l2 → x ∈ l1 → x ∈ l2 → t1 = t2) →
  NoDup (all_pending m).
Proof.
  induction m as [|t l m Hm _ IH] using map_first_key_ind; intros Hnd Hdis.
  - unfold all_pending. rewrite map_to_list_empty. constructor.
  - rewrite all_pending_insert_fresh by done. apply NoDup_app. split_and!.
    + apply (Hnd t). apply lookup_insert_eq.
    + intros x Hx Hin. apply elem_of_all_pending in Hin as (t' & l' & Hl' & Hx').
      assert (t ≠ t') as Hne by (intros ->; congruence).
      apply Hne. apply (Hdis t l t' l' x); [apply lookup_insert_eq| |done..].
      by rewrite lookup_insert_ne.
    + apply IH.
      * intros t' l' Hl'. apply (Hnd t').
        rewrite lookup_insert_ne; [done|]. intros ->. congruence.
      * intros t1 l1 t2 l2 x H1 H2. apply Hdis; (rewrite lookup_insert_ne; [done|]);
          intros ->; congruence.
Qed.

Lemma valid_page_run (p : page) :
  1 < p_id p → p_id p + p_overflow p < max_uint64 → valid_ids (page_run p).
Proof.
  intros Hid Hhi. apply Forall_forall. intros x Hx%elem_of_seqZ. lia.
Qed.

(** Appending fresh ids to the list of a transaction keeps the invariants. *)
Lemma freelist_inv_pend (t : Z) (run : list Z) (f : freelist) :
  freelist_inv f → NoDup run → valid_ids run → Forall (λ x, x ∉ cache f) run →
  freelist_inv {| ids := ids f;
                  pending := <[t := default [] (pending f !! t) ++ run]> (pending f);
                  cache := list_to_set run ∪ cache f |}.
Proof.
  intros Hinv Hnd Hvalid Hfresh. rewrite Forall_forall in Hfresh.
  assert (Hold : ∀ x, x ∈ default [] (pending f !! t) → in_pending (pending f) x).
  { intros x Hx. destruct (pending f !! t) as [l|] eqn:Hl; [|by apply elem_of_nil in Hx].
    by exists t, l. }
  assert (Hcached : ∀ x, in_pending (pending f) x → x ∈ cache f).
  { intros x Hx. apply (inv_cache f Hinv). by right. }
  split; cbn [ids pending cache].
  - intros x. cbn [ids pending cache].
    rewrite elem_of_union, elem_of_list_to_set, (inv_cache f Hinv x).
    rewrite in_pending_insert, elem_of_app, (in_pending_delete (pending f) t x). tauto.
  - apply (inv_sorted f Hinv).
  - apply (inv_valid f Hinv).
  - intros t' l Hl. apply lookup_insert_Some in Hl as [[<- <-]|[_ Hl]].
    + apply Forall_app. split; [|done].
      destruct (pending f !! t) as [l|] eqn:Hl; [|constructor].
      apply (inv_pending_valid f Hinv t l Hl).
    + apply (inv_pending_valid f Hinv t' l Hl).
  - intros x Hx Hin. apply in_pending_insert in Hin. rewrite elem_of_app in Hin.
    destruct Hin as [[Hin|Hin]|Hin].
    + exact (inv_free_pending f Hinv x Hx (Hold x Hin)).
    + apply (Hfresh x Hin). apply (inv_cache f Hinv). by left.
    + apply (inv_free_pending f Hinv x Hx).
      apply (in_pending_delete (pending f) t x). by right.
  - assert (Hcross : ∀ t' l' x, t ≠ t' → pending f !! t' = Some l' →
                       x ∈ default [] (pending f !! t) ++ run → x ∈ l' → False).
    { intros t' l' x Hne Hl' Hx Hx'. apply elem_of_app in Hx as [Hx|Hx].
      - destruct (pending f !! t) as [l|] eqn:Hl; [|by apply elem_of_nil in Hx].
        exact (Hne (inv_pending_disjoint f Hinv t l t' l' x Hl Hl' Hx Hx')).
      - apply (Hfresh x Hx), Hcached. by exists t', l'. }
    intros t1 l1 t2 l2 x H1 H2 Hx1 Hx2.
    apply lookup_insert_Some in H1 as [[<- <-]|[Hne1 H1]];
      apply lookup_insert_Some in H2 as [[<- <-]|[Hne2 H2]].
    + done.
    + by destruct (Hcross t2 l2 x Hne2 H2 Hx1 Hx2).
    + by destruct (Hcross t1 l1 x Hne1 H1 Hx2 Hx1).
    + exact (inv_pending_disjoint f Hinv t1 l1 t2 l2 x H1 H2 Hx1 Hx2).
  - intros t' l Hl. apply lookup_insert_Some in Hl as [[<- <-]|[_ Hl]].
    + apply NoDup_app. split_and!; [|intros x Hx Hr; exact (Hfresh x Hr (Hcached x (Hold x Hx)))|done].
      destruct (pending f !! t) as [l|] eqn:Hl; [|constructor].
      apply (inv_pending_nodup f Hinv t l Hl).
    + apply (inv_pending_nodup f Hinv t' l Hl).
Qed.

Lemma free_keeps_inv (t : Z) (p : page) (f f' : freelist) :
  freelist_inv f → page_header_ok p → free t p f = Done f' → freelist_inv f'.
Proof.
  intros Hinv Hok Hfree. destruct Hok as (Hid & Hov).
  assert (Hok : page_header_ok p) by done. unfold is_uint64, max_uint64 in Hid.
  destruct (Z.lt_trichotomy (p_id p + p_overflow p) max_uint64) as [Hlt|[Heq|Hgt]].
  - destruct (free_done_appends t p f f' Hok Hlt Hfree) as (H1 & Hfresh & ->).
    apply freelist_inv_pend; [done|apply NoDup_seqZ|by apply valid_page_run|done].
  - rewrite (free_top_run t p f) in Hfree; [done|done|].
    rewrite Heq. by vm_compute.
  - assert (H1 : 1 < p_id p).
    { rewrite free_unfold in Hfree. destruct (Z.leb_spec (p_id p) 1); [done|lia]. }
    rewrite (free_wrapped_run t p f H1) in Hfree.
    + injection Hfree as <-.
      pose proof (freelist_inv_pend t [] f Hinv (NoDup_nil_2) (Forall_nil_2 _)
                    (Forall_nil_2 _)) as H.
      rewrite app_nil_r in H. simpl in H. by rewrite (left_id_L ∅ (∪)) in H.
    + unfold wrap64, max_uint64 in *.
      replace (p_id p + p_overflow p) with ((p_id p + p_overflow p - 2 ^ 64) + 1 * 2 ^ 64) by lia.
      rewrite Z.mod_add by lia. rewrite Z.mod_small; lia.
Qed.

Lemma release_keeps_inv (t : Z) (f f' : freelist) :
  freelist_inv f → release t f = Done f' → freelist_inv f'.
Proof.
  intros Hinv Hrel.
  destruct (release_outcome t f) as (f'' & Hr & Hp & Hasc & Hpend & Hcache & _).
  rewrite Hrel in Hr. injection Hr as <-.
  assert (Hsub : ∀ x, x ∈ all_pending (filter (λ kv, kv.1 ≤ t) (pending f)) →
                      ∃ t' l, pending f !! t' = Some l ∧ t' ≤ t ∧ x ∈ l).
  { intros x Hx. apply elem_of_all_pending, in_pending_filter in Hx
      as (t' & l & Hl & Ht & Hx). by exists t', l. }
  split.
  - by apply (release_cache_ok t f f' (inv_cache f Hinv)).
  - apply ascending_NoDup_strict.
    + apply Hasc, strictly_ascending_ascending, (inv_sorted f Hinv).
    + rewrite Hp. apply NoDup_app. split_and!.
      * apply strictly_ascending_NoDup, (inv_sorted f Hinv).
      * intros x Hx Hin. destruct (Hsub x Hin) as (t' & l & Hl & _ & Hxl).
        apply (inv_free_pending f Hinv x Hx). by exists t', l.
      * apply NoDup_all_pending.
        -- intros t' l Hl%map_lookup_filter_Some. apply (inv_pending_nodup f Hinv t' l), Hl.
        -- intros t1 l1 t2 l2 x H1%map_lookup_filter_Some H2%map_lookup_filter_Some.
           apply (inv_pending_disjoint f Hinv); [apply H1|apply H2].
  - unfold valid_ids. rewrite Hp. apply Forall_app. split; [apply (inv_valid f Hinv)|].
    apply Forall_forall. intros x Hx. destruct (Hsub x Hx) as (t' & l & Hl & _ & Hxl).
    pose proof (inv_pending_valid f Hinv t' l Hl) as Hv.
    unfold valid_ids in Hv. rewrite Forall_forall in Hv. by apply Hv.
  - intros t' l Hl%Hpend. apply (inv_pending_valid f Hinv t' l), Hl.
  - intros x Hx (t' & l & Hl%Hpend & Hxl). rewrite Hp in Hx.
    apply elem_of_app in Hx as [Hx|Hx].
    + apply (inv_free_pending f Hinv x Hx). exists t', l. split; [apply Hl|done].
    + destruct (Hsub x Hx) as (t1 & l1 & Hl1 & Ht1 & Hx1).
      pose proof (inv_pending_disjoint f Hinv t1 l1 t' l x Hl1 (proj1 Hl) Hx1 Hxl). lia.
  - intros t1 l1 t2 l2 x H1%Hpend H2%Hpend.
    apply (inv_pending_disjoint f Hinv); [apply H1|apply H2].
  - intros t' l Hl%Hpend. apply (inv_pending_nodup f Hinv t' l), Hl.
Qed.

Lemma rollback_keeps_inv (t : Z) (f : freelist) : freelist_inv f → freelist_inv (rollback t f).
Proof.
  intros Hinv. split; [by apply rollback_cache_ok|cbn [rollback ids pending]..].
  - apply (inv_sorted f Hinv).
  - apply (inv_valid f Hinv).
  - intros t' l Hl%lookup_delete_Some. apply (inv_pending_valid f Hinv t' l), Hl.
  - intros x Hx (t' & l & Hl%lookup_delete_Some & Hxl).
    apply (inv_free_pending f Hinv x Hx). exists t', l. split; [apply Hl|done].
  - intros t1 l1 t2 l2 x H1%lookup_delete_Some H2%lookup_delete_Some.
    apply (inv_pending_disjoint f Hinv); [apply H1|apply H2].
  - intros t' l Hl%lookup_delete_Some. apply (inv_pending_nodup f Hinv t' l), Hl.
Qed.

Lemma allocate_keeps_inv (n s : Z) (f f' : freelist) :
  1 ≤ n ≤ max_int → freelist_inv f → allocate n f = Done (s, f') → freelist_inv f'.
Proof.
  intros Hn Hinv Halloc.
  pose proof (allocate_cache_ok n f f' s Hn Hinv Halloc) as Hcache.
  destruct (allocate_outcome f n Hn (inv_sorted f Hinv) (inv_valid f Hinv))
    as [[_ H0]|(s' & Hhas & _ & Hs & Hsorted)]; rewrite Halloc in *.
  - by injection H0 as -> ->.
  - injection Hs as -> ->. split; cbn [ids pending cache].
    + done.
    + done.
    + apply Forall_forall. intros x Hx%list_elem_of_filter.
      pose proof (inv_valid f Hinv) as Hv. unfold valid_ids in Hv.
      rewrite Forall_forall in Hv. apply Hv, Hx.
    + apply (inv_pending_valid f Hinv).
    + intros x Hx%list_elem_of_filter. apply (inv_free_pending f Hinv), Hx.
    + apply (inv_pending_disjoint f Hinv).
    + apply (inv_pending_nodup f Hinv).
Qed.

(** X7. The invariants of the data model (the cache holds the free and the
    pending ids; the free ids ascend strictly and are above 1; no id is
    both free and pending, or pending twice) are kept by [allocate], [free],
    [release] and [rollback]; [allocate] and [release] always return on
    such a freelist. *)
Theorem freelist_inv_preserved (f : freelist) :
  freelist_inv f →
  (∀ n, 1 ≤ n ≤ max_int → ∃ s f', allocate n f = Done (s, f') ∧ freelist_inv f') ∧
  (∀ t p f', page_header_ok p → free t p f = Done f' → freelist_inv f') ∧
  (∀ t, ∃ f', release t f = Done f' ∧ freelist_inv f') ∧
  (∀ t, freelist_inv (rollback t f)).
Proof.
  intros Hinv. split_and!.
  - intros n Hn.
    destruct (allocate_outcome f n Hn (inv_sorted f Hinv) (inv_valid f Hinv))
      as [[_ H0]|(s' & _ & _ & Hs & _)]; eexists _, _; (split; [eassumption|]);
      eapply allocate_keeps_inv; eauto.
  - intros t p f'. by apply free_keeps_inv.
  - intros t. destruct (release_outcome t f) as (f' & Hr & _).
    exists f'. split; [done|]. by apply (release_keeps_inv t f).
  - intros t. by apply rollback_keeps_inv.
Qed.

(** A freelist without pending pages. *)
Lemma freelist_inv_no_pending (l : list Z) :
  strictly_ascending l → valid_ids l →
  freelist_inv {| ids := l; pending := ∅; cache := list_to_set l |}.
Proof.
  intros Hs Hv. split; cbn [ids pending cache].
  - intros x. cbn [ids pending cache]. rewrite elem_of_list_to_set. split; [by left|].
    intros [?|?%not_in_pending_empty]; done.
  - done.
  - done.
  - intros t l' Hl. by rewrite lookup_empty in Hl.
  - by intros x _ ?%not_in_pending_empty.
  - intros t1 l1 t2 l2 x Hl. by rewrite lookup_empty in Hl.
  - intros t l' Hl. by rewrite lookup_empty in Hl.
Qed.

Lemma freelist_s1_inv : freelist_inv freelist_s1.
Proof.
  apply freelist_inv_no_pending.
  - repeat (constructor; [|repeat constructor; lia]). constructor.
  - repeat constructor; by vm_compute.
Qed.

Lemma freelist_inv_preserved_witness :
  ∃ f1 f2, free 7 (page_at 20 1) freelist_s1 = Done f1 ∧ freelist_inv f1 ∧
           release 7 f1 = Done f2 ∧ freelist_inv f2.
Proof.
  assert (Hok : page_header_ok (page_at 20 1)) by (by vm_compute).
  destruct (freelist_inv_preserved freelist_s1 freelist_s1_inv) as (_ & Hfree & _ & _).
  assert (H1 : ∃ f1, free 7 (page_at 20 1) freelist_s1 = Done f1) by (eexists; reflexivity).
  destruct H1 as (f1 & H1).
  pose proof (Hfree 7 (page_at 20 1) f1 Hok H1) as Hinv1.
  destruct (freelist_inv_preserved f1 Hinv1) as (_ & _ & Hrel & _).
  destruct (Hrel 7) as (f2 & H2 & Hinv2).
  exists f1, f2. split; [exact H1|]. split; [exact Hinv1|]. split; [exact H2|exact Hinv2].
Defined.

(** ** [free], [allocate] and [release] together *)

(** X8. After a [free] that returns, [freed] holds of the page and its
    overflow pages, none of which it held of before, and of what it held
    of before; and a second [free] of the same page, by any transaction,
    panics. *)
Theorem free_marks_freed (t : Z) (p : page) (f f' : freelist) :
  page_header_ok p → p_id p + p_overflow p < max_uint64 →
  free t p f = Done f' →
  (∀ x, freed x f' = true ↔ p_id p ≤ x ≤ p_id p + p_overflow p ∨ freed x f = true) ∧
  (∀ x, p_id p ≤ x ≤ p_id p + p_overflow p → freed x f = false) ∧
  (∀ t', free t' p f' = Panicked).
Proof.
  intros Hok Hhi Hfree.
  destruct (free_done_appends t p f f' Hok Hhi Hfree) as (Hid & Hfresh & ->).
  clear Hfree. rewrite Forall_forall in Hfresh. unfold freed. cbn [cache].
  assert (Hrun : ∀ x, x ∈ page_run p ↔ p_id p ≤ x ≤ p_id p + p_overflow p).
  { intros x. unfold page_run. rewrite elem_of_seqZ. lia. }
  split_and!.
  - intros x. rewrite !bool_decide_eq_true, elem_of_union, elem_of_list_to_set.
    by rewrite Hrun.
  - intros x Hx. apply bool_decide_eq_false, Hfresh, Hrun, Hx.
  - intros t'. apply free_taken; [done|done|]. exists (p_id p). cbn [cache].
    destruct Hok as (_ & Hov & _). split; [lia|].
    apply elem_of_union_l, elem_of_list_to_set, Hrun. lia.
Qed.

Lemma free_marks_freed_witness :
  ∃ f', free 10 (page_at 20 2) newFreelist = Done f' ∧
        freed 21 f' = true ∧ free 11 (page_at 20 2) f' = Panicked.
Proof.
  assert (Hok : page_header_ok (page_at 20 2)) by (by vm_compute).
  assert (Hhi : p_id (page_at 20 2) + p_overflow (page_at 20 2) < max_uint64)
    by (by vm_compute).
  assert (H1 : ∃ f', free 10 (page_at 20 2) newFreelist = Done f')
    by (eexists; reflexivity).
  destruct H1 as (f' & H1). exists f'.
  destruct (free_marks_freed 10 (page_at 20 2) newFreelist f' Hok Hhi H1)
    as (Hfreed & _ & Hagain).
  split; [exact H1|]. split; [|exact (Hagain 11)].
  apply (Hfreed 21). left. clear. cbn [p_id p_overflow page_at]. lia.
Defined.

Lemma filter_singleton_release (t : Z) (l : list Z) (m : gmap Z (list Z)) :
  (∀ t' l', m !! t' = Some l' → t < t') →
  filter (λ kv : Z * list Z, kv.1 ≤ t) (<[t := l]> m) = {[t := l]} ∧
  filter (λ kv : Z * list Z, ¬ kv.1 ≤ t) (<[t := l]> m) = m.
Proof.
  intros Hlater. split; apply map_eq; intros k; apply option_eq; intros v.
  - rewrite map_lookup_filter_Some, lookup_insert_Some, lookup_singleton_Some. simpl.
    split; [|intros [-> ->]; split; [by left|lia]].
    intros [[[-> ->]|[_ Hk]] Hle]; [done|]. specialize (Hlater k v Hk). lia.
  - rewrite map_lookup_filter_Some, lookup_insert_Some. simpl. split.
    + intros [[[-> ->]|[_ Hk]] Hle]; [lia|done].
    + intros Hk. pose proof (Hlater k v Hk). split; [|lia]. right. split; [lia|done].
Qed.

Lemma freelist_eq (f g : freelist) :
  ids f = ids g → pending f = pending g → cache f = cache g → f = g.
Proof. destruct f, g. simpl. by intros -> -> ->. Qed.

Lemma all_pending_singleton (t : Z) (l : list Z) : all_pending {[t := l]} = l.
Proof. unfold all_pending. rewrite map_to_list_singleton. simpl. apply app_nil_r. Qed.

(** [allocate], then [free] of the allocated pages by a transaction older
    than the pending ones, then [release], on a freelist within the
    invariants. *)
Lemma allocate_free_release (f f1 : freelist) (n s t : Z) (p : page) :
  freelist_inv f → 1 ≤ n ≤ 2 ^ 32 →
  (∀ t' l, pending f !! t' = Some l → t < t') →
  allocate n f = Done (s, f1) → s ≠ 0 → s + n - 1 < max_uint64 →
  p_id p = s → p_overflow p = n - 1 →
  ∃ f2, free t p f1 = Done f2 ∧ release t f2 = Done f.
Proof.
  intros Hinv Hn Hlater Halloc Hs Hhi Hpid Hpov.
  assert (Hn' : 1 ≤ n ≤ max_int) by (unfold max_int; lia).
  destruct (allocate_outcome f n Hn' (inv_sorted f Hinv) (inv_valid f Hinv))
    as [[_ H0]|(s' & Hhas & _ & Hs' & Hsorted)]; rewrite Halloc in *.
  { injection H0 as -> _. done. }
  injection Hs' as <- ->. clear Halloc.
  assert (Hsin : s ∈ ids f) by (apply Hhas; lia).
  assert (Hsv : 1 < s ≤ max_uint64).
  { pose proof (inv_valid f Hinv) as Hv. unfold valid_ids in Hv.
    rewrite Forall_forall in Hv. by apply Hv. }
  assert (Hok : page_header_ok p).
  { unfold page_header_ok, is_uint64. rewrite Hpid, Hpov. lia. }
  assert (Hrun : page_run p = seqZ s n).
  { unfold page_run. rewrite Hpid, Hpov. f_equal. lia. }
  eexists. split.
  { apply free_appends; [done|lia|lia|]. rewrite Hrun. cbn [cache].
    apply Forall_forall. intros x Hx. rewrite elem_of_difference, elem_of_list_to_set.
    tauto. }
  cbn [ids pending cache]. rewrite Hrun.
  assert (Hnone : pending f !! t = None).
  { destruct (pending f !! t) as [l|] eqn:Hl; [|done]. specialize (Hlater t l Hl). lia. }
  rewrite Hnone. cbn [default app].
  destruct (filter_singleton_release t (seqZ s n) (pending f) Hlater) as (Hold & Hnew).
  destruct (release_outcome t
              {| ids := filter (λ x, ¬ (s ≤ x < s + n)) (ids f);
                 pending := <[t := seqZ s n]> (pending f);
                 cache := list_to_set (seqZ s n) ∪ cache f ∖ list_to_set (seqZ s n) |})
    as (f3 & Hrel & Hp & Hasc & _ & Hcache & _).
  rewrite Hrel. f_equal.
  assert (Hpend3 : pending f3 = pending f).
  { unfold release in Hrel. cbn [pending ids cache] in Hrel.
    destruct (merge _ _) in Hrel; try done. cbn [obind] in Hrel.
    injection Hrel as <-. cbn [pending]. exact Hnew. }
  cbn [ids pending cache] in Hp, Hasc, Hcache. rewrite Hold, all_pending_singleton in Hp.
  assert (Hids3 : ids f3 = ids f).
  { apply ascending_perm_eq.
    - apply Hasc, strictly_ascending_ascending, Hsorted.
    - apply strictly_ascending_ascending, (inv_sorted f Hinv).
    - rewrite Hp. rewrite <- (filter_app_complement (λ x, ¬ (s ≤ x < s + n)) (ids f)) at 2.
      apply Permutation_app_head. apply NoDup_Permutation.
      + apply NoDup_seqZ.
      + apply NoDup_filter, strictly_ascending_NoDup, (inv_sorted f Hinv).
      + intros x. rewrite elem_of_seqZ, list_elem_of_filter. split.
        * intros Hx. split; [tauto|]. apply Hhas. lia.
        * intros [Hx _]. apply dec_stable in Hx. lia. }
  assert (Hcache3 : cache f3 = cache f).
  { rewrite Hcache. apply set_eq. intros x.
    rewrite elem_of_union, elem_of_difference, elem_of_list_to_set, elem_of_seqZ.
    split; [|destruct (decide (s ≤ x < s + n)); tauto].
    intros [Hx|[Hx _]]; [|done]. apply (inv_cache f Hinv). left. apply Hhas. lia. }
  by apply freelist_eq.
Qed.

(** X9. Pages that [allocate] has handed out can be given back: on a
    freelist within the invariants of the data model, [free] of the
    allocated run by a transaction older than every pending one, followed by
    [release] of that transaction, does not panic and restores the
    freelist as it was before the [allocate]. *)
Theorem allocate_free_release_restores (f f1 : freelist) (n s t : Z) (p : page) :
  freelist_inv f → 1 ≤ n ≤ 2 ^ 32 →
  (∀ t' l, pending f !! t' = Some l → t < t') →
  allocate n f = Done (s, f1) → s ≠ 0 → s + n - 1 < max_uint64 →
  p_id p = s → p_overflow p = n - 1 →
  ∃ f2, free t p f1 = Done f2 ∧ release t f2 = Done f.
Proof. apply allocate_free_release. Qed.

Lemma allocate_free_release_restores_witness :
  ∃ f1 f2, allocate 3 freelist_s1 = Done (3, f1) ∧
           free 7 (page_at 3 2) f1 = Done f2 ∧ release 7 f2 = Done freelist_s1.
Proof.
  assert (Hn : 1 ≤ 3 ≤ 2 ^ 32) by lia.
  assert (Hhi : 3 + 3 - 1 < max_uint64) by (by vm_compute).
  assert (Hlater : ∀ t' l, pending freelist_s1 !! t' = Some l → 7 < t').
  { intros t' l Hl. cbn [pending freelist_s1] in Hl. by rewrite lookup_empty in Hl. }
  assert (H3 : (3:Z) ≠ 0) by lia.
  eexists. 
  assert (Halloc : allocate 3 freelist_s1 = Done (3, _)) by (exact allocate_s1_first).
  destruct (allocate_free_release_restores freelist_s1 _ 3 3 7 (page_at 3 2)
              freelist_s1_inv Hn Hlater Halloc H3 Hhi eq_refl eq_refl) as (f2 & Hfree & Hrel).
  exists f2. split; [exact Halloc|]. split; [exact Hfree|exact Hrel].
Defined.

(** ** [read] and [reload] *)

Lemma sort_pgids_nil : sort_pgids [] = [].
Proof. done. Qed.

(** [read] of a page whose count is not the escape value. *)
Lemma read_plain (p : page) (f : freelist) :
  p_count p ≠ 0xFFFF → 0 ≤ p_count p ≤ Z.of_nat (length (pgid_slots p)) →
  read p f =
    Done (reindex {| ids := sort_pgids (take (Z.to_nat (p_count p)) (pgid_slots p));
                     pending := pending f; cache := cache f |}).
Proof.
  intros Hesc Hc. rewrite read_unfold.
  destruct (Z.eqb_spec (p_count p) 0xFFFF) as [?|_]; [done|]. cbv zeta. cbn [fst snd].
  destruct (Z.eqb_spec (p_count p) 0) as [H0|H0].
  - cbn [obind]. by rewrite H0.
  - by rewrite array_slice_to_listed by lia.
Qed.

(** X10. [read] of a freelist page whose count is below the escape value
    0xFFFF takes the first [count] ids of the page, sorted whatever their
    order on the page, as the free ids; it keeps the pending lists and
    rebuilds the cache from the two, dropping what the cache held before. *)
Theorem read_sorts_page (p : page) (f : freelist) :
  p_count p ≠ 0xFFFF → 0 ≤ p_count p ≤ Z.of_nat (length (pgid_slots p)) →
  ∃ f', read p f = Done f' ∧
        ascending (ids f') ∧
        ids f' ≡ₚ take (Z.to_nat (p_count p)) (pgid_slots p) ∧
        pending f' = pending f ∧
        (∀ x, freed x f' = true ↔ x ∈ ids f' ∨ in_pending (pending f) x).
Proof.
  intros Hesc Hc. eexists. split; [by apply read_plain|].
  cbn [reindex ids pending]. split_and!.
  - apply sort_pgids_ascending.
  - apply sort_pgids_perm.
  - done.
  - intros x. unfold freed. rewrite bool_decide_eq_true.
    apply (reindex_cache_ok
             {| ids := sort_pgids (take (Z.to_nat (p_count p)) (pgid_slots p));
                pending := pending f; cache := cache f |} x).
Qed.

Lemma read_sorts_page_witness :
  ∃ f', read {| p_id := 2; p_flags := freelistPageFlag; p_count := 3; p_overflow := 0;
                p_ptr := PgidSlots [9; 5; 7; 4] |} freelist_s3 = Done f' ∧
        ids f' ≡ₚ [9; 5; 7] ∧ ascending (ids f').
Proof.
  destruct (read_sorts_page
              {| p_id := 2; p_flags := freelistPageFlag; p_count := 3; p_overflow := 0;
                 p_ptr := PgidSlots [9; 5; 7; 4] |} freelist_s3)
    as (f' & Hread & Hasc & Hperm & _).
  - done.
  - simpl. lia.
  - exists f'. split; [exact Hread|]. split; [exact Hperm|exact Hasc].
Defined.

Lemma read_keeps_pending (p : page) (f f1 : freelist) :
  read p f = Done f1 → pending f1 = pending f ∧ ascending (ids f1).
Proof.
  rewrite read_unfold. intros Hread.
  destruct (if p_count p =? 65535 then _ else _) as [idx c].
  cbv zeta in Hread. cbn [fst snd] in Hread.
  destruct (c =? 0).
  - cbn [obind] in Hread. injection Hread as <-. split; [done|]. constructor.
  - destruct (array_slice_to (pgid_slots p) c) as [s| |]; [|done..].
    cbn [obind] in Hread. injection Hread as <-. split; [done|].
    apply sort_pgids_ascending.
Qed.

Lemma ascending_filter (P : Z → Prop) `{∀ x, Decision (P x)} (l : list Z) :
  ascending l → ascending (filter P l).
Proof.
  induction 1 as [|x l _ IH Hx]; [constructor|].
  rewrite filter_cons. destruct (decide (P x)); [|done].
  constructor; [done|]. apply Forall_forall. intros y Hy%list_elem_of_filter.
  rewrite Forall_forall in Hx. apply Hx, Hy.
Qed.

Lemma reload_outcome (p : page) (f f1 : freelist) :
  read p f = Done f1 →
  ∃ f', reload p f = Done f' ∧
        (∀ x, x ∈ ids f' ↔ x ∈ ids f1 ∧ ¬ in_pending (pending f) x) ∧
        ascending (ids f') ∧
        pending f' = pending f ∧
        (∀ x, freed x f' = true ↔ x ∈ ids f' ∨ in_pending (pending f) x).
Proof.
  intros Hread. destruct (read_keeps_pending p f f1 Hread) as (Hpend & Hasc).
  unfold reload. rewrite Hread. cbn [obind]. eexists. split; [done|].
  cbn [reindex ids pending]. rewrite foldl_cache_lists. split_and!.
  - intros x. rewrite list_elem_of_filter, elem_of_union, elem_of_list_to_set.
    rewrite <- Hpend, <- elem_of_all_pending. unfold all_pending, pending_lists.
    set_solver.
  - by apply ascending_filter.
  - done.
  - intros x. unfold freed. rewrite bool_decide_eq_true, <- Hpend.
    apply (reindex_cache_ok
             {| ids := filter (λ id, id ∉ list_to_set (concat (pending_lists f1)) ∪ (∅ : gset Z))
                         (ids f1);
                pending := pending f1; cache := cache f1 |} x).
Qed.

(** X11. [reload] is [read] followed by the removal, from the ids read, of
    every id that is pending in a transaction: the free ids stay ascending,
    the pending lists are kept, no id is both free and pending afterwards,
    and the cache holds exactly the free and the pending ids. *)
Theorem reload_drops_pending (p : page) (f f1 : freelist) :
  read p f = Done f1 →
  ∃ f', reload p f = Done f' ∧
        (∀ x, x ∈ ids f' ↔ x ∈ ids f1 ∧ ¬ in_pending (pending f) x) ∧
        ascending (ids f') ∧
        pending f' = pending f ∧
        (∀ x, freed x f' = true ↔ x ∈ ids f' ∨ in_pending (pending f) x).
Proof. apply reload_outcome. Qed.

Lemma reload_drops_pending_witness :
  ∃ f', reload {| p_id := 2; p_flags := freelistPageFlag; p_count := 3; p_overflow := 0;
                  p_ptr := PgidSlots [9; 5; 7; 4] |} freelist_s3 = Done f' ∧
        ∀ x, x ∈ ids f' ↔ x ∈ [5; 7; 9] ∧ ¬ in_pending (pending freelist_s3) x.
Proof.
  destruct (reload_drops_pending
              {| p_id := 2; p_flags := freelistPageFlag; p_count := 3; p_overflow := 0;
                 p_ptr := PgidSlots [9; 5; 7; 4] |} freelist_s3 _ eq_refl)
    as (f' & Hreload & Hids & _).
  exists f'. split; [exact Hreload|exact Hids].
Defined.

(** Scenario: the page holds 9, 5, 7 and 9 is pending in transaction 7. *)
Example reload_s3 :
  reload {| p_id := 2; p_flags := freelistPageFlag; p_count := 3; p_overflow := 0;
            p_ptr := PgidSlots [9; 5; 7; 4] |} freelist_s3 =
    Done {| ids := [5; 7]; pending := {[7 := [9]]}; cache := list_to_set [5; 7; 9] |}.
Proof. by vm_compute. Qed.

(** ** [last], [Last] and [Prev] *)

Lemma rightmost_branch (b : Bucket) (id : Z) (cs : list (list byte * tree)) :
  rightmost b (TBranch id cs) =
    frame b id (Z.of_nat (length cs) - 1) ::
    match last cs with
    | Some c => rightmost b c.2
    | None => []
    end.
Proof.
  cbn [rightmost root_id node_count]. f_equal.
  induction cs as [|c cs IH]; [done|]. destruct cs as [|c' cs]; [done|].
  rewrite IH. done.
Qed.

Lemma rightmost_leaf_branch (id : Z) (cs : list (list byte * tree)) :
  rightmost_leaf (TBranch id cs) =
    match last cs with
    | Some c => rightmost_leaf c.2
    | None => []
    end.
Proof.
  cbn [rightmost_leaf].
  induction cs as [|c cs IH]; [done|]. destruct cs as [|c' cs]; [done|].
  rewrite IH. done.
Qed.

Lemma last_lookup_pred {A} (l : list A) : last l = l !! pred (length l).
Proof. apply last_lookup. Qed.

Section last_facts.
Variable b : Bucket.

Lemma c_last_unfold (fuel : nat) (stack : list elemRef) :
  c_last b (S fuel) stack =
    (ref ←← stack_top stack ;;
     leaf ←← elem_isLeaf ref ;;
     if leaf then Done stack
     else
       pgid ←← child_pgid ref ;;
       count ←← elem_count (frame b pgid 0) ;;
       c_last b fuel (stack ++ [frame b pgid (count - 1)])).
Proof.
  simpl. destruct (stack_top stack) as [ref| |]; [|done..]. simpl.
  destruct (elem_isLeaf ref) as [[|]| |]; [done| |done..]. simpl.
  destruct (child_pgid ref) as [pgid| |]; [|done..]. simpl.
  unfold frame. by destruct (b_pageNode b pgid).
Qed.

(** [last] from the root frame of a subtree, at its last index, goes down
    its rightmost path. *)
Lemma last_rightmost (t : tree) (fuel : nat) (pre : list elemRef) :
  represents b t → (height t < fuel)%nat →
  c_last b fuel (pre ++ [frame b (root_id t) (node_count t - 1)]) =
    Done (pre ++ rightmost b t).
Proof.
  revert fuel pre. induction t as [id es|id cs IH] using tree_ind'; intros fuel pre Hrep Hfuel.
  - destruct fuel as [|fuel]; [lia|]. rewrite c_last_unfold, stack_top_snoc. simpl.
    unfold frame. by rewrite (leaf_isLeaf _ _ (represents_leaf b _ _ Hrep)).
  - destruct fuel as [|fuel]; [lia|]. rewrite c_last_unfold, stack_top_snoc. cbn [obind].
    destruct (represents_branch b _ _ Hrep) as [Hres Hne].
    rewrite rightmost_branch. cbn [root_id node_count].
    destruct (last cs) as [c|] eqn:Hlast; [|by apply last_None in Hlast].
    assert (Hc : cs !! Z.to_nat (Z.of_nat (length cs) - 1) = Some c).
    { rewrite last_lookup_pred in Hlast. rewrite <- Hlast. f_equal. lia. }
    assert (Hlen : (0 < length cs)%nat) by (destruct cs; [done|simpl; lia]).
    unfold frame at 1. rewrite (branch_isLeaf _ _ Hres). cbn [obind].
    fold (frame b id (Z.of_nat (length cs) - 1)).
    rewrite (frame_child b id cs _ c Hrep) by (done || lia). cbn [obind].
    rewrite (frame_count b c.2) by (by eapply represents_child). cbn [obind].
    rewrite Forall_lookup in IH.
    rewrite (IH _ c Hc fuel (pre ++ [frame b id (Z.of_nat (length cs) - 1)])).
    + by rewrite <- app_assoc.
    + by eapply represents_child.
    + pose proof (height_child id cs _ c Hc). lia.
Qed.

(** [last] from a frame somewhere in a node: nothing to do on a leaf, the
    rightmost path of the child under the index on a branch. *)
Lemma last_from (t : tree) (i : Z) (fuel : nat) (pre : list elemRef) :
  represents b t → (height t < fuel)%nat → 0 ≤ i →
  match t with
  | TLeaf _ _ => True
  | TBranch _ cs => is_Some (cs !! Z.to_nat i)
  end →
  c_last b fuel (pre ++ [frame b (root_id t) i]) =
    Done (pre ++ frame b (root_id t) i ::
          match t with
          | TLeaf _ _ => []
          | TBranch _ cs =>
              match cs !! Z.to_nat i with
              | Some c => rightmost b c.2
              | None => []
              end
          end).
Proof.
  intros Hrep Hfuel Hi Hc. destruct fuel as [|fuel]; [lia|].
  rewrite c_last_unfold, stack_top_snoc. cbn [obind].
  destruct t as [id es|id cs].
  - simpl. unfold frame. by rewrite (leaf_isLeaf _ _ (represents_leaf b _ _ Hrep)).
  - destruct Hc as [c Hc]. rewrite Hc.
    destruct (represents_branch b _ _ Hrep) as [Hres Hne].
    cbn [root_id]. unfold frame at 1. rewrite (branch_isLeaf _ _ Hres). cbn [obind].
    fold (frame b id i).
    rewrite (frame_child b id cs i c Hrep) by done. cbn [obind].
    rewrite (frame_count b c.2) by (by eapply represents_child). cbn [obind].
    rewrite last_rightmost.
    + by rewrite <- app_assoc.
    + by apply (represents_child b id cs (Z.to_nat i) c).
    + pose proof (height_child id cs _ c Hc). lia.
Qed.

(** The top of the rightmost path is the last slot of the rightmost leaf. *)
Lemma rightmost_top (t : tree) :
  represents b t →
  ∃ pre id,
    rightmost b t = pre ++ [frame b id (Z.of_nat (length (rightmost_leaf t)) - 1)] ∧
    resolves_leaf (b_pageNode b id) (rightmost_leaf t).
Proof.
  induction t as [id es|id cs IH] using tree_ind'; intros Hrep.
  - exists [], id. split; [done|]. by apply (represents_leaf b).
  - destruct (represents_branch b _ _ Hrep) as [_ Hne].
    rewrite rightmost_branch, rightmost_leaf_branch.
    destruct (last cs) as [c|] eqn:Hlast; [|by apply last_None in Hlast].
    rewrite last_lookup_pred in Hlast. rewrite Forall_lookup in IH.
    destruct (IH _ c Hlast (represents_child b _ _ _ _ Hrep Hlast)) as (pre & id' & -> & Hres).
    by exists (frame b id (Z.of_nat (length cs) - 1) :: pre), id'.
Qed.

Lemma rightmost_keyValue (t : tree) :
  represents b t →
  keyValue (rightmost b t) =
    Done (match last (rightmost_leaf t) with
          | Some x => entry_kv x
          | None => kv_nil
          end).
Proof.
  intros Hrep. destruct (rightmost_top t Hrep) as (pre & id & -> & Hres).
  destruct (rightmost_leaf t) as [|x es] eqn:Hleaf.
  - unfold keyValue. rewrite stack_top_snoc. cbn [obind].
    unfold frame. rewrite (leaf_count _ _ Hres). done.
  - unfold frame. rewrite (leaf_keyValue _ _ Hres) by (simpl; lia).
    rewrite last_lookup_pred.
    replace (Z.to_nat (Z.of_nat (length (x :: es)) - 1)) with (pred (length (x :: es)))
      by lia.
    done.
Qed.

(** The rightmost path of a tree without empty leaves: a cursor on the last
    element, with everything to its left. *)
Lemma rightmost_props (t : tree) :
  represents b t →
  before t (rightmost b t) ++ option_list (here t (rightmost b t)) = entries t ∧
  after t (rightmost b t) = [] ∧
  (no_empty_leaf t →
   cursor_in b t (rightmost b t) ∧ is_Some (here t (rightmost b t))).
Proof.
  induction t as [id es|id cs IH] using tree_ind'; intros Hrep.
  - cbn [rightmost before here after cursor_in root_id node_count frame e_index entries].
    destruct (decide (es = [])) as [->|Hne].
    + split_and!; [done..|]. intros Hnel. by inversion Hnel.
    + assert (Hlen : (0 < length es)%nat) by (destruct es; [done|simpl; lia]).
      destruct (lookup_lt_is_Some_2 es (Z.to_nat (Z.of_nat (length es) - 1))) as [x Hx]; [lia|].
      rewrite Hx. split_and!.
      * rewrite <- (take_drop_middle es _ x Hx) at 3.
        rewrite drop_ge by lia. done.
      * apply drop_ge. lia.
      * intros _. split_and!; [done|lia|done|by eexists].
  - destruct (represents_branch b _ _ Hrep) as [_ Hne].
    rewrite rightmost_branch, entries_branch.
    destruct (last cs) as [c|] eqn:Hlast; [|by apply last_None in Hlast].
    rewrite last_lookup_pred in Hlast.
    assert (Hlen : (0 < length cs)%nat) by (destruct cs; [done|simpl; lia]).
    assert (Hc : cs !! Z.to_nat (Z.of_nat (length cs) - 1) = Some c).
    { rewrite <- Hlast. f_equal. lia. }
    rewrite Forall_lookup in IH.
    destruct (IH _ c Hlast (represents_child b _ _ _ _ Hrep Hlast)) as (Hent & Hafter & Hcur).
    cbn [before here after cursor_in root_id frame e_index]. rewrite Hc.
    split_and!.
    + rewrite <- app_assoc, Hent. rewrite (children_split cs _ c Hc) at 3.
      rewrite children_entries_app, children_entries_cons.
      rewrite (drop_ge cs) by lia. unfold children_entries at 3. simpl.
      by rewrite app_nil_r.
    + rewrite Hafter. rewrite drop_ge by lia. done.
    + intros Hnel. inversion Hnel as [|? ? Hall]; subst.
      rewrite Forall_lookup in Hall.
      destruct (Hcur (Hall _ c Hlast)) as [Hcur' Hsome].
      split_and!; [done|lia|done|done].
Qed.
Lemma rightmost_here (t : tree) :
  represents b t → here t (rightmost b t) = last (rightmost_leaf t).
Proof.
  induction t as [id es|id cs IH] using tree_ind'; intros Hrep.
  - cbn [rightmost here root_id node_count frame e_index rightmost_leaf].
    rewrite last_lookup_pred. destruct es as [|x es]; [done|]. f_equal. simpl. lia.
  - destruct (represents_branch b _ _ Hrep) as [_ Hne].
    rewrite rightmost_branch, rightmost_leaf_branch.
    destruct (last cs) as [c|] eqn:Hlast; [|by apply last_None in Hlast].
    rewrite last_lookup_pred in Hlast.
    assert (Hlen : (0 < length cs)%nat) by (destruct cs; [done|simpl; lia]).
    assert (Hc : cs !! Z.to_nat (Z.of_nat (length cs) - 1) = Some c).
    { rewrite <- Hlast. f_equal. lia. }
    cbn [here frame e_index]. rewrite Hc.
    rewrite Forall_lookup in IH. apply (IH _ c Hlast).
    by eapply represents_child.
Qed.
End last_facts.

(** ** [Prev] *)

Lemma prev_scan_step (stack : list elemRef) (i : nat) (e : elemRef) :
  stack !! i = Some e →
  prev_scan stack (S i) =
    if 0 <? e_index e then Done (<[i := with_index e (e_index e - 1)]> stack)
    else prev_scan (take i stack) i.
Proof. intros He. simpl. by rewrite He. Qed.

Section backs.
Variable b : Bucket.

Lemma scan_last_top (fuel : nat) (pre : list elemRef) (e : elemRef) :
  scan_last b fuel (pre ++ [e]) (S (length pre)) =
    if 0 <? e_index e then c_last b fuel (pre ++ [with_index e (e_index e - 1)])
    else scan_last b fuel pre (length pre).
Proof.
  unfold scan_last. rewrite (prev_scan_step _ _ e) by (by apply list_lookup_middle).
  destruct (0 <? e_index e).
  - cbn [obind]. rewrite insert_app_r_alt, Nat.sub_diag by lia. cbn [insert list_insert].
    rewrite length_app. cbn [length]. by rewrite Nat.add_1_r.
  - by rewrite take_app_length.
Qed.

(** The loop of [Prev] over the part of the stack that is a cursor in [t],
    then [last]: one step [back], or the loop goes on in the frames above. *)
Lemma scan_last_back (st : list elemRef) (t : tree) (pre : list elemRef) (fuel : nat) :
  represents b t → cursor_in b t st → (height t < fuel)%nat →
  scan_last b fuel (pre ++ st) (length pre + length st) =
    match back b t st with
    | Some st' => Done (pre ++ st')
    | None => scan_last b fuel pre (length pre)
    end.
Proof.
  revert t pre. induction st as [|e rest IH]; intros t pre Hrep Hcur Hfuel; [done|].
  destruct (cursor_in_cons b _ _ _ Hcur) as [He Hidx].
  assert (Hw : with_index e (e_index e - 1) = frame b (root_id t) (e_index e - 1)).
  { rewrite He at 1. done. }
  destruct t as [id es|id cs]; cbn [cursor_in back] in Hcur |- *.
  - destruct Hcur as (_ & _ & ->). cbn [length]. rewrite Nat.add_1_r, scan_last_top.
    destruct (Z.ltb_spec 0 (e_index e)) as [Hpos|Hle]; [|done].
    rewrite Hw. rewrite (last_from b (TLeaf id es)) by (done || lia). done.
  - destruct Hcur as (_ & _ & Hcur).
    destruct (cs !! Z.to_nat (e_index e)) as [c|] eqn:Hc; [|done].
    replace (pre ++ e :: rest) with ((pre ++ [e]) ++ rest) by (by rewrite <- app_assoc).
    replace (length pre + length (e :: rest))%nat
      with (length (pre ++ [e]) + length rest)%nat by (rewrite length_app; simpl; lia).
    rewrite (IH c.2 (pre ++ [e])); [|by eapply represents_child|done|].
    2:{ pose proof (height_child id cs _ c Hc). lia. }
    destruct (back b c.2 rest) as [rest'|]; [by rewrite <- app_assoc|].
    rewrite length_app, Nat.add_1_r. cbn [length]. rewrite scan_last_top.
    destruct (Z.ltb_spec 0 (e_index e)) as [Hpos|Hle]; [|done].
    rewrite Hw. rewrite (last_from b (TBranch id cs)); [done|done|done|lia|].
    apply lookup_lt_is_Some_2. apply lookup_lt_Some in Hc. lia.
Qed.

(** With an element under the cursor, what is to its left, the element and
    what is to its right make up the tree. *)
Lemma cursor_split (st : list elemRef) (t : tree) :
  cursor_in b t st → is_Some (here t st) →
  before t st ++ option_list (here t st) ++ after t st = entries t.
Proof.
  revert t. induction st as [|e rest IH]; intros t Hcur Hsome; [done|].
  destruct t as [id es|id cs]; cbn [cursor_in before here after] in *.
  - destruct Hsome as [x Hx]. rewrite Hx. simpl. apply take_drop_middle, Hx.
  - destruct Hcur as (_ & _ & Hcur).
    destruct (cs !! Z.to_nat (e_index e)) as [c|] eqn:Hc; [|done].
    rewrite entries_branch.
    transitivity (children_entries (take (Z.to_nat (e_index e)) cs ++
                                    c :: drop (S (Z.to_nat (e_index e))) cs));
      [|by rewrite <- (children_split cs _ c Hc)].
    rewrite children_entries_app, children_entries_cons.
    rewrite <- (IH c.2 Hcur Hsome). by rewrite <- !app_assoc.
Qed.

(** What a step back does to a cursor: the element it lands on is the last
    of those that were to the left; when no frame can move, nothing was to
    the left. *)
Lemma back_props (st : list elemRef) (t : tree) :
  represents b t → cursor_in b t st →
  match back b t st with
  | Some st' =>
      before t st' ++ option_list (here t st') = before t st ∧
      (no_empty_leaf t → is_Some (here t st) →
       cursor_in b t st' ∧ is_Some (here t st'))
  | None => before t st = []
  end.
Proof.
  revert t. induction st as [|e rest IH]; intros t Hrep Hcur; [done|].
  destruct (cursor_in_cons b _ _ _ Hcur) as [He Hidx].
  assert (Hw : with_index e (e_index e - 1) = frame b (root_id t) (e_index e - 1)).
  { rewrite He at 1. done. }
  destruct t as [id es|id cs]; cbn [cursor_in back before here] in *.
  - destruct Hcur as (_ & _ & ->).
    destruct (Z.ltb_spec 0 (e_index e)) as [Hpos|Hle].
    + assert (Hprev : Z.to_nat (e_index e) = S (Z.to_nat (e_index e - 1))) by lia.
      cbn [before here cursor_in]. rewrite Hw. cbn [e_index frame root_id].
      split.
      * rewrite Hprev. destruct (es !! Z.to_nat (e_index e - 1)) as [x|] eqn:Hx.
        -- simpl. symmetry. by apply take_S_r.
        -- simpl. rewrite app_nil_r. apply lookup_ge_None in Hx.
           by rewrite !take_ge by lia.
      * intros _ [x Hx]. split_and!; [done|lia|done|].
        apply lookup_lt_is_Some_2. apply lookup_lt_Some in Hx. lia.
    + replace (e_index e) with 0 by lia. done.
  - destruct Hcur as (_ & _ & Hcur).
    destruct (cs !! Z.to_nat (e_index e)) as [c|] eqn:Hc; [|done].
    specialize (IH c.2 (represents_child b _ _ _ _ Hrep Hc) Hcur).
    destruct (back b c.2 rest) as [rest'|].
    + destruct IH as (Hent & Hkeep).
      cbn [before here cursor_in]. rewrite Hc. split.
      * by rewrite <- app_assoc, Hent.
      * intros Hnel Hsome. inversion Hnel as [|? ? Hall]; subst.
        rewrite Forall_lookup in Hall.
        destruct (Hkeep (Hall _ c Hc) Hsome) as [Hcur' Hsome'].
        split_and!; done.
    + destruct (Z.ltb_spec 0 (e_index e)) as [Hpos|Hle].
      * assert (Hprev : Z.to_nat (e_index e) = S (Z.to_nat (e_index e - 1))) by lia.
        destruct (lookup_lt_is_Some_2 cs (Z.to_nat (e_index e - 1))) as [c' Hc'].
        { apply lookup_lt_Some in Hc. lia. }
        rewrite Hc'.
        destruct (rightmost_props b c'.2 (represents_child b _ _ _ _ Hrep Hc'))
          as (Hent & _ & Hcur').
        cbn [before here cursor_in]. rewrite Hw. cbn [e_index frame root_id].
        rewrite Hc', IH, app_nil_r. split.
        -- rewrite <- app_assoc, Hent. rewrite Hprev.
           rewrite (take_S_r cs _ c' Hc'), children_entries_app.
           unfold children_entries at 3. simpl. by rewrite app_nil_r.
        -- intros Hnel _. inversion Hnel as [|? ? Hall]; subst.
           rewrite Forall_lookup in Hall.
           destruct (Hcur' (Hall _ c' Hc')) as [Hcur'' Hsome'].
           split_and!; [done|lia|done|done].
      * replace (e_index e) with 0 by lia. rewrite IH. done.
Qed.
End backs.

(** ** Moving the cursor backwards *)

Lemma c_last_nonempty (b : Bucket) (fuel : nat) (s s' : list elemRef) :
  c_last b fuel s = Done s' → s' ≠ [].
Proof.
  revert s. induction fuel as [|fuel IH]; intros s; [done|].
  rewrite c_last_unfold. destruct s as [|e s] using rev_ind; [done|].
  rewrite stack_top_snoc. cbn [obind].
  destruct (elem_isLeaf e) as [[|]| |]; cbn [obind]; [|  |done..].
  - intros [= <-]. by destruct s.
  - destruct (child_pgid e) as [pgid| |]; cbn [obind]; [|done..].
    destruct (elem_count (frame b pgid 0)) as [c| |]; cbn [obind]; [|done..].
    apply IH.
Qed.

Lemma back_nonempty (b : Bucket) (t : tree) (st st' : list elemRef) :
  back b t st = Some st' → st' ≠ [].
Proof.
  destruct st as [|e rest]; [done|]. destruct t as [id es|id cs]; cbn [back].
  - destruct (0 <? e_index e); [|done]. by intros [= <-].
  - destruct (match cs !! Z.to_nat (e_index e) with
              | Some c => back b c.2 rest
              | None => None
              end); [by intros [= <-]|].
    destruct (0 <? e_index e); [|done]. by intros [= <-].
Qed.

Lemma entries_rightmost_leaf (t : tree) : ∃ pre, entries t = pre ++ rightmost_leaf t.
Proof.
  induction t as [id es|id cs IH] using tree_ind'; [by exists []|].
  rewrite entries_branch, rightmost_leaf_branch.
  destruct (last cs) as [c|] eqn:Hlast.
  - apply last_Some in Hlast as [cs' ->].
    apply Forall_app in IH as [_ IH]. apply Forall_singleton in IH as [pre Hpre].
    exists (children_entries cs' ++ pre).
    rewrite children_entries_app, <- app_assoc. f_equal.
    unfold children_entries. simpl. by rewrite app_nil_r.
  - apply last_None in Hlast as ->. by exists [].
Qed.

Section last_move.
Variable b : Bucket.
Variable t : tree.
Hypothesis Hbucket : bucket_of b t.
Variable fuel : nat.
Hypothesis Hfuel : (height t < fuel)%nat.

Lemma Last_rightmost :
  Last b fuel = Done (rightmost b t, returned (last (rightmost_leaf t))).
Proof.
  pose proof (bucket_represents b t Hbucket) as Hrep. destruct Hbucket as (_ & Hroot & _).
  unfold Last. rewrite (assert_open_ok b t Hbucket). cbn [obind].
  destruct (b_pageNode b (b_root b)) as [p n] eqn:Hpn.
  change {| e_page := p; e_node := n; e_index := 0 |}
    with {| e_page := (p, n).1; e_node := (p, n).2; e_index := 0 |}.
  rewrite <- Hpn. fold (frame b (b_root b) 0). rewrite Hroot.
  rewrite (frame_count b t 0 Hrep). cbn [obind]. rewrite with_index_frame.
  pose proof (last_rightmost b t fuel [] Hrep Hfuel) as Hlast. cbn [app] in Hlast.
  rewrite Hlast. cbn [obind].
  rewrite (rightmost_keyValue b t Hrep). cbn [obind].
  destruct (last (rightmost_leaf t)) as [x|].
  - by rewrite hide_bucket_value_entry.
  - by rewrite hide_bucket_value_nil.
Qed.

Lemma Prev_back (st : list elemRef) :
  cursor_in b t st →
  match back b t st with
  | Some st' => Prev b fuel st = (r ←← keyValue st' ;; Done (st', hide_bucket_value r))
  | None => Prev b fuel st = Done ([], (None, None))
  end.
Proof.
  intros Hcur. pose proof (bucket_represents b t Hbucket) as Hrep.
  pose proof (scan_last_back b st t [] fuel Hrep Hcur Hfuel) as Hscan.
  cbn [app length Nat.add] in Hscan.
  unfold Prev. rewrite (assert_open_ok b t Hbucket). cbn [obind].
  unfold scan_last in Hscan.
  destruct (prev_scan st (length st)) as [s| |]; cbn [obind] in Hscan |- *.
  - destruct (back b t st) as [st'|] eqn:Hback.
    + destruct (Nat.eqb_spec (length s) 0) as [Hnil|_].
      * injection Hscan as ->. apply nil_length_inv in Hnil. subst st'.
        by destruct (back_nonempty b t st [] Hback).
      * by rewrite Hscan.
    + cbn [prev_scan obind length] in Hscan.
      destruct (Nat.eqb_spec (length s) 0) as [Hnil|_].
      * apply nil_length_inv in Hnil. by subst s.
      * by destruct (c_last_nonempty b fuel s [] Hscan).
  - by destruct (back b t st).
  - by destruct (back b t st).
Qed.
End last_move.

(** ** The cursor as a position in the sequence of elements *)

Lemma cursor_moves_app (b : Bucket) (fuel : nat) (ms1 ms2 : list move)
    (sr : list elemRef * (option (list byte) * option (list byte))) :
  cursor_moves b fuel (ms1 ++ ms2) sr =
    (r ←← cursor_moves b fuel ms1 sr ;; cursor_moves b fuel ms2 r).
Proof.
  revert sr. induction ms1 as [|m ms1 IH]; intros sr; [done|].
  cbn [app cursor_moves]. destruct (cursor_move b fuel m sr.1) as [r| |]; [|done..].
  cbn [obind]. apply IH.
Qed.

Lemma cursor_run_snoc (b : Bucket) (fuel : nat) (ms : list move) (m : move) :
  cursor_run b fuel (ms ++ [m]) =
    (r ←← cursor_run b fuel ms ;; cursor_move b fuel m r.1).
Proof.
  unfold cursor_run. rewrite cursor_moves_app.
  destruct (cursor_moves b fuel ms ([], (None, None))) as [r| |]; [|done..].
  cbn [obind cursor_moves]. by destruct (cursor_move b fuel m r.1).
Qed.

Section positions.
Variable b : Bucket.
Variable t : tree.
Hypothesis Hbucket : bucket_of b t.
Variable fuel : nat.
Hypothesis Hfuel : (height t + leaves t < fuel)%nat.

Lemma on_element_of_after (n : nat) (st : list elemRef) :
  cursor_in b t st → (n < length (entries t))%nat →
  here t st = entries t !! n → after t st = drop (S n) (entries t) →
  on_element b t n st.
Proof.
  intros Hcur Hn Hhere Hafter. split_and!; [done..| |done].
  destruct (lookup_lt_is_Some_2 (entries t) n Hn) as [x Hx].
  pose proof (cursor_split b st t Hcur) as Hsplit.
  rewrite Hhere, Hx, Hafter in Hsplit. specialize (Hsplit ltac:(by eexists)).
  pose proof (take_drop_middle (entries t) n x Hx) as Hmid.
  rewrite <- Hmid in Hsplit at 2. cbn [option_list] in Hsplit.
  by apply (app_inv_tail ([x] ++ drop (S n) (entries t))) in Hsplit.
Qed.

Lemma on_element_of_before (n : nat) (st : list elemRef) :
  cursor_in b t st → (n < length (entries t))%nat →
  here t st = entries t !! n → before t st = take n (entries t) →
  on_element b t n st.
Proof.
  intros Hcur Hn Hhere Hbefore. split_and!; [done..|].
  destruct (lookup_lt_is_Some_2 (entries t) n Hn) as [x Hx].
  pose proof (cursor_split b st t Hcur) as Hsplit.
  rewrite Hhere, Hx, Hbefore in Hsplit. specialize (Hsplit ltac:(by eexists)).
  pose proof (take_drop_middle (entries t) n x Hx) as Hmid.
  rewrite <- Hmid in Hsplit at 2. cbn [option_list] in Hsplit.
  apply app_inv_head in Hsplit. simpl in Hsplit. by injection Hsplit.
Qed.

Lemma on_element_at (n : nat) (st : list elemRef) :
  on_element b t n st → at_element b t n st.
Proof.
  intros (Hcur & Hn & Hhere & _ & Hafter). split_and!; [done..|]. intros _ ?. lia.
Qed.

Lemma First_on :
  entries t ≠ [] →
  ∃ st, First b fuel = Done (st, returned (entries t !! 0%nat)) ∧ on_element b t 0 st.
Proof.
  intros Hne. destruct (First_spec b t Hbucket fuel Hfuel) as (st & HFirst & Hat).
  exists st. split; [done|]. destruct Hat as (Hcur & Hafter & Hhere & _).
  assert (0 < length (entries t))%nat by (destruct (entries t); [done|simpl; lia]).
  apply on_element_of_after; auto.
Qed.

Lemma Next_on (n : nat) (st : list elemRef) :
  on_element b t n st → (S n < length (entries t))%nat →
  ∃ st', Next b fuel st = Done (st', returned (entries t !! S n)) ∧
         on_element b t (S n) st'.
Proof.
  intros Hon Hn.
  destruct (Next_spec b t Hbucket fuel Hfuel n st (on_element_at n st Hon))
    as (st' & HNext & (Hcur & Hafter & Hhere & _) & _).
  exists st'. split; [done|]. apply on_element_of_after; auto.
Qed.

Lemma Next_on_last (n : nat) (st : list elemRef) :
  on_element b t n st → S n = length (entries t) → no_empty_leaf t →
  Next b fuel st = Done (st, (None, None)).
Proof.
  intros Hon Hn Hnel.
  destruct (Next_spec b t Hbucket fuel Hfuel n st (on_element_at n st Hon))
    as (st' & HNext & _ & Hstay).
  rewrite (Hstay Hnel ltac:(lia)) in HNext. rewrite HNext.
  by rewrite (proj2 (lookup_ge_None _ _)) by lia.
Qed.

Lemma Last_on :
  no_empty_leaf t →
  ∃ x, last (entries t) = Some x ∧
       Last b fuel = Done (rightmost b t, returned (Some x)) ∧
       on_element b t (pred (length (entries t))) (rightmost b t).
Proof.
  intros Hnel. pose proof (bucket_represents b t Hbucket) as Hrep.
  destruct (rightmost_props b t Hrep) as (Hent & Hafter & Hcur).
  destruct (Hcur Hnel) as [Hcur' [x Hx]]. rewrite Hx in Hent. simpl in Hent.
  assert (Hlen : length (entries t) = S (length (before t (rightmost b t)))).
  { rewrite <- Hent, length_app. simpl. lia. }
  exists x. split_and!.
  - rewrite <- Hent. apply last_snoc.
  - rewrite (Last_rightmost b t Hbucket fuel) by lia.
    by rewrite <- (rightmost_here b t Hrep), Hx.
  - rewrite Hlen. cbn [pred]. apply on_element_of_before; [done|lia| |].
    + rewrite Hx, <- Hent. symmetry. apply list_lookup_middle. done.
    + rewrite <- Hent. by rewrite take_app_length.
Qed.

Lemma Prev_on (n : nat) (st : list elemRef) :
  on_element b t n st → no_empty_leaf t →
  match n with
  | O => Prev b fuel st = Done ([], (None, None))
  | S m => ∃ st', Prev b fuel st = Done (st', returned (entries t !! m)) ∧
                  on_element b t m st'
  end.
Proof.
  intros (Hcur & Hn & Hhere & Hbefore & _) Hnel.
  pose proof (bucket_represents b t Hbucket) as Hrep.
  pose proof (Prev_back b t Hbucket fuel ltac:(lia) st Hcur) as HPrev.
  pose proof (back_props b st t Hrep Hcur) as Hprops.
  assert (Hsome : is_Some (here t st)).
  { rewrite Hhere. by apply lookup_lt_is_Some_2. }
  destruct (back b t st) as [st'|].
  - destruct Hprops as (Hent & Hkeep).
    destruct (Hkeep Hnel Hsome) as [Hcur' [x Hx]].
    rewrite Hx, Hbefore in Hent. simpl in Hent.
    destruct n as [|m].
    { simpl in Hent. by destruct (before t st'). }
    destruct (lookup_lt_is_Some_2 (entries t) m ltac:(lia)) as [y Hy].
    rewrite (take_S_r _ _ _ Hy) in Hent. apply app_inj_tail in Hent as [Hb ->].
    exists st'. split.
    + rewrite HPrev, (cursor_keyValue b st' t Hrep Hcur'), Hx. cbn [obind].
      by rewrite hide_bucket_value_entry, Hy.
    + apply on_element_of_before; [done|lia|by rewrite Hx, Hy|done].
  - destruct n as [|m]; [done|].
    destruct (lookup_lt_is_Some_2 (entries t) m ltac:(lia)) as [y Hy].
    rewrite Hbefore, (take_S_r _ _ _ Hy) in Hprops. by destruct (take m (entries t)).
Qed.

Lemma entries_nonempty : no_empty_leaf t → entries t ≠ [].
Proof.
  intros Hnel. pose proof (bucket_represents b t Hbucket) as Hrep.
  destruct (rightmost_props b t Hrep) as (Hent & _ & Hcur).
  destruct (Hcur Hnel) as [_ [x Hx]]. rewrite Hx in Hent. rewrite <- Hent.
  by destruct (before t (rightmost b t)).
Qed.

(** [First] and [n] calls of [Next], within the tree. *)
Lemma run_forward (n : nat) :
  (n < length (entries t))%nat →
  ∃ st, cursor_run b fuel (MFirst :: replicate n MNext) =
          Done (st, returned (entries t !! n)) ∧
        on_element b t n st.
Proof.
  induction n as [|n IH]; intros Hn.
  - destruct First_on as (st & HFirst & Hon).
    { intros He. rewrite He in Hn. simpl in Hn. lia. }
    exists st. split; [|done]. unfold cursor_run. cbn [replicate cursor_moves cursor_move].
    by rewrite HFirst.
  - destruct (IH ltac:(lia)) as (st & Hrun & Hon).
    destruct (Next_on n st Hon Hn) as (st' & HNext & Hon').
    exists st'. split; [|done].
    rewrite replicate_S_end, app_comm_cons, cursor_run_snoc, Hrun. done.
Qed.

(** [Last] and [n] calls of [Prev], within the tree. *)
Lemma run_backward (n : nat) :
  no_empty_leaf t → (n < length (entries t))%nat →
  ∃ st, cursor_run b fuel (MLast :: replicate n MPrev) =
          Done (st, returned (entries t !! (pred (length (entries t)) - n)%nat)) ∧
        on_element b t (pred (length (entries t)) - n) st.
Proof.
  intros Hnel. induction n as [|n IH]; intros Hn.
  - destruct (Last_on Hnel) as (x & Hx & HLast & Hon).
    exists (rightmost b t). rewrite Nat.sub_0_r. split; [|done].
    unfold cursor_run. cbn [replicate cursor_moves cursor_move].
    rewrite HLast. cbn [obind]. by rewrite <- last_lookup, Hx.
  - destruct (IH ltac:(lia)) as (st & Hrun & Hon).
    pose proof (Prev_on _ st Hon Hnel) as HPrev.
    replace (pred (length (entries t)) - n)%nat
      with (S (pred (length (entries t)) - S n)) in HPrev by lia.
    destruct HPrev as (st' & HPrev & Hon').
    exists st'. split; [|done].
    rewrite replicate_S_end, app_comm_cons, cursor_run_snoc, Hrun. done.
Qed.

(** With an empty stack [Next] and [Prev] return (nil, nil). *)
Lemma moves_on_empty_stack (ms : list move) :
  Forall (λ m, m = MNext ∨ m = MPrev) ms →
  cursor_moves b fuel ms ([], (None, None)) = Done ([], (None, None)).
Proof.
  induction 1 as [|m ms [-> | ->] _ IH]; [done|..]; cbn [cursor_moves cursor_move fst].
  - unfold Next. rewrite (assert_open_ok b t Hbucket). cbn [obind].
    destruct fuel as [|fuel']; [lia|]. done.
  - unfold Prev. rewrite (assert_open_ok b t Hbucket). done.
Qed.
End positions.

(** ** [Last], [Prev] and [Next] together *)

(** X12. [Last] returns the last element of the rightmost leaf: the last
    element of the tree when that leaf has elements, and (nil, nil) when it
    has none, whatever the other leaves hold. *)
Theorem Last_returns_last (b : Bucket) (t : tree) (fuel : nat) :
  bucket_of b t → (height t < fuel)%nat →
  (rightmost_leaf t ≠ [] →
   ∃ st, Last b fuel = Done (st, returned (last (entries t)))) ∧
  (rightmost_leaf t = [] → ∃ st, Last b fuel = Done (st, (None, None))).
Proof.
  intros Hbucket Hfuel. rewrite (Last_rightmost b t Hbucket fuel Hfuel). split.
  - intros Hne. eexists. do 3 f_equal.
    destruct (entries_rightmost_leaf t) as [pre ->]. rewrite last_app.
    destruct (last (rightmost_leaf t)) eqn:Hlast; [done|].
    by apply last_None in Hlast.
  - intros ->. by eexists.
Qed.

Lemma Last_returns_last_witness :
  ∃ st, Last bucket_s6 2 = Done (st, (Some [x64], Some [x34])).
Proof.
  destruct (Last_returns_last bucket_s6 tree_s6 2) as (Hlast & _).
  - split_and!; [done|done|apply represents_s6].
  - simpl. lia.
  - apply Hlast. done.
Defined.

(** [Last] does not look for an element to the left of an empty rightmost
    leaf, as [First] does to the right of an empty leftmost one. *)
Example Last_trailing_empty_leaf :
  snd <$> (match Last bucket_trailing 4 with Done r => Some r | _ => None end) =
    Some (None, None) ∧
  entries tree_trailing = [leaf_elem x61 x31].
Proof. by vm_compute. Qed.

Section back_and_forth.
Variable b : Bucket.
Variable t : tree.
Hypothesis Hbucket : bucket_of b t.
Hypothesis Hnel : no_empty_leaf t.
Variable fuel : nat.
Hypothesis Hfuel : (height t + leaves t < fuel)%nat.

Lemma run_backward_off (ms : list move) :
  Forall (λ m, m = MNext ∨ m = MPrev) ms →
  cursor_run b fuel (MLast :: replicate (length (entries t)) MPrev ++ ms) =
    Done ([], (None, None)).
Proof.
  intros Hms. pose proof (entries_nonempty b t Hbucket Hnel) as Hne.
  assert (Hlen : length (entries t) = S (pred (length (entries t)))).
  { destruct (entries t); [done|simpl; lia]. }
  destruct (run_backward b t Hbucket fuel Hfuel (pred (length (entries t))) Hnel ltac:(lia))
    as (st & Hrun & Hon).
  rewrite Nat.sub_diag in Hon.
  pose proof (Prev_on b t Hbucket fuel Hfuel 0 st Hon Hnel) as HPrev. cbn beta iota in HPrev.
  rewrite Hlen at 1. rewrite replicate_S_end, <- app_assoc, app_comm_cons.
  unfold cursor_run in *. rewrite cursor_moves_app, Hrun. cbn [obind app cursor_moves cursor_move fst].
  rewrite HPrev. cbn [obind]. by apply (moves_on_empty_stack b t Hbucket fuel Hfuel).
Qed.

Lemma run_backward_all (n : nat) :
  ∃ st, cursor_run b fuel (MLast :: replicate n MPrev) =
          Done (st, returned (reverse (entries t) !! n)).
Proof.
  destruct (decide (n < length (entries t))%nat) as [Hlt|Hge].
  - destruct (run_backward b t Hbucket fuel Hfuel n Hnel Hlt) as (st & Hrun & _).
    exists st. rewrite Hrun. do 3 f_equal. rewrite reverse_lookup by done.
    f_equal. lia.
  - exists []. replace n with (length (entries t) + (n - length (entries t)))%nat by lia.
    rewrite replicate_add, run_backward_off.
    + rewrite (proj2 (lookup_ge_None _ _)); [done|]. rewrite length_reverse. lia.
    + apply Forall_replicate. by right.
Qed.

Lemma Next_then_Prev (n : nat) :
  (S n < length (entries t))%nat →
  ∃ st, cursor_run b fuel (MFirst :: replicate n MNext ++ [MNext; MPrev]) =
          Done (st, returned (entries t !! n)).
Proof.
  intros Hn.
  destruct (run_forward b t Hbucket fuel Hfuel (S n) Hn) as (st & Hrun & Hon).
  destruct (Prev_on b t Hbucket fuel Hfuel (S n) st Hon Hnel) as (st' & HPrev & _).
  exists st'.
  replace (MFirst :: replicate n MNext ++ [MNext; MPrev])
    with ((MFirst :: replicate (S n) MNext) ++ [MPrev])
    by (rewrite replicate_S_end; cbn [app]; by rewrite <- app_assoc).
  rewrite cursor_run_snoc, Hrun. done.
Qed.

Lemma Prev_then_Next (n : nat) :
  (S n < length (entries t))%nat →
  ∃ st, cursor_run b fuel (MFirst :: replicate (S n) MNext ++ [MPrev; MNext]) =
          Done (st, returned (entries t !! S n)).
Proof.
  intros Hn.
  destruct (run_forward b t Hbucket fuel Hfuel (S n) Hn) as (st & Hrun & Hon).
  destruct (Prev_on b t Hbucket fuel Hfuel (S n) st Hon Hnel) as (st' & HPrev & Hon').
  destruct (Next_on b t Hbucket fuel Hfuel n st' Hon' Hn) as (st'' & HNext & _).
  exists st''.
  replace (MFirst :: replicate (S n) MNext ++ [MPrev; MNext])
    with (((MFirst :: replicate (S n) MNext) ++ [MPrev]) ++ [MNext])
    by (cbn [app]; by rewrite <- app_assoc).
  rewrite !cursor_run_snoc, Hrun. cbn [obind cursor_move fst].
  rewrite HPrev. done.
Qed.

Lemma Prev_off_first (ms : list move) :
  Forall (λ m, m = MNext ∨ m = MPrev) ms →
  cursor_run b fuel (MFirst :: MPrev :: ms) = Done ([], (None, None)).
Proof.
  intros Hms. pose proof (entries_nonempty b t Hbucket Hnel) as Hne.
  destruct (First_on b t Hbucket fuel Hfuel Hne) as (st & HFirst & Hon).
  pose proof (Prev_on b t Hbucket fuel Hfuel 0 st Hon Hnel) as HPrev. cbn beta iota in HPrev.
  unfold cursor_run. cbn [cursor_moves cursor_move fst]. rewrite HFirst. cbn [obind fst].
  rewrite HPrev. cbn [obind]. by apply (moves_on_empty_stack b t Hbucket fuel Hfuel).
Qed.
End back_and_forth.

(** X13. In a tree without empty leaves [Last()] followed by calls of
    [Prev()] returns the elements of the tree from the last to the first,
    the [n]-th call of [Prev] the [n]-th element from the end, and
    (nil, nil) once the first element has been passed. *)
Theorem Last_Prev_reverse_order (b : Bucket) (t : tree) (fuel : nat) (n : nat) :
  bucket_of b t → no_empty_leaf t → (height t + leaves t < fuel)%nat →
  ∃ st, cursor_run b fuel (MLast :: replicate n MPrev) =
          Done (st, returned (reverse (entries t) !! n)).
Proof. intros Hbucket Hnel Hfuel. by apply run_backward_all. Qed.

Lemma no_empty_leaf_s6 : no_empty_leaf tree_s6.
Proof. repeat constructor; done. Qed.

Lemma bucket_of_s6 : bucket_of bucket_s6 tree_s6.
Proof. split_and!; [done|done|apply represents_s6]. Qed.

Lemma Last_Prev_reverse_order_witness :
  ∃ st, cursor_run bucket_s6 4 [MLast; MPrev; MPrev] =
          Done (st, (Some [x62], Some [x32])).
Proof.
  apply (Last_Prev_reverse_order bucket_s6 tree_s6 4 2 bucket_of_s6 no_empty_leaf_s6).
  simpl. lia.
Defined.

(** Scenario S6, backwards. *)
Example cursor_s6_backward :
  (λ n, snd <$> (match cursor_run bucket_s6 4 (MLast :: replicate n MPrev) with
                 | Done r => Some r
                 | _ => None
                 end)) <$> [0; 1; 2; 3; 4; 5]%nat =
  [Some (Some [x64], Some [x34]); Some (Some [x63], Some [x33]);
   Some (Some [x62], Some [x32]); Some (Some [x61], Some [x31]);
   Some (None, None); Some (None, None)].
Proof. by vm_compute. Qed.

(** X14. [Prev] undoes [Next] and [Next] undoes [Prev]: in a tree without
    empty leaves, from the [n]-th element (reached by [First] and [n] calls
    of [Next]) [Next] then [Prev] returns the [n]-th element again, and from
    the element after it [Prev] then [Next] returns that element again. *)
Theorem Next_Prev_inverse (b : Bucket) (t : tree) (fuel : nat) (n : nat) :
  bucket_of b t → no_empty_leaf t → (height t + leaves t < fuel)%nat →
  (S n < length (entries t))%nat →
  (∃ st, cursor_run b fuel (MFirst :: replicate n MNext ++ [MNext; MPrev]) =
           Done (st, returned (entries t !! n))) ∧
  (∃ st, cursor_run b fuel (MFirst :: replicate (S n) MNext ++ [MPrev; MNext]) =
           Done (st, returned (entries t !! S n))).
Proof.
  intros Hbucket Hnel Hfuel Hn. split.
  - by apply Next_then_Prev.
  - by apply Prev_then_Next.
Qed.

Lemma Next_Prev_inverse_witness :
  ∃ st, cursor_run bucket_s6 4 [MFirst; MNext; MNext; MPrev] =
          Done (st, (Some [x62], Some [x32])).
Proof.
  destruct (Next_Prev_inverse bucket_s6 tree_s6 4 1 bucket_of_s6 no_empty_leaf_s6)
    as (H & _).
  - simpl. lia.
  - simpl. lia.
  - exact H.
Defined.

(** X15. [Prev] on the first element returns (nil, nil) and leaves the
    cursor with an empty stack: in a tree without empty leaves, after
    [First] and [Prev] every further [Next] and [Prev] returns (nil, nil);
    [Next] does not come back to the first element. *)
Theorem Prev_before_first_loses_position (b : Bucket) (t : tree) (fuel : nat)
    (ms : list move) :
  bucket_of b t → no_empty_leaf t → (height t + leaves t < fuel)%nat →
  Forall (λ m, m = MNext ∨ m = MPrev) ms →
  cursor_run b fuel (MFirst :: MPrev :: ms) = Done ([], (None, None)).
Proof. intros Hbucket Hnel Hfuel Hms. by apply (Prev_off_first b t). Qed.

Lemma Prev_before_first_loses_position_witness :
  cursor_run bucket_s6 4 [MFirst; MPrev; MNext] = Done ([], (None, None)).
Proof.
  apply (Prev_before_first_loses_position bucket_s6 tree_s6 4 [MNext]
           bucket_of_s6 no_empty_leaf_s6).
  - simpl. lia.
  - repeat constructor.
Defined.

(** ** [Seek] followed by [Next], and [Seek] of a key of the tree *)

Lemma drop_S_tail {A} (l : list A) (n : nat) : drop (S n) l = tail (drop n l).
Proof.
  revert l. induction n as [|n IH]; intros [|x l]; try done.
  apply (IH l).
Qed.

Section seek_scan.
Variable b : Bucket.
Variable t : tree.
Hypothesis Hbucket : bucket_of b t.
Hypothesis Hord : ordered t.
Variable fuel : nat.
Hypothesis Hfuel : (height t + leaves t < fuel)%nat.
Variable key : list byte.

(** After [Seek] the elements with a greater key than the one returned are
    to the right of the cursor. *)
Lemma Seek_position :
  ∃ st, Seek b fuel key = Done (st, returned (head (from_key key (entries t)))) ∧
        cursor_in b t st ∧
        after t st = tail (from_key key (entries t)).
Proof.
  destruct Hbucket as (Hopen & Hroot & Hrep).
  unfold Seek, seek, assert_open. rewrite Hopen, Hroot. cbn [obind].
  destruct (search_spec b key t fuel [] Hrep Hord ltac:(lia)) as (st0 & Hsearch & Hcur & Hent).
  rewrite Hsearch. cbn [obind app].
  destruct (cursor_stack_top b st0 t Hrep Hcur) as (top & Htop & Hcount & Hidx & Hhere).
  rewrite Htop. cbn [obind]. rewrite Hcount. cbn [obind].
  destruct (Z.leb_spec (Z.of_nat (length (leaf_of t st0))) (e_index top)) as [Hpast|Hin].
  - cbn [obind]. rewrite Htop. cbn [obind]. rewrite Hcount. cbn [obind].
    destruct (Z.leb_spec (Z.of_nat (length (leaf_of t st0))) (e_index top)) as [_|?]; [|lia].
    assert (Hh : here t st0 = None) by (rewrite Hhere; apply lookup_ge_None; lia).
    rewrite Hh in Hent. simpl in Hent.
    destruct (next_spec b fuel st0 t Hrep Hcur) as (st' & r & Hnext & Hcur' & Hres).
    { pose proof (right_leaves_lt b _ t Hrep Hcur). lia. }
    rewrite Hnext. cbn [obind]. exists st'. rewrite <- Hent.
    destruct (after t st0) as [|x A].
    + destruct Hres as (-> & Hafter & _). by split_and!.
    + destruct Hres as (-> & _ & Hafter). cbn [head tail].
      rewrite <- hide_bucket_value_entry. by split_and!.
  - destruct (lookup_lt_is_Some_2 (leaf_of t st0) (Z.to_nat (e_index top))) as [x Hx]; [lia|].
    rewrite Hx in Hhere. rewrite Hhere in Hent. simpl in Hent.
    rewrite (cursor_keyValue b st0 t Hrep Hcur), Hhere. cbn [obind].
    rewrite Htop. cbn [obind]. rewrite Hcount. cbn [obind].
    destruct (Z.leb_spec (Z.of_nat (length (leaf_of t st0))) (e_index top)) as [?|_]; [lia|].
    cbn [obind]. exists st0. rewrite <- Hent. cbn [head tail].
    rewrite <- hide_bucket_value_entry. by split_and!.
Qed.

Lemma run_seek (n : nat) :
  ∃ st, cursor_run b fuel (MSeek key :: replicate n MNext) =
          Done (st, returned (from_key key (entries t) !! n)) ∧
        cursor_in b t st ∧
        after t st = drop (S n) (from_key key (entries t)).
Proof.
  pose proof (bucket_represents b t Hbucket) as Hrep.
  induction n as [|n (st & Hrun & Hcur & Hafter)].
  - destruct Seek_position as (st & HSeek & Hcur & Hafter).
    exists st. unfold cursor_run. cbn [replicate cursor_moves cursor_move].
    rewrite HSeek. cbn [obind]. rewrite <- head_lookup. split_and!; [done..|].
    rewrite Hafter. by destruct (from_key key (entries t)).
  - destruct (next_spec b fuel st t Hrep Hcur) as (st' & r & Hnext & Hcur' & Hres).
    { pose proof (right_leaves_lt b _ t Hrep Hcur). lia. }
    exists st'. rewrite replicate_S_end, app_comm_cons, cursor_run_snoc, Hrun.
    cbn [obind cursor_move fst]. unfold Next.
    rewrite (assert_open_ok b t Hbucket). cbn [obind]. rewrite Hnext. cbn [obind fst snd].
    assert (Hdrop : drop (S (S n)) (from_key key (entries t))
                    = tail (drop (S n) (from_key key (entries t)))).
    { apply drop_S_tail. }
    assert (Hlook : from_key key (entries t) !! S n
                    = head (drop (S n) (from_key key (entries t)))).
    { by rewrite head_lookup, lookup_drop, Nat.add_0_r. }
    rewrite Hdrop, Hlook. rewrite Hafter in Hres.
    destruct (drop (S n) (from_key key (entries t))) as [|x A].
    + destruct Hres as (-> & Hafter' & _). by split_and!.
    + destruct Hres as (-> & _ & Hafter'). cbn [head tail].
      rewrite hide_bucket_value_entry. by split_and!.
Qed.
End seek_scan.

(** X16. A range scan: in a B+tree (separators bounding their subtrees,
    keys strictly ascending) [Seek(k)] followed by calls of [Next()]
    returns, one after the other and in the order of the leaves, exactly
    the elements whose key is [≥ k], and (nil, nil) after the last of
    them. *)
Theorem Seek_Next_range (b : Bucket) (t : tree) (fuel : nat) (key : list byte) (n : nat) :
  bucket_of b t → ordered t → (height t + leaves t < fuel)%nat →
  ∃ st, cursor_run b fuel (MSeek key :: replicate n MNext) =
          Done (st, returned (from_key key (entries t) !! n)).
Proof.
  intros Hbucket Hord Hfuel.
  destruct (run_seek b t Hbucket Hord fuel Hfuel key n) as (st & Hrun & _).
  by exists st.
Qed.

Lemma ordered_s6 : ordered tree_s6.
Proof.
  apply ord_branch.
  - intros i j Hij. simpl in Hij. assert (i = 0 ∧ j = 1)%nat as [-> ->] by lia. by vm_compute.
  - repeat constructor; intros i j Hij; simpl in Hij;
      assert (i = 0 ∧ j = 1)%nat as [-> ->] by lia; by vm_compute.
  - intros i c Hc. destruct i as [|[|i]]; [| |done]; injection Hc as <-; split.
    + lia.
    + intros c' [= <-]. repeat constructor; by vm_compute.
    + intros _. repeat constructor; by vm_compute.
    + intros c' Hc'. done.
Qed.

Lemma Seek_Next_range_witness :
  ∃ st, cursor_run bucket_s6 4 [MSeek [x62]; MNext] = Done (st, (Some [x63], Some [x33])).
Proof.
  apply (Seek_Next_range bucket_s6 tree_s6 4 [x62] 1 bucket_of_s6 ordered_s6).
  simpl. lia.
Defined.

(** The elements of an ordered tree, left to right, have strictly ascending
    keys. *)
Lemma ordered_entries_sorted (t : tree) :
  ordered t →
  StronglySorted (λ x y, key_lt (lpe_key x) (lpe_key y)) (entries t).
Proof.
  induction t as [id es|id cs IH] using tree_ind'; intros Hord.
  - inversion Hord as [? ? Hasc|]; subst. cbn [entries].
    clear Hord. induction es as [|x es IHes]; constructor.
    + apply IHes. intros i j Hij. apply (Hasc (S i) (S j)). simpl. lia.
    + apply Forall_lookup. intros j y Hy.
      pose proof (Hasc 0%nat (S j)) as H. unfold entry_keys in H. simpl in H.
      rewrite (list_lookup_total_correct _ _ _ Hy) in H. apply H.
      apply lookup_lt_Some in Hy. lia.
  - inversion Hord as [|? ? Hasc Hall Hsep]; subst. rewrite entries_branch.
    assert (Hsuffix : ∀ k, StronglySorted (λ x y, key_lt (lpe_key x) (lpe_key y))
                             (children_entries (drop k cs))).
    { intros k. remember (length cs - k)%nat as d eqn:Hd.
      revert k Hd. induction d as [|d IHd]; intros k Hd.
      - rewrite drop_ge by lia. constructor.
      - destruct (lookup_lt_is_Some_2 cs k ltac:(lia)) as [c Hc].
        rewrite (drop_S _ _ _ Hc), children_entries_cons.
        apply StronglySorted_app_2; [| |apply IHd; lia].
        2:{ rewrite Forall_lookup in IH, Hall. apply (IH k c Hc), (Hall k c Hc). }
        intros x y Hx Hy. apply elem_of_children_entries in Hy as (j & c' & Hc' & Hy).
        rewrite lookup_drop in Hc'.
        destruct (lookup_lt_is_Some_2 cs (S k)) as [c1 Hc1].
        { apply lookup_lt_Some in Hc'. lia. }
        destruct (Hsep k c Hc) as [_ Hupper]. specialize (Hupper c1 Hc1).
        rewrite Forall_forall in Hupper. specialize (Hupper x Hx).
        destruct (Hsep (S k + j)%nat c' Hc') as [Hlower _].
        specialize (Hlower ltac:(lia)). rewrite Forall_forall in Hlower.
        specialize (Hlower y Hy).
        eapply key_lt_le_trans; [exact Hupper|].
        eapply key_le_trans; [|exact Hlower].
        destruct j as [|j].
        + rewrite Nat.add_0_r in Hc'. rewrite Hc1 in Hc'. injection Hc' as <-.
          apply key_le_cases. by right.
        + apply key_lt_le.
          pose proof (Hasc (S k) (S k + S j)%nat) as H.
          rewrite (branch_keys_child_view cs _ c1 Hc1) in H.
          rewrite (branch_keys_child_view cs _ c' Hc') in H.
          apply H. apply lookup_lt_Some in Hc'. lia. }
    specialize (Hsuffix 0%nat). by rewrite drop_0 in Hsuffix.
Qed.

Section seek_key.
Variable b : Bucket.
Variable t : tree.
Hypothesis Hbucket : bucket_of b t.
Hypothesis Hord : ordered t.
Variable fuel : nat.
Hypothesis Hfuel : (height t + leaves t < fuel)%nat.

Lemma Seek_present (x : leafPageElement) :
  x ∈ entries t → ∃ st, Seek b fuel (lpe_key x) = Done (st, returned (Some x)).
Proof.
  intros Hx. apply list_elem_of_lookup in Hx as [i Hi].
  destruct (Seek_spec b t Hbucket Hord fuel Hfuel (lpe_key x)) as (st & HSeek & _).
  exists st. rewrite HSeek. unfold from_key.
  rewrite (head_filter_leftmost _ (entries t) i x Hi); [done| |].
  - apply key_le_cases. by right.
  - intros j y Hj Hy Hle. apply key_le_iff in Hle. apply Hle.
    exact (sorted_lookup_lt _ _ j i y x (ordered_entries_sorted t Hord) Hj Hy Hi).
Qed.

Lemma Seek_returned (key : list byte) (st : list elemRef) (k : list byte)
    (v : option (list byte)) :
  Seek b fuel key = Done (st, (Some k, v)) →
  key_le key k ∧ (∃ x, x ∈ entries t ∧ lpe_key x = k) ∧
  (k ≠ key → ∀ y, y ∈ entries t → lpe_key y ≠ key).
Proof.
  intros HSeek.
  destruct (Seek_spec b t Hbucket Hord fuel Hfuel key) as (st' & HSeek' & _).
  rewrite HSeek in HSeek'. injection HSeek' as -> Hret.
  destruct (head (from_key key (entries t))) as [x|] eqn:Hhead; [|done].
  cbn [returned] in Hret. injection Hret as -> _.
  assert (Hin : x ∈ from_key key (entries t)).
  { destruct (from_key key (entries t)) as [|x' F]; [done|].
    injection Hhead as ->. apply list_elem_of_here. }
  apply list_elem_of_filter in Hin as [Hle Hin]. split_and!; [done|by exists x|].
  intros Hne y Hy Hkey. destruct (Seek_present y Hy) as (st1 & Hy1).
  rewrite Hkey, HSeek in Hy1. injection Hy1 as _ Hk _. by rewrite Hk, Hkey in Hne.
Qed.
End seek_key.

(** X17. In a B+tree [Seek] finds every key of the tree: [Seek] of the key
    of an element returns that key and the element's value (nil for a
    sub-bucket).  A key that [Seek(k)] returns is a key of the tree and
    [≥ k]; when it differs from [k], no element of the tree has the key
    [k]. *)
Theorem Seek_finds_key (b : Bucket) (t : tree) (fuel : nat) :
  bucket_of b t → ordered t → (height t + leaves t < fuel)%nat →
  (∀ x, x ∈ entries t →
        ∃ st, Seek b fuel (lpe_key x) =
                Done (st, (Some (lpe_key x),
                           if decide (Z.land (lpe_flags x) bucketLeafFlag = 0)
                           then Some (lpe_value x) else None))) ∧
  (∀ key st k v, Seek b fuel key = Done (st, (Some k, v)) →
                 key_le key k ∧ (∃ x, x ∈ entries t ∧ lpe_key x = k) ∧
                 (k ≠ key → ∀ y, y ∈ entries t → lpe_key y ≠ key)).
Proof.
  intros Hbucket Hord Hfuel. split.
  - intros x Hx. by apply (Seek_present b t).
  - intros key st k v. by apply (Seek_returned b t).
Qed.

Lemma Seek_finds_key_witness :
  ∃ st, Seek bucket_s6 4 [x63] = Done (st, (Some [x63], Some [x33])).
Proof.
  destruct (Seek_finds_key bucket_s6 tree_s6 4 bucket_of_s6 ordered_s6) as (Hfind & _).
  - simpl. lia.
  - apply (Hfind (leaf_elem x63 x33)). cbn [entries tree_s6 snd].
    unfold leaf_s6_left, leaf_s6_right. simpl. set_solver.
Defined.

(** ** [first] and [nsearch] *)

Lemma leftmost_indices (b : Bucket) (t : tree) :
  Forall (λ e, e_index e = 0) (leftmost b t).
Proof.
  induction t as [id es|id cs IH] using tree_ind'; cbn [leftmost].
  - by repeat constructor.
  - constructor; [done|]. destruct cs as [|c cs]; [constructor|].
    by apply Forall_cons in IH as [IHc _].
Qed.

(** X18. [first] goes from a frame with index 0 on the root of a subtree
    down to the leftmost leaf: it leaves the frames below it as they are
    and pushes one frame with index 0 for every level, the last of them on
    a leaf, so that every element of the subtree is at or to the right of
    the cursor. *)
Theorem first_descends_leftmost (b : Bucket) (t : tree) (fuel : nat)
    (pre : list elemRef) :
  represents b t → (height t < fuel)%nat →
  ∃ st, first b fuel (pre ++ [frame b (root_id t) 0]) = Done (pre ++ st) ∧
        cursor_in b t st ∧
        Forall (λ e, e_index e = 0) st ∧
        option_list (here t st) ++ after t st = entries t.
Proof.
  intros Hrep Hfuel. exists (leftmost b t).
  destruct (leftmost_props b t Hrep) as (Hcur & Hent & _ & _).
  split_and!; [by apply first_leftmost|done|apply leftmost_indices|done].
Qed.

Lemma first_descends_leftmost_witness :
  ∃ st, first bucket_s6 2 [frame bucket_s6 3 0] = Done st ∧
        cursor_in bucket_s6 tree_s6 st ∧
        Forall (λ e, e_index e = 0) st ∧
        option_list (here tree_s6 st) ++ after tree_s6 st = entries tree_s6.
Proof.
  apply (first_descends_leftmost bucket_s6 tree_s6 2 [] represents_s6).
  simpl. lia.
Defined.

Example first_s6 :
  first bucket_s6 2 [frame bucket_s6 3 0] =
    Done [frame bucket_s6 3 0; frame bucket_s6 4 0].
Proof. by vm_compute. Qed.

(** X19. [nsearch] sets the index of the frame on top of the stack, a leaf
    with strictly ascending keys held as a node or as a page, to the
    leftmost index whose key is [≥ key], or to the number of elements when
    every key is smaller; the frames below are left as they are. *)
Theorem nsearch_lower_bound (b : Bucket) (id i : Z) (es : list leafPageElement)
    (pre : list elemRef) (key : list byte) :
  resolves_leaf (b_pageNode b id) es →
  keys_ascending (length es) (entry_keys es) →
  ∃ l : nat,
    nsearch key (pre ++ [frame b id i]) = Done (pre ++ [frame b id (Z.of_nat l)]) ∧
    lower_bound (length es) (entry_keys es) key l.
Proof.
  intros Hres Hasc.
  exists (sort_Search (length es) (leaf_probe (entry_keys es) key)).
  split; [|by apply sort_Search_lower_bound].
  unfold nsearch. rewrite stack_top_snoc. cbn [obind]. unfold frame.
  destruct (b_pageNode b id) as [p n]. destruct Hres as [_ H]. cbn [fst snd e_node e_page] in *.
  destruct n as [nd|].
  - destruct H as [_ <-]. rewrite set_top_index_snoc, length_fmap.
    rewrite (sort_Search_leaf_ext _ (node_keys nd) (entry_keys (inode_entry <$> n_inodes nd)));
      [done|].
    intros j Hj. unfold node_keys, entry_keys.
    by rewrite (list_lookup_total_fmap inode_entry) by done.
  - destruct p as [pg|]; [|done]. destruct H as (_ & Hcount & Hlt & <-).
    rewrite set_top_index_snoc, Hcount, Nat2Z.id.
    assert (Harr : leafPageElements pg = leaf_array pg).
    { unfold leafPageElements. destruct (Z.eqb_spec (p_count pg) 0) as [H0|]; [|done].
      symmetry. apply nil_length_inv. lia. }
    rewrite (sort_Search_leaf_ext _ (leaf_page_keys pg) (entry_keys (leaf_array pg))); [done|].
    intros j Hj. unfold leaf_page_keys, entry_keys. by rewrite Harr.
Qed.

Lemma nsearch_lower_bound_witness :
  ∃ l : nat,
    nsearch [x62] [frame bucket_s5 3 0] = Done [frame bucket_s5 3 (Z.of_nat l)] ∧
    lower_bound 3 (entry_keys leaf_s5) [x62] l.
Proof.
  apply (nsearch_lower_bound bucket_s5 3 0 leaf_s5 [] [x62]).
  - pose proof represents_s5 as H. by inversion H.
  - pose proof ordered_s5 as H. by inversion H.
Defined.

Example nsearch_s5 :
  (λ key, nsearch key [frame bucket_s5 3 0]) <$> [[x62]; [x65]; [x66]; []] =
  [Done [frame bucket_s5 3 1]; Done [frame bucket_s5 3 2];
   Done [frame bucket_s5 3 3]; Done [frame bucket_s5 3 0]].
Proof. by vm_compute. Qed.

(** ** Edge cases of the freelist *)

Lemma allocate_scan_zero (rest : list Z) (i : nat) (initial previd : Z) :
  valid_ids rest →
  previd = 0 ∨ (1 < initial ≤ previd ∧ previd ≤ max_uint64) →
  allocate_scan 0 rest i initial previd = Done None.
Proof.
  intros Hvalid. revert i initial previd.
  induction Hvalid as [|id rest Hid _ IH]; intros i initial previd Hprev; [done|].
  cbn [allocate_scan]. destruct (Z.leb_spec id 1) as [?|_]; [lia|].
  set (initial' := if (previd =? 0) || negb (wrap64 (id - previd) =? 1) then id else initial).
  assert (Hinit : 1 < initial' ≤ id).
  { unfold initial'. destruct (Z.eqb_spec previd 0) as [->|Hne]; [simpl; lia|].
    destruct Hprev as [?|[Hi Hp]]; [done|].
    rewrite (wrap64_sub_is_one id previd) by lia. cbn [orb].
    destruct (bool_decide_reflect (id = previd + 1)); simpl; lia. }
  assert (Hneq : (wrap64 (wrap64 (id - initial') + 1) =? pgid_of_int 0) = false).
  { apply Z.eqb_neq. unfold pgid_of_int, wrap64, max_uint64 in *.
    rewrite (Z.mod_small (id - initial')) by lia.
    rewrite (Z.mod_small (id - initial' + 1)) by lia. rewrite Z.mod_0_l; lia. }
  rewrite Hneq. apply IH. right. lia.
Qed.

(** X20. [allocate(0)] allocates nothing: on a freelist whose ids are all
    above 1 it returns 0 and leaves the freelist as it is. *)
Theorem allocate_zero (f : freelist) :
  valid_ids (ids f) → allocate 0 f = Done (0, f).
Proof.
  intros Hvalid. unfold allocate. destruct (length (ids f) =? 0)%nat; [done|].
  rewrite (allocate_scan_zero (ids f) 0 0 0 Hvalid); [done|by left].
Qed.

Lemma allocate_zero_witness : allocate 0 freelist_s1 = Done (0, freelist_s1).
Proof. apply allocate_zero. repeat constructor; by vm_compute. Defined.

Lemma release_nothing (t : Z) (f : freelist) :
  (∀ t' l, pending f !! t' = Some l → t < t') → release t f = Done f.
Proof.
  intros Hlater. unfold release.
  assert (Hold : filter (λ kv : Z * list Z, kv.1 ≤ t) (pending f) = ∅).
  { apply map_empty_filter. intros t' l Hl Hle. specialize (Hlater t' l Hl).
    simpl in Hle. lia. }
  assert (Hnew : filter (λ kv : Z * list Z, ¬ kv.1 ≤ t) (pending f) = pending f).
  { apply map_filter_id. intros t' l Hl. specialize (Hlater t' l Hl). simpl. lia. }
  rewrite Hold, Hnew, map_to_list_empty. cbn [fmap list_fmap foldl].
  change (sort_pgids []) with (@nil Z).
  assert (Hmerge : merge (ids f) [] = Done (ids f)) by (by destruct (ids f)).
  rewrite Hmerge. cbn [obind]. by destruct f.
Qed.

(** X21. [release] is idempotent, and does nothing when no transaction up
    to [txid] has pending pages: a second [release] of the same transaction
    id returns the freelist as the first one left it. *)
Theorem release_idempotent (t : Z) (f : freelist) :
  ((∀ t' l, pending f !! t' = Some l → t < t') → release t f = Done f) ∧
  (∀ f', release t f = Done f' → release t f' = Done f').
Proof.
  split; [apply release_nothing|].
  intros f' Hrel. apply release_nothing.
  destruct (release_outcome t f) as (f'' & Hr & _ & _ & Hpend & _).
  rewrite Hrel in Hr. injection Hr as <-.
  intros t' l Hl. by apply Hpend in Hl as [_ ?].
Qed.



(** ** [typ] *)

Lemma land_lor_freelist (x m : Z) :
  Z.land freelistPageFlag m = 0 → Z.land (Z.lor x freelistPageFlag) m = Z.land x m.
Proof. intros Hm. by rewrite Z.land_lor_distr_l, Hm, Z.lor_0_r. Qed.

Lemma land_lor_same (x m : Z) : Z.land (Z.lor x m) m = m.
Proof.
  apply Z.bits_inj'. intros n Hn. rewrite Z.land_spec, Z.lor_spec.
  by destruct (Z.testbit x n), (Z.testbit m n).
Qed.

Lemma land_submask (x m k : Z) : Z.land m k = k → Z.land x m = 0 → Z.land x k = 0.
Proof. intros Hk Hx. by rewrite <- Hk, Z.land_assoc, Hx. Qed.

(** X24. [typ] names a page by the first of the branch, leaf, meta and
    freelist flags that is set.  [freelist.write] only adds the freelist
    flag: the page it has written is typed "freelist" when none of the
    branch, leaf and meta flags was set before, and keeps its type
    otherwise. *)
Theorem write_typ (p p' : page) (f : freelist) (e : option unit) :
  write p f = Done (p', e) →
  (Z.land (p_flags p) 7 = 0 → typ p' = "freelist"%string) ∧
  (Z.land (p_flags p) 7 ≠ 0 → typ p' = typ p).
Proof.
  intros Hwrite. rewrite write_unfold in Hwrite.
  destruct (if Z.of_nat (count f) =? 0 then _ else _) as [r| |]; [|done..].
  cbn [obind] in Hwrite. injection Hwrite as <- _. unfold typ. cbn [p_flags].
  rewrite !land_lor_freelist by done.
  rewrite land_lor_same.
  split.
  - intros H7.
    rewrite (land_submask (p_flags p) 7 branchPageFlag eq_refl H7).
    rewrite (land_submask (p_flags p) 7 leafPageFlag eq_refl H7).
    rewrite (land_submask (p_flags p) 7 metaPageFlag eq_refl H7). done.
  - intros H7.
    destruct (Z.eqb_spec (Z.land (p_flags p) branchPageFlag) 0) as [H1|]; [|done].
    destruct (Z.eqb_spec (Z.land (p_flags p) leafPageFlag) 0) as [H2|]; [|done].
    destruct (Z.eqb_spec (Z.land (p_flags p) metaPageFlag) 0) as [H4|]; [|done].
    destruct H7. change 7 with (Z.lor (Z.lor branchPageFlag leafPageFlag) metaPageFlag).
    by rewrite !Z.land_lor_distr_r, H1, H2, H4.
Qed.

Lemma write_typ_witness :
  ∃ p', write page_s3 freelist_s3 = Done (p', None) ∧ typ p' = "freelist"%string.
Proof.
  assert (H : ∃ p', write page_s3 freelist_s3 = Done (p', None))
    by (eexists; apply write_s3).
  destruct H as (p' & Hwrite). exists p'. split; [exact Hwrite|].
  apply (write_typ page_s3 p' freelist_s3 None Hwrite). reflexivity.
Defined.

Example typ_examples :
  typ <$> [page_at 2 0; leaf_page 3 []; branch_page 4 [];
           {| p_id := 0; p_flags := 0x04; p_count := 0; p_overflow := 0; p_ptr := PgidSlots [] |};
           {| p_id := 0; p_flags := 0x13; p_count := 0; p_overflow := 0; p_ptr := PgidSlots [] |};
           {| p_id := 0; p_flags := 0x128; p_count := 0; p_overflow := 0; p_ptr := PgidSlots [] |}] =
  ["unknown<00>"; "leaf"; "branch"; "meta"; "branch"; "unknown<128>"]%string.
Proof. reflexivity. Qed.
(** ** [First] and [Next], past the end *)

Lemma rightmost_leaf_no_entries (t : tree) : entries t = [] → rightmost_leaf t = [].
Proof.
  destruct (entries_rightmost_leaf t) as [pre ->]. by intros [_ ?]%app_eq_nil.
Qed.

(** A cursor with nothing to its right that is in an empty leaf: the last
    leaf of the tree is empty. *)
Lemma end_in_empty_leaf (b : Bucket) (t : tree) (st : list elemRef) :
  cursor_in b t st → after t st = [] → leaf_of t st = [] → rightmost_leaf t = [].
Proof.
  revert t. induction st as [|e rest IH]; intros t Hcur Hafter Hleaf; [done|].
  destruct t as [id es|id cs]; cbn [cursor_in leaf_of after] in *; [done|].
  destruct Hcur as (_ & Hi & Hcur).
  destruct (cs !! Z.to_nat (e_index e)) as [c|] eqn:Hc; [|done].
  apply app_eq_nil in Hafter as [Hafter Hright].
  rewrite rightmost_leaf_branch.
  rewrite <- (take_drop (S (Z.to_nat (e_index e))) cs), (take_S_r _ _ _ Hc).
  destruct (last (drop (S (Z.to_nat (e_index e))) cs)) as [c'|] eqn:Hl.
  - apply last_Some in Hl as [cs' Hcs']. rewrite Hcs' in Hright |- *.
    rewrite app_assoc, last_snoc.
    rewrite children_entries_app in Hright. apply app_eq_nil in Hright as [_ Hright].
    apply rightmost_leaf_no_entries.
    rewrite children_entries_cons in Hright. by apply app_eq_nil in Hright as [? _].
  - apply last_None in Hl. rewrite Hl, app_nil_r, last_snoc. by apply IH.
Qed.

Section past_the_end.
Variable b : Bucket.
Variable t : tree.
Hypothesis Hbucket : bucket_of b t.
Variable fuel : nat.
Hypothesis Hfuel : (height t + leaves t < fuel)%nat.
Hypothesis Hlast : rightmost_leaf t ≠ [].

(** With nothing to its right the cursor does not move. *)
Lemma Next_stays (st : list elemRef) :
  cursor_in b t st → after t st = [] → Next b fuel st = Done (st, (None, None)).
Proof.
  intros Hcur Hafter. pose proof (bucket_represents b t Hbucket) as Hrep.
  unfold Next. rewrite (assert_open_ok b t Hbucket). cbn [obind].
  destruct (next_spec b fuel st t Hrep Hcur) as (st' & r & Hnext & Hcur' & Hres).
  { pose proof (right_leaves_lt b _ t Hrep Hcur). lia. }
  rewrite Hnext. cbn [obind fst snd]. rewrite Hafter in Hres.
  destruct Hres as (-> & Hafter' & [->|[_ Hnil]]); [done|].
  destruct Hlast. by apply (end_in_empty_leaf b t st').
Qed.

Lemma cursor_after_past_end (n : nat) (st : list elemRef) r :
  (length (entries t) ≤ S n)%nat →
  cursor_after b fuel n = Done (st, r) →
  cursor_after b fuel (S n) = Done (st, (None, None)) ∧ here t st = last (entries t).
Proof.
  revert st r. induction n as [|n IH]; intros st r Hlen Hn.
  - destruct (cursor_after_spec b t Hbucket fuel Hfuel 0) as (st0 & Hn0 & Hat).
    rewrite Hn in Hn0. injection Hn0 as <- _.
    destruct Hat as (Hcur & Hafter & Hhere & _).
    rewrite drop_ge in Hafter by done. split.
    + cbn [cursor_after] in Hn |- *. rewrite Hn. cbn [obind fst]. by apply Next_stays.
    + destruct (entries t) as [|x [|y l]] eqn:He; [|by apply Hhere; simpl; lia|simpl in Hlen; lia].
      destruct Hlast. by apply rightmost_leaf_no_entries.
  - destruct (cursor_after_spec b t Hbucket fuel Hfuel (S n)) as (st0 & Hn0 & Hat).
    rewrite Hn in Hn0. injection Hn0 as <- _.
    destruct Hat as (Hcur & Hafter & Hhere & _).
    rewrite drop_ge in Hafter by done. split.
    + change (cursor_after b fuel (S (S n)))
        with (r0 ←← cursor_after b fuel (S n) ;; Next b fuel r0.1).
      rewrite Hn. cbn [obind fst]. by apply Next_stays.
    + destruct (decide (S n < length (entries t))%nat) as [Hlt|Hge].
      * rewrite (Hhere Hlt), last_lookup. f_equal. lia.
      * destruct (cursor_after_spec b t Hbucket fuel Hfuel n) as (st1 & Hn1 & _).
        destruct (IH st1 _ ltac:(lia) Hn1) as [Hstay Hh].
        rewrite Hn in Hstay. by injection Hstay as ->.
Qed.
End past_the_end.

Lemma bucket_of_gap : bucket_of bucket_gap tree_gap.
Proof.
  split_and!; [done|done|].
  apply rep_branch; [by vm_compute|done|].
  repeat constructor; by vm_compute.
Qed.

(** X25. [First()] and then repeated [Next()] return the leaf elements of
    the tree in order, the [n]-th call the [n]-th element, and (nil, nil)
    from the end on, whatever leaves are empty; with strictly ascending
    leaf keys the keys come out strictly ascending.  When the last leaf of
    the tree is not empty, the cursor does not move any more once it is on
    the last element: every further call returns (nil, nil) and the cursor
    is on the last element. *)
Theorem First_Next_in_order (b : Bucket) (t : tree) (fuel : nat) :
  bucket_of b t →
  keys_ascending (length (entries t)) (entry_keys (entries t)) →
  (height t + leaves t < fuel)%nat →
  (∀ n, ∃ st, cursor_after b fuel n = Done (st, returned (entries t !! n))) ∧
  (∀ i j x y, (i < j)%nat → entries t !! i = Some x → entries t !! j = Some y →
              key_lt (lpe_key x) (lpe_key y)) ∧
  (rightmost_leaf t ≠ [] →
   ∀ n st r, (length (entries t) ≤ S n)%nat →
     cursor_after b fuel n = Done (st, r) →
     cursor_after b fuel (S n) = Done (st, (None, None)) ∧
     ∃ x, last (entries t) = Some x ∧ keyValue st = Done (entry_kv x)).
Proof.
  intros Hbucket Hasc Hfuel. split_and!.
  - intros n. destruct (cursor_after_spec b t Hbucket fuel Hfuel n) as (st & Hn & _).
    by exists st.
  - intros i j x y. by apply keys_ascending_lookup.
  - intros Hne n st r Hlen Hn.
    destruct (cursor_after_past_end b t Hbucket fuel Hfuel Hne n st r Hlen Hn) as [Hstay Hh].
    split; [done|].
    destruct (cursor_after_spec b t Hbucket fuel Hfuel n) as (st0 & Hn0 & Hcur & _).
    rewrite Hn in Hn0. injection Hn0 as <- _.
    rewrite (cursor_keyValue b st t (bucket_represents b t Hbucket) Hcur), Hh.
    destruct (last (entries t)) as [x|] eqn:Hl; [by exists x|].
    apply last_None in Hl. destruct Hne. by apply rightmost_leaf_no_entries.
Qed.

Lemma First_Next_in_order_witness :
  ∃ st, cursor_after bucket_gap 6 1 = Done (st, (Some [x63], Some [x33])) ∧
        cursor_after bucket_gap 6 2 = Done (st, (None, None)) ∧
        keyValue st = Done (entry_kv (leaf_elem x63 x33)).
Proof.
  destruct (First_Next_in_order bucket_gap tree_gap 6) as (Hseq & _ & Hend).
  - apply bucket_of_gap.
  - intros i j Hij. simpl in Hij.
    assert (i = 0 ∧ j = 1)%nat as [-> ->] by lia. by vm_compute.
  - simpl. lia.
  - destruct (Hseq 1%nat) as (st & Hst). exists st. split; [exact Hst|].
    destruct (Hend ltac:(done) 1%nat st _ ltac:(simpl; lia) Hst) as (Hstay & x & Hx & Hkv).
    split; [exact Hstay|]. simpl in Hx. injection Hx as <-. exact Hkv.
Defined.

(** The cursor walks over the empty leaf in the middle and stays on "c". *)
Example cursor_gap_forward :
  (λ n, snd <$> (match cursor_after bucket_gap 6 n with Done r => Some r | _ => None end))
    <$> [0; 1; 2; 3]%nat =
  [Some (Some [x61], Some [x31]); Some (Some [x63], Some [x33]);
   Some (None, None); Some (None, None)].
Proof. by vm_compute. Qed.
